(** * A pointer-level model of [bst.hpp]

    The tree of [src/c++/bst.hpp] is embedded over an explicit node store:
    every [node] lives at an address, [std::unique_ptr<node>] and [node*]
    are both (optional) addresses, and the member functions of [bst] are
    state transformers over the store.  Loops and recursive calls take a
    fuel argument; dereferencing an address that holds no node is a fault. *)

From stdpp Require Import gmap list strings pretty sorting.
From Stdlib Require Import ZArith Lia Sorting.

(** ** Outcomes of running a member function *)

Inductive result (A : Type) : Type :=
  | Ret (a : A)      (* the call returned [a] *)
  | Timeout          (* the fuel ran out before the call returned *)
  | Fault.           (* undefined behaviour: null or dangling dereference,
                        signed overflow, out-of-range index *)
Arguments Ret {A} a.
Arguments Timeout {A}.
Arguments Fault {A}.

#[global] Instance result_ret : MRet result := @Ret.
#[global] Instance result_bind : MBind result := λ A B f m,
  match m with
  | Ret a => f a
  | Timeout => Timeout
  | Fault => Fault
  end.

(** A computation [c] (a function of its fuel) returns [r] when every
    sufficiently large fuel makes it return [r]. *)
Definition returns {A} (c : nat → result A) (r : A) : Prop :=
  ∃ N, ∀ fuel, N ≤ fuel → c fuel = Ret r.

(** A hypothesis set aside, out of reach of the simplifying tactics. *)
Definition kept (P : Prop) : Prop := P.

(** More fuel never changes what a call returns. *)
Definition mono {A} (c : nat → result A) : Prop :=
  ∀ n m v, c n = Ret v → n ≤ m → c m = Ret v.

(** ** [int], [std::size_t] and [std::vector] *)

Definition INT_MAX : Z := 2147483647.
Definition INT_MIN : Z := -2147483648.

(** Signed addition; an overflow is undefined behaviour. *)
Definition int_add (a b : Z) : result Z :=
  if decide (INT_MIN ≤ a + b ≤ INT_MAX)%Z then Ret (a + b)%Z else Fault.

(** The conversion of [nodes.size()] to the [int] parameter [end]:
    reduction modulo [2^32] into the range of [int]. *)
Definition int_of_size_t (n : nat) : Z :=
  let m := (Z.of_nat n mod 2 ^ 32)%Z in
  if decide (m ≤ INT_MAX)%Z then m else (m - 2 ^ 32)%Z.

(** [nodes[i]]: no bounds check, an index out of range is undefined. *)
Definition vector_at {A} (v : list A) (i : Z) : result A :=
  if decide (0 ≤ i)%Z then
    match v !! Z.to_nat i with
    | Some x => Ret x
    | None => Fault
    end
  else Fault.

(** Addresses of nodes. *)
Definition loc := positive.

Section bst.
Context {K V : Type}.
(** [cmp_op op] and the [operator==] of [key_type]. *)
Variable op : K → K → bool.
Variable key_eq : K → K → bool.
(** [operator<<] of [key_type] on an output stream. *)
Variable show : K → string.

(** ** [struct node] *)

Record node_t : Type := mk_node {
  right : option loc;     (* std::unique_ptr<node> right *)
  left : option loc;      (* std::unique_ptr<node> left *)
  parent : option loc;    (* node* parent *)
  value : K * V           (* T value, a std::pair<const key_type, value_type> *)
}.

Definition set_right (nd : node_t) (p : option loc) : node_t :=
  mk_node p (left nd) (parent nd) (value nd).
Definition set_left (nd : node_t) (p : option loc) : node_t :=
  mk_node (right nd) p (parent nd) (value nd).
Definition set_parent (nd : node_t) (p : option loc) : node_t :=
  mk_node (right nd) (left nd) p (value nd).

Definition deref (h : gmap loc node_t) (a : loc) : result node_t :=
  match h !! a with
  | Some nd => Ret nd
  | None => Fault
  end.

(** [new node_t{...}] / [std::make_unique<node_t>(...)]: the node is placed
    at an address that holds no node. *)
Definition alloc (h : gmap loc node_t) (nd : node_t) : loc * gmap loc node_t :=
  let a := fresh (dom h) in (a, <[a := nd]> h).

(** ** [class bst]: the node store and the [root] member *)

Record bst : Type := mk_bst {
  mem : gmap loc node_t;
  root : option loc
}.

(** The default constructor. *)
Definition empty_bst : bst := mk_bst ∅ None.

(** *** [_find] *)

Fixpoint _find_loop (fuel : nat) (h : gmap loc node_t) (tmp : option loc) (x : K)
  : result (option loc) :=
  match tmp with
  | None => Ret None
  | Some a =>
    match fuel with
    | O => Timeout
    | S fuel' =>
      nd ← deref h a;
      if key_eq (value nd).1 x then Ret (Some a)
      else if op x (value nd).1 then _find_loop fuel' h (left nd) x
      else if op (value nd).1 x then _find_loop fuel' h (right nd) x
      else Ret None
    end
  end.

Definition _find (fuel : nat) (t : bst) (x : K) : result (option loc) :=
  match root t with
  | None => Ret None
  | Some _ => _find_loop fuel (mem t) (root t) x
  end.

(** [find]: an iterator is the address of its node, [end()] is [None]. *)
Definition find (fuel : nat) (t : bst) (x : K) : result (option loc) :=
  _find fuel t x.

(** *** [_insert] *)

(** The second conditional of the loop body, entered with the [tmp] the
    first conditional left, followed by the rest of the loop. *)
Definition _insert_left (loop : gmap loc node_t → option loc → result (option (gmap loc node_t * loc)))
    (h : gmap loc node_t) (a : loc) (x : K * V)
  : result (option (gmap loc node_t * loc)) :=
  nd ← deref h a;
  if op x.1 (value nd).1 then
    match left nd with
    | Some l => loop h (Some l)
    | None =>
      let '(b, h') := alloc h (mk_node None None (Some a) x) in
      Ret (Some (<[a := set_left nd (Some b)]> h', b))
    end
  else loop h (Some a).

(** The [while(tmp)] loop.  [Ret (Some (h', b))] is a [return] from inside
    the loop, with the new node at [b]; [Ret None] is the exit of the loop
    with [tmp] null. *)
Fixpoint _insert_loop (fuel : nat) (x : K * V) (h : gmap loc node_t) (tmp : option loc)
  : result (option (gmap loc node_t * loc)) :=
  match tmp with
  | None => Ret None
  | Some a =>
    match fuel with
    | O => Timeout
    | S fuel' =>
      nd ← deref h a;
      if op (value nd).1 x.1 then
        match right nd with
        | Some r => _insert_left (_insert_loop fuel' x) h r x
        | None =>
          let '(b, h') := alloc h (mk_node None None (Some a) x) in
          Ret (Some (<[a := set_right nd (Some b)]> h', b))
        end
      else _insert_left (_insert_loop fuel' x) h a x
    end
  end.

Definition _insert (fuel : nat) (t : bst) (x : K * V) : result (bst * (option loc * bool)) :=
  n ← _find fuel t x.1;
  match n with
  | Some a => Ret (t, (Some a, false))
  | None =>
    r ← _insert_loop fuel x (mem t) (root t);
    match r with
    | Some (h', b) => Ret (mk_bst h' (root t), (Some b, true))
    | None =>
      let '(b, h') := alloc (mem t) (mk_node None None None x) in
      Ret (mk_bst h' (Some b), (Some b, true))
    end
  end.

(** The two [insert] overloads forward to [_insert]. *)
Definition insert (fuel : nat) (t : bst) (x : K * V) := _insert fuel t x.
Definition insert_move (fuel : nat) (t : bst) (x : K * V) := _insert fuel t x.

(** A sequence of calls [insert(x)] for the entries [xs], in order. *)
Fixpoint insert_all (fuel : nat) (t : bst) (xs : list (K * V)) : result bst :=
  match xs with
  | [] => Ret t
  | x :: xs => '(t', _) ← insert fuel t x; insert_all fuel t' xs
  end.

(** The three-argument constructor call [emplace(key, value)] and the
    one-argument call [emplace(pair)] both build a [pair_type]. *)
Inductive emplace_args : Type :=
  | args_pair (p : K * V)
  | args_key_value (k : K) (v : V).

Definition pair_type (args : emplace_args) : K * V :=
  match args with
  | args_pair p => p
  | args_key_value k v => (k, v)
  end.

Definition emplace (fuel : nat) (t : bst) (args : emplace_args) :=
  insert_move fuel t (pair_type args).

(** *** [_inorder] and [begin] *)

Fixpoint _inorder (fuel : nat) (h : gmap loc node_t) (x : loc) : result loc :=
  match fuel with
  | O => Timeout
  | S fuel' =>
    nd ← deref h x;
    match left nd with
    | Some l => _inorder fuel' h l
    | None => Ret x
    end
  end.

(** [begin] runs the same loop as [_inorder] from the root. *)
Definition begin (fuel : nat) (t : bst) : result (option loc) :=
  match root t with
  | None => Ret None
  | Some a => b ← _inorder fuel (mem t) a; Ret (Some b)
  end.

(** *** Destruction of nodes

    [delete p] on a node: the implicit destructor destroys the members in
    reverse order of declaration, so the [left] subtree goes first, then
    the [right] one, and then the node's storage is released. *)
Fixpoint destroy (fuel : nat) (h : gmap loc node_t) (p : option loc)
  : result (gmap loc node_t) :=
  match p with
  | None => Ret h
  | Some a =>
    match fuel with
    | O => Timeout
    | S fuel' =>
      nd ← deref h a;
      h1 ← destroy fuel' h (left nd);
      h2 ← destroy fuel' h1 (right nd);
      Ret (delete a h2)
    end
  end.

(** [pa->left.reset(p)], [pa->right.reset(p)]: the member takes [p], then
    the node it held is deleted. *)
Definition reset_left (fuel : nat) (h : gmap loc node_t) (pa : loc) (p : option loc)
  : result (gmap loc node_t) :=
  pnd ← deref h pa;
  destroy fuel (<[pa := set_left pnd p]> h) (left pnd).

Definition reset_right (fuel : nat) (h : gmap loc node_t) (pa : loc) (p : option loc)
  : result (gmap loc node_t) :=
  pnd ← deref h pa;
  destroy fuel (<[pa := set_right pnd p]> h) (right pnd).

(** [root.reset(p)] *)
Definition reset_root (fuel : nat) (t : bst) (p : option loc) : result bst :=
  h ← destroy fuel (mem t) (root t);
  Ret (mk_bst h p).

(** [a->left.release()], [a->right.release()] *)
Definition release_left (h : gmap loc node_t) (a : loc)
  : result (option loc * gmap loc node_t) :=
  nd ← deref h a;
  Ret (left nd, <[a := set_left nd None]> h).

Definition release_right (h : gmap loc node_t) (a : loc)
  : result (option loc * gmap loc node_t) :=
  nd ← deref h a;
  Ret (right nd, <[a := set_right nd None]> h).

(** [c->parent = p] *)
Definition store_parent (h : gmap loc node_t) (c : loc) (p : option loc)
  : result (gmap loc node_t) :=
  nd ← deref h c;
  Ret (<[c := set_parent nd p]> h).

(** Dereferencing a possibly null [node*]. *)
Definition deref_ptr (h : gmap loc node_t) (p : option loc) : result (loc * node_t) :=
  match p with
  | Some a => nd ← deref h a; Ret (a, nd)
  | None => Fault
  end.

(** [clear] *)
Definition clear (fuel : nat) (t : bst) : result bst := reset_root fuel t None.

(** *** [erase] *)

(** [if(n->left) n->left->parent = n; if(n->right) n->right->parent = n;] *)
Definition adopt_children (h : gmap loc node_t) (n : loc) : result (gmap loc node_t) :=
  nd ← deref h n;
  h1 ← match left nd with
       | Some c => store_parent h c (Some n)
       | None => Ret h
       end;
  nd1 ← deref h1 n;
  match right nd1 with
  | Some c => store_parent h1 c (Some n)
  | None => Ret h1
  end.

(** [new node_t{v, n->right.release(), n->left.release(), n->parent}] *)
Definition rebuild_node (h : gmap loc node_t) (n : loc) (v : K * V)
  : result (loc * gmap loc node_t) :=
  '(r, h1) ← release_right h n;
  '(l, h2) ← release_left h1 n;
  nd ← deref h2 n;
  Ret (alloc h2 (mk_node r l (parent nd) v)).

(** The end of the two-children case of [erase], after the recursive
    call: a new node with the entry [v] of the successor takes the place
    and the subtrees of [n]. *)
Definition replace_node (fuel : nat) (t1 : bst) (n : loc) (v : K * V) : result bst :=
  if decide (Some n = root t1) then
    '(b, h1) ← rebuild_node (mem t1) n v;
    t2 ← reset_root fuel (mk_bst h1 (root t1)) (Some b);
    h3 ← adopt_children (mem t2) b;
    Ret (mk_bst h3 (root t2))
  else
    nd1 ← deref (mem t1) n;
    '(_, pnd) ← deref_ptr (mem t1) (parent nd1);
    let is_left := bool_decide (left pnd = Some n) in
    '(b, h1) ← rebuild_node (mem t1) n v;
    h2 ← adopt_children h1 b;
    bnd ← deref h2 b;
    '(pa, _) ← deref_ptr h2 (parent bnd);
    if is_left
    then h3 ← reset_left fuel h2 pa (Some b); Ret (mk_bst h3 (root t1))
    else h3 ← reset_right fuel h2 pa (Some b); Ret (mk_bst h3 (root t1)).

Fixpoint erase (fuel : nat) (t : bst) (x : K) : result bst :=
  match fuel with
  | O => Timeout
  | S fuel' =>
    f ← _find fuel' t x;
    match f with
    | None => Ret t
    | Some n =>
      nd ← deref (mem t) n;
      match left nd, right nd with
      | None, None =>
        if decide (Some n = root t) then reset_root fuel' t None
        else
          '(pa, pnd) ← deref_ptr (mem t) (parent nd);
          if decide (Some n = left pnd)
          then h ← reset_left fuel' (mem t) pa None; Ret (mk_bst h (root t))
          else h ← reset_right fuel' (mem t) pa None; Ret (mk_bst h (root t))
      | Some _, Some r =>
        i ← _inorder fuel' (mem t) r;
        ind ← deref (mem t) i;
        let v := value ind in
        t1 ← erase fuel' t v.1;
        replace_node fuel' t1 n v
      | _, _ =>
        if decide (Some n = root t) then
          match right nd with
          | Some c =>
            h1 ← store_parent (mem t) c None;
            '(p, h2) ← release_right h1 n;
            reset_root fuel' (mk_bst h2 (root t)) p
          | None =>
            '(c, _) ← deref_ptr (mem t) (left nd);
            h1 ← store_parent (mem t) c None;
            '(p, h2) ← release_left h1 n;
            reset_root fuel' (mk_bst h2 (root t)) p
          end
        else
          '(pa, pnd) ← deref_ptr (mem t) (parent nd);
          let on_left := bool_decide (left pnd = Some n) in
          h2 ← match left nd with
               | Some c =>
                 h1 ← store_parent (mem t) c (parent nd);
                 '(p, h2) ← release_left h1 n;
                 if on_left then reset_left fuel' h2 pa p else reset_right fuel' h2 pa p
               | None =>
                 '(c, _) ← deref_ptr (mem t) (right nd);
                 h1 ← store_parent (mem t) c (parent nd);
                 '(p, h2) ← release_right h1 n;
                 if on_left then reset_left fuel' h2 pa p else reset_right fuel' h2 pa p
               end;
          Ret (mk_bst h2 (root t))
      end
    end
  end.

(** *** The iterator *)

(** Modelled from the spec: [iterator.hpp] (the class [_iterator] and its
    [operator++]) is not among the sources.  Section 4.6: "ascend via
    parent links while the current node is its parent's right child; stop
    at the first ancestor for which the current node is the left child,
    and move to that ancestor; if no such ancestor exists (ascended past
    the root), the result is the end cursor". *)
Fixpoint ascend (fuel : nat) (h : gmap loc node_t) (cur : loc) (p : option loc)
  : result (option loc) :=
  match p with
  | None => Ret None
  | Some pa =>
    match fuel with
    | O => Timeout
    | S fuel' =>
      pnd ← deref h pa;
      if decide (right pnd = Some cur) then ascend fuel' h pa (parent pnd)
      else Ret (Some pa)
    end
  end.

(** Modelled from the spec: the increment of the iterator, section 4.6:
    "if the current node has a right child, move to that child's leftmost
    descendant.  Otherwise ascend [...]". *)
Definition increment (fuel : nat) (h : gmap loc node_t) (cur : loc) : result (option loc) :=
  nd ← deref h cur;
  match right nd with
  | Some r => l ← _inorder fuel h r; Ret (Some l)
  | None => ascend fuel h cur (parent nd)
  end.

(** [for (const auto& i : x) body], from the iterator [it] up to [end()];
    [body] updates the accumulator [acc] with the entry [i]. *)
Fixpoint range_for {A} (fuel : nat) (h : gmap loc node_t) (it : option loc)
    (body : A → K * V → A) (acc : A) : result A :=
  match it with
  | None => Ret acc
  | Some a =>
    match fuel with
    | O => Timeout
    | S fuel' =>
      nd ← deref h a;
      nxt ← increment fuel' h a;
      range_for fuel' h nxt body (body acc (value nd))
    end
  end.

(** The entries a traversal of the whole tree meets, in order. *)
Definition entries (fuel : nat) (t : bst) : result (list (K * V)) :=
  it ← begin fuel t;
  range_for fuel (mem t) it (λ acc i, acc ++ [i]) [].

(** *** [operator<<] *)

Definition operator_shl (fuel : nat) (os : string) (x : bst) : result string :=
  it ← begin fuel x;
  range_for fuel (mem x) it (λ os i, os +:+ show i.1 +:+ " ") os.

(** *** [_balance] and [balance] *)

Fixpoint _balance (fuel : nat) (t : bst) (nodes : list (K * V)) (start end_ : Z)
  : result bst :=
  match fuel with
  | O => Timeout
  | S fuel' =>
    if decide (start < end_)%Z then
      s ← int_add start end_;
      let mid := (s `quot` 2)%Z in
      x ← vector_at nodes mid;
      '(t1, _) ← insert fuel' t x;
      t2 ← _balance fuel' t1 nodes start mid;
      m1 ← int_add mid 1;
      _balance fuel' t2 nodes m1 end_
    else Ret t
  end.

Definition balance (fuel : nat) (t : bst) : result bst :=
  it ← begin fuel t;
  nodes ← range_for fuel (mem t) it (λ acc i, acc ++ [i]) [];
  t1 ← clear fuel t;
  _balance fuel t1 nodes 0 (int_of_size_t (length nodes)).

(** *** Copy construction and copy assignment *)

(** [node(const std::unique_ptr<node>& x, node* p)], run by
    [new node{x, p}]: the storage of the new node is [this]. *)
Fixpoint copy_node (fuel : nat) (h : gmap loc node_t) (x : loc) (p : option loc)
  : result (loc * gmap loc node_t) :=
  match fuel with
  | O => Timeout
  | S fuel' =>
    xnd ← deref h x;
    let '(this, h0) := alloc h (mk_node None None p (value xnd)) in
    h1 ← match right xnd with
         | Some xr =>
           '(r, h') ← copy_node fuel' h0 xr (Some this);
           tnd ← deref h' this;
           Ret (<[this := set_right tnd (Some r)]> h')
         | None => Ret h0
         end;
    xnd1 ← deref h1 x;
    h2 ← match left xnd1 with
         | Some xl =>
           '(l, h') ← copy_node fuel' h1 xl (Some this);
           tnd ← deref h' this;
           Ret (<[this := set_left tnd (Some l)]> h')
         | None => Ret h1
         end;
    Ret (this, h2)
  end.

(** [bst(const bst& x)]: the root of the new object. *)
Definition copy_construct (fuel : nat) (h : gmap loc node_t) (xroot : option loc)
  : result (option loc * gmap loc node_t) :=
  match xroot with
  | Some a => '(c, h') ← copy_node fuel h a None; Ret (Some c, h')
  | None => Ret (None, h)
  end.

(** Several [bst] objects over one node store: an object is named by its
    address and holds its [root] member. *)
Record world : Type := mk_world {
  w_mem : gmap loc node_t;
  w_root : gmap positive (option loc)
}.

Definition root_of (w : world) (o : positive) : result (option loc) :=
  match w_root w !! o with
  | Some r => Ret r
  | None => Fault
  end.

(** [bst& operator=(const bst& x)] on the object [this]; [x] is a
    reference, so it may name the object [this] itself. *)
Definition operator_assign (fuel : nat) (w : world) (this x : positive) : result world :=
  (* root.reset(); *)
  r ← root_of w this;
  h1 ← destroy fuel (w_mem w) r;
  let w1 := mk_world h1 (<[this := None]> (w_root w)) in
  (* auto tmp = x; *)
  xr ← root_of w1 x;
  '(tmp, h2) ← copy_construct fuel (w_mem w1) xr;
  (* *this = std::move(tmp); the moved-from tmp then goes out of scope *)
  r1 ← root_of w1 this;
  h3 ← destroy fuel h2 r1;
  Ret (mk_world h3 (<[this := tmp]> (w_root w1))).

(** The object [o] of a world, as a tree over the world's store. *)
Definition object (w : world) (o : positive) : result bst :=
  r ← root_of w o; Ret (mk_bst (w_mem w) r).

(** *** [operator[]]

    Both overloads have the same body.  [value_type v{}] is [dflt]; the
    reference returned is to the [second] of the entry of the node at the
    address returned. *)
Definition operator_index (dflt : V) (fuel : nat) (t : bst) (x : K) : result (bst * loc) :=
  '(t', (i, _)) ← insert fuel t (x, dflt);
  '(a, _) ← deref_ptr (mem t') i;
  Ret (t', a).

End bst.

Arguments node_t : clear implicits.
Arguments bst : clear implicits.
Arguments world : clear implicits.
Arguments emplace_args : clear implicits.

(** * The ownership tree behind a store

    [std::unique_ptr] links form a tree.  [tree] is that tree, with the
    address and the entry of every node; [owns] reads it off a store,
    together with the [parent] back-references. *)

Section model.
Context {K V : Type}.
Variable op : K → K → bool.
Variable key_eq : K → K → bool.

Inductive tree : Type :=
  | Leaf
  | Node (l : tree) (a : loc) (e : K * V) (r : tree).

Definition root_loc (t : tree) : option loc :=
  match t with
  | Leaf => None
  | Node _ a _ _ => Some a
  end.

Fixpoint locs (t : tree) : list loc :=
  match t with
  | Leaf => []
  | Node l a _ r => locs l ++ a :: locs r
  end.

Fixpoint inorder (t : tree) : list (K * V) :=
  match t with
  | Leaf => []
  | Node l _ e r => inorder l ++ e :: inorder r
  end.

Definition keys (t : tree) : list K := (inorder t).*1.

Fixpoint height (t : tree) : nat :=
  match t with
  | Leaf => 0
  | Node l _ _ r => S (height l `max` height r)
  end.

(** The store [h] holds the tree [t], whose root has [par] as its parent
    member: every node is where the tree says, its [left] and [right] own
    the roots of its subtrees, and the [parent] of a child is the node
    that owns it (the parent-consistency invariant). *)
Fixpoint owns (h : gmap loc (node_t K V)) (par : option loc) (t : tree) : Prop :=
  match t with
  | Leaf => True
  | Node l a e r =>
    h !! a = Some (mk_node (root_loc r) (root_loc l) par e)
    ∧ owns h (Some a) l ∧ owns h (Some a) r
  end.

(** The BST-ordering invariant, node by node. *)
Fixpoint ordered (t : tree) : Prop :=
  match t with
  | Leaf => True
  | Node l _ e r =>
    Forall (λ k, op k e.1 = true) (keys l)
    ∧ Forall (λ k, op e.1 k = true) (keys r)
    ∧ ordered l ∧ ordered r
  end.

(** The object [s] is the tree [t]: [root] owns the root of [t], whose
    parent is absent, and no node is owned twice. *)
Definition bst_repr (s : bst K V) (t : tree) : Prop :=
  root s = root_loc t ∧ owns (mem s) None t ∧ NoDup (locs t).

(** ** Zippers: a subtree in its context *)

Inductive frame : Type :=
  | FL (a : loc) (e : K * V) (r : tree)   (* the hole is the left child of [a] *)
  | FR (l : tree) (a : loc) (e : K * V).  (* the hole is the right child of [a] *)

Definition fill (f : frame) (s : tree) : tree :=
  match f with
  | FL a e r => Node s a e r
  | FR l a e => Node l a e s
  end.

(** Frames are listed from the hole outwards. *)
Fixpoint plug (fs : list frame) (s : tree) : tree :=
  match fs with
  | [] => s
  | f :: fs => plug fs (fill f s)
  end.

Definition frame_loc (f : frame) : loc :=
  match f with
  | FL a _ _ | FR _ a _ => a
  end.

Definition hole_par (fs : list frame) (par : option loc) : option loc :=
  match fs with
  | [] => par
  | f :: _ => Some (frame_loc f)
  end.

Definition frame_locs (f : frame) : list loc :=
  match f with
  | FL a _ r => a :: locs r
  | FR l a _ => a :: locs l
  end.

Definition ctx_locs (fs : list frame) : list loc := fs ≫= frame_locs.

(** Entries before and after the hole, in order. *)
Fixpoint before (fs : list frame) : list (K * V) :=
  match fs with
  | [] => []
  | FL _ _ _ :: fs => before fs
  | FR l _ e :: fs => before fs ++ inorder l ++ [e]
  end.

Fixpoint after (fs : list frame) : list (K * V) :=
  match fs with
  | [] => []
  | FL _ e r :: fs => e :: inorder r ++ after fs
  | FR _ _ _ :: fs => after fs
  end.

(** The store holds the context [fs] around a hole whose root pointer is
    [q]. *)
Fixpoint owns_ctx (h : gmap loc (node_t K V)) (par : option loc)
    (fs : list frame) (q : option loc) : Prop :=
  match fs with
  | [] => True
  | FL a e r :: fs =>
    h !! a = Some (mk_node (root_loc r) q (hole_par fs par) e)
    ∧ owns h (Some a) r ∧ owns_ctx h par fs (Some a)
  | FR l a e :: fs =>
    h !! a = Some (mk_node q (root_loc l) (hole_par fs par) e)
    ∧ owns h (Some a) l ∧ owns_ctx h par fs (Some a)
  end.

(** ** Functional counterparts of the descents *)

Fixpoint tfind (t : tree) (x : K) : option loc :=
  match t with
  | Leaf => None
  | Node l a e r =>
    if key_eq e.1 x then Some a
    else if op x e.1 then tfind l x
    else if op e.1 x then tfind r x
    else None
  end.

(** Where the loop of [_insert] puts the new node [b]; [None] when the
    loop reaches a node that neither conditional moves away from. *)
Fixpoint tinsert (t : tree) (b : loc) (x : K * V) : option tree :=
  match t with
  | Leaf => Some (Node Leaf b x Leaf)
  | Node l a e r =>
    if op e.1 x.1 then r' ← tinsert r b x; Some (Node l a e r')
    else if op x.1 e.1 then l' ← tinsert l b x; Some (Node l' a e r)
    else None
  end.

(** The leftmost node of [Node l a e r] and the frames above it. *)
Fixpoint leftmost (l : tree) (a : loc) (e : K * V) (r : tree)
  : list (frame) * (loc * (K * V) * tree) :=
  match l with
  | Leaf => ([], (a, e, r))
  | Node ll la le lr =>
    let '(fs, m) := leftmost ll la le lr in (fs ++ [FL a e r], m)
  end.

(** Leaving the subtree [s] upwards: the first frame entered from the
    left, with the tree it roots. *)
Fixpoint climb (fs : list (frame)) (s : tree) : option (list (frame) * tree) :=
  match fs with
  | [] => None
  | FL a e r :: fs' => Some (fs', Node s a e r)
  | FR l a e :: fs' => climb fs' (Node l a e s)
  end.

(** Redirecting the link that owns the hole. *)
Definition hole_link (h' : gmap loc (node_t K V)) (fs : list (frame)) (q' : option loc) : Prop :=
  match fs with
  | [] => True
  | FL pa pe pr :: fs' => h' !! pa = Some (mk_node (root_loc pr) q' (hole_par fs' None) pe)
  | FR pl pa pe :: fs' => h' !! pa = Some (mk_node q' (root_loc pl) (hole_par fs' None) pe)
  end.

(** What [erase] leaves of a node with at most one child. *)
Definition splice (l r : tree) : tree :=
  match l with
  | Leaf => r
  | Node _ _ _ _ => l
  end.

(** ** Shapes: a tree without its addresses *)

Inductive shape : Type :=
  | SLeaf
  | SNode (l : shape) (e : K * V) (r : shape).

Fixpoint shape_of (t : tree) : shape :=
  match t with
  | Leaf => SLeaf
  | Node l _ e r => SNode (shape_of l) e (shape_of r)
  end.

Fixpoint sheight (sh : shape) : nat :=
  match sh with
  | SLeaf => 0
  | SNode l _ r => S (sheight l `max` sheight r)
  end.

(** The shape [_balance] builds from [nodes[start .. end)]: the recursion
    of [_balance], with [n] bounding the length of the range. *)
Fixpoint median_first (n : nat) (nodes : list (K * V)) (start end_ : nat) : shape :=
  match n with
  | O => SLeaf
  | S n' =>
    if decide (start < end_) then
      let mid := (start + end_) `div` 2 in
      match nodes !! mid with
      | Some x => SNode (median_first n' nodes start mid) x (median_first n' nodes (S mid) end_)
      | None => SLeaf
      end
    else SLeaf
  end.

(** ** What is assumed of the comparator and of [operator==] *)

Definition lt (a b : K) : Prop := op a b = true.

(** [cmp_op] is a strict weak ordering: irreflexive, transitive, and with
    a transitive incomparability. *)
Record strict_weak_order : Prop := {
  swo_irrefl : ∀ a, op a a = false;
  swo_trans : ∀ a b c, op a b = true → op b c = true → op a c = true;
  swo_incomp : ∀ a b c,
    op a b = false → op b a = false → op b c = false → op c b = false →
    op a c = false ∧ op c a = false
}.

(** [operator==] of the keys is equality of keys. *)
Definition eq_operator : Prop := ∀ a b, key_eq a b = true ↔ a = b.

(** Distinct keys are ordered one way or the other: the equivalence the
    comparator induces is the equality of keys. *)
Definition total_order : Prop := ∀ a b, a ≠ b → op a b = true ∨ op b a = true.

(** The side of a frame a key belongs to. *)
Definition frame_side (x : K) (f : frame) : Prop :=
  match f with
  | FL _ e _ => op x e.1 = true
  | FR _ _ e => op e.1 x = true
  end.

(** The store after a step that changed it only below [t] and at [b]. *)
Definition same_outside (h h' : gmap loc (node_t K V)) (t : tree) (b : loc) : Prop :=
  ∀ c, c ∉ locs t → c ≠ b → h' !! c = h !! c.

(** What the loop of [_insert], started at the root of [t] in the store
    [h], does: it puts the new node where [tinsert] says, changing nothing
    outside [t], or never returns. *)
Definition ins_post (x : K * V) (h : gmap loc (node_t K V)) (par : option loc) (t : tree)
    (fuel_ok : Prop) (res : result (option (gmap loc (node_t K V) * loc))) : Prop :=
  let b := fresh (dom h) in
  match tinsert t b x with
  | Some t' =>
    fuel_ok → ∃ h', res = Ret (Some (h', b)) ∧ owns h' par t' ∧ same_outside h h' t b
  | None => res = Timeout
  end.

(** The parent-consistency invariant over the nodes of [t]: the root has
    no parent, and the [parent] of a node that the [left] or the [right]
    of a node [a] owns is [a]. *)
Definition parent_consistent (s : bst K V) (t : tree) : Prop :=
  (∀ a nd, root s = Some a → mem s !! a = Some nd → parent nd = None)
  ∧ ∀ a nd c, a ∈ locs t → mem s !! a = Some nd →
      left nd = Some c ∨ right nd = Some c →
      ∃ ndc, mem s !! c = Some ndc ∧ parent ndc = Some a.

End model.

(** * Documented behaviour, and trees to run the code on *)

(** [find], as its documentation reads: a visited node whose key is
    neither less nor greater than the searched key is returned. *)
Definition comparator_only_find {K V} (op key_eq : K → K → bool) : Prop :=
  ∀ fuel (h : gmap loc (node_t K V)) a nd k,
    h !! a = Some nd →
    op k (value nd).1 = false → op (value nd).1 k = false →
    _find_loop op key_eq (S fuel) h (Some a) k = Ret (Some a).

(** The subtrees the descent of [find] for the key [k] visits, as the
    amended description of [find] reads: the descent starts at the root;
    from a node whose key is not [==] to [k] it goes on in the left
    subtree when the comparator puts [k] before the key of the node, and
    otherwise in the right subtree when the comparator puts the key of
    the node before [k]. *)
Inductive visits {K V} (op key_eq : K → K → bool) (k : K) : @tree K V → @tree K V → Prop :=
  | visits_root t : visits op key_eq k t t
  | visits_left l a e r u :
      key_eq e.1 k = false → op k e.1 = true →
      visits op key_eq k l u → visits op key_eq k (Node l a e r) u
  | visits_right l a e r u :
      key_eq e.1 k = false → op k e.1 = false → op e.1 k = true →
      visits op key_eq k r u → visits op key_eq k (Node l a e r) u.

(** The keys, each followed by a single space. *)
Definition keys_spaced {K} (show : K → string) (ks : list K) : string :=
  foldr (λ k out, show k +:+ " " +:+ out) EmptyString ks.

(** The keys with a single space between consecutive ones. *)
Definition keys_separated {K} (show : K → string) (ks : list K) : string :=
  String.concat " " (show <$> ks).

(** [emplace], as it is documented: build the entry from the arguments,
    then [insert] it. *)
Definition construct_then_insert {K V} (op key_eq : K → K → bool)
    (fuel : nat) (t : bst K V) (args : emplace_args K V) :=
  let entry := match args with
               | args_pair p => p
               | args_key_value k v => (k, v)
               end in
  insert op key_eq fuel t entry.

(** Keys of type [int] under [std::less<int>] and [==]. *)
Definition int_less : Z → Z → bool := Z.ltb.
Definition int_eq : Z → Z → bool := Z.eqb.

(** A comparator on [int] keys that orders them by their halves,
    [a / 2 < b / 2]: a strict weak ordering under which 2 and 3 are
    equivalent. *)
Definition half_less (a b : Z) : bool := (a `quot` 2 <? b `quot` 2)%Z.

(** The tree that holds the one entry [(2, 0)]. *)
Definition one_entry : bst Z Z :=
  mk_bst {[ 1%positive := mk_node None None None (2, 0)%Z ]} (Some 1%positive).
Definition one_entry_tree : @tree Z Z := Node Leaf 1%positive (2, 0)%Z Leaf.

(** The tree with [(5, 50)] at the root, [(3, 30)] to its left and
    [(8, 80)] to its right. *)
Definition three_entries : bst Z Z :=
  mk_bst {[ 1%positive := mk_node (Some 3%positive) (Some 2%positive) None (5, 50)%Z;
            2%positive := mk_node None None (Some 1%positive) (3, 30)%Z;
            3%positive := mk_node None None (Some 1%positive) (8, 80)%Z ]}
         (Some 1%positive).
Definition three_entries_tree : @tree Z Z :=
  Node (Node Leaf 2%positive (3, 30)%Z Leaf) 1%positive (5, 50)%Z
       (Node Leaf 3%positive (8, 80)%Z Leaf).

(** One object of class [bst], at address 1, holding [one_entry]. *)
Definition one_object : world Z Z :=
  mk_world (mem one_entry) {[ 1%positive := root one_entry ]}.

(** The value of the first entry of [xs] whose key is [==] to [k]. *)
Fixpoint first_value {K V} (key_eq : K → K → bool) (xs : list (K * V)) (k : K) : option V :=
  match xs with
  | [] => None
  | x :: xs => if key_eq x.1 k then Some x.2 else first_value key_eq xs k
  end.

(** What the copy of the child [c] of a node leaves: the store [h1] holds
    the copy [c'] under the new node [this], at addresses the store [h0]
    did not hold, and is [h0] elsewhere but at [this]. *)
Definition child_copied {K V} (h0 : gmap loc (node_t K V)) (this : loc)
    (c : @tree K V) (h1 : gmap loc (node_t K V)) (c' : @tree K V) : Prop :=
  owns h1 (Some this) c' ∧ shape_of c' = shape_of c ∧ NoDup (locs c')
  ∧ (∀ b, b ∈ locs c' → h0 !! b = None)
  ∧ (∀ b, b ∉ locs c' → b ≠ this → h1 !! b = h0 !! b).

(** Two objects of class [bst] over one store: the object at address 1
    holds the entry [(2, 0)], the object at address 2 the entry
    [(7, 70)]. *)
Definition other_entry_tree : @tree Z Z := Node Leaf 2%positive (7, 70)%Z Leaf.
Definition two_objects : world Z Z :=
  mk_world {[ 1%positive := mk_node None None None (2, 0)%Z;
              2%positive := mk_node None None None (7, 70)%Z ]}
           {[ 1%positive := Some 1%positive; 2%positive := Some 2%positive ]}.

(** * Facts *)

Ltac split_locs :=
  repeat match goal with
  | H : context [locs (Node _ _ _ _)] |- _ => progress simpl in H
  | H : NoDup (_ ++ _) |- _ => apply NoDup_app in H as (? & ? & ?)
  | H : NoDup (_ :: _) |- _ => apply NoDup_cons in H as [? ?]
  | H : _ ∉ _ ++ _ |- _ => apply not_elem_of_app in H as [? ?]
  | H : _ ∉ _ :: _ |- _ => apply not_elem_of_cons in H as [? ?]
  end.

Section facts.
Context {K V : Type}.
Implicit Types (op key_eq : K → K → bool).
Implicit Types (t s l r : @tree K V) (fs : list (@frame K V)).
Implicit Types (h : gmap loc (node_t K V)).

Lemma root_loc_plug_cons f fs s s' : root_loc (plug (f :: fs) s) = root_loc (plug (f :: fs) s').
Proof.
  revert f s s'. induction fs as [|g fs IH]; intros f s s'.
  - by destruct f.
  - apply (IH g).
Qed.

Lemma inorder_plug fs s : inorder (plug fs s) = before fs ++ inorder s ++ after fs.
Proof.
  revert s. induction fs as [|f fs IH]; intros s; simpl.
  - by rewrite app_nil_r.
  - rewrite IH. destruct f; simpl; by rewrite <- ?app_assoc.
Qed.

Lemma locs_plug_perm fs s : locs (plug fs s) ≡ₚ locs s ++ ctx_locs fs.
Proof.
  revert s. induction fs as [|f fs IH]; intros s; simpl.
  - by rewrite app_nil_r.
  - rewrite IH. unfold ctx_locs. simpl. destruct f; simpl.
    + rewrite <- app_assoc. done.
    + rewrite <- app_assoc. simpl.
      rewrite (Permutation_app_comm (locs l)). simpl.
      rewrite <- Permutation_middle. f_equiv.
      rewrite <- app_assoc. f_equiv. apply Permutation_app_comm.
Qed.

Lemma length_inorder t : length (inorder t) = length (locs t).
Proof. induction t; simpl; [done|]. rewrite !length_app. simpl. lia. Qed.

Lemma height_plug fs s : length fs + height s ≤ height (plug fs s).
Proof.
  revert s. induction fs as [|f fs IH]; intros s; simpl; [lia|].
  specialize (IH (fill f s)). destruct f; simpl in *; lia.
Qed.

Lemma height_le_size t : height t ≤ length (locs t).
Proof. induction t; simpl; [done|]. rewrite length_app. simpl. lia. Qed.

Lemma owns_frame h h' par t :
  owns h par t → (∀ a, a ∈ locs t → h' !! a = h !! a) → owns h' par t.
Proof.
  revert par. induction t as [|l IHl a e r IHr]; intros par; simpl; [done|].
  intros (Ha & Hl & Hr) Hag. split_and!.
  - rewrite Hag; [done|]. set_solver.
  - apply IHl; [done|]. intros; apply Hag; set_solver.
  - apply IHr; [done|]. intros; apply Hag; set_solver.
Qed.

Lemma owns_lookup h par t a : owns h par t → a ∈ locs t → is_Some (h !! a).
Proof.
  revert par. induction t as [|l IHl b e r IHr]; intros par; simpl.
  - set_solver.
  - intros (Hb & Hl & Hr). rewrite elem_of_app, elem_of_cons.
    intros [?|[->|?]]; eauto.
Qed.

Lemma owns_ctx_frame h h' par fs q :
  owns_ctx h par fs q → (∀ a, a ∈ ctx_locs fs → h' !! a = h !! a) → owns_ctx h' par fs q.
Proof.
  revert q. induction fs as [|f fs IH]; intros q; simpl; [done|].
  unfold ctx_locs. simpl. fold (ctx_locs fs).
  destruct f as [a e r|l a e]; simpl; intros (Ha & Hs & Hc) Hag; split_and!.
  - rewrite Hag; [done|]. set_solver.
  - eapply owns_frame; [done|]. intros b Hb; apply Hag.
    rewrite elem_of_cons, elem_of_app; auto.
  - apply IH; [done|]. intros; apply Hag; set_solver.
  - rewrite Hag; [done|]. set_solver.
  - eapply owns_frame; [done|]. intros b Hb; apply Hag.
    rewrite elem_of_cons, elem_of_app; auto.
  - apply IH; [done|]. intros; apply Hag; set_solver.
Qed.

Lemma owns_plug h par fs s :
  owns h par (plug fs s) ↔ owns h (hole_par fs par) s ∧ owns_ctx h par fs (root_loc s).
Proof.
  revert s. induction fs as [|f fs IH]; intros s; simpl; [naive_solver|].
  rewrite IH. destruct f as [a e r|l a e]; simpl; naive_solver.
Qed.

Lemma find_loop_owns op key_eq h par t x fuel :
  owns h par t → height t ≤ fuel →
  _find_loop op key_eq fuel h (root_loc t) x = Ret (tfind op key_eq t x).
Proof.
  revert par t. induction fuel as [|fuel IH]; intros par [|l a e r]; simpl; try done; try lia.
  intros (Ha & Hl & Hr) Hf. unfold deref. rewrite Ha. simpl.
  destruct (key_eq e.1 x); [done|].
  destruct (op x e.1); [apply (IH (Some a)); [done|lia]|].
  destruct (op e.1 x); [apply (IH (Some a)); [done|lia]|done].
Qed.

Lemma plug_app fs1 fs2 s : plug (fs1 ++ fs2) s = plug fs2 (plug fs1 s).
Proof. revert s. induction fs1 as [|f fs1 IH]; intros s; simpl; [done|]. apply IH. Qed.

Lemma elem_of_inorder_plug t e :
  e ∈ inorder t → ∃ fs l n r, t = plug fs (Node l n e r).
Proof.
  induction t as [|l IHl a ea r IHr]; simpl; [set_solver|].
  rewrite elem_of_app, elem_of_cons. intros [Hin|[->|Hin]].
  - destruct (IHl Hin) as (fs & l' & n & r' & ->).
    exists (fs ++ [FL a ea r]), l', n, r'. by rewrite plug_app.
  - by exists [], l, a, r.
  - destruct (IHr Hin) as (fs & l' & n & r' & ->).
    exists (fs ++ [FR l a ea]), l', n, r'. by rewrite plug_app.
Qed.

Lemma ordered_plug_inv op fs s : ordered op (plug fs s) → ordered op s.
Proof.
  revert s. induction fs as [|f fs IH]; intros s; simpl; [done|].
  intros H. apply IH in H. destruct f; simpl in H; tauto.
Qed.

Lemma keys_fill f s : ∀ k, k ∈ keys s → k ∈ keys (fill f s).
Proof.
  intros k. unfold keys. destruct f; simpl; rewrite fmap_app; simpl; set_solver.
Qed.

Lemma ordered_plug_side op fs s k :
  ordered op (plug fs s) → k ∈ keys s → Forall (frame_side op k) fs.
Proof.
  revert s. induction fs as [|f fs IH]; intros s; simpl; [constructor|].
  intros Hord Hk. constructor.
  - apply ordered_plug_inv in Hord. destruct f; simpl in *.
    + destruct Hord as (Hl & _). rewrite Forall_forall in Hl. auto.
    + destruct Hord as (_ & Hr & _). rewrite Forall_forall in Hr. auto.
  - eapply IH; [done|]. by apply keys_fill.
Qed.

Lemma tfind_Some_plug op key_eq t x n :
  tfind op key_eq t x = Some n →
  ∃ fs l e r, t = plug fs (Node l n e r) ∧ key_eq e.1 x = true.
Proof.
  induction t as [|l IHl a ea r IHr]; simpl; [done|].
  destruct (key_eq ea.1 x) eqn:Heq.
  { intros [= ->]. by exists [], l, ea, r. }
  destruct (op x ea.1).
  { intros H. destruct (IHl H) as (fs & l' & e & r' & -> & ?).
    exists (fs ++ [FL a ea r]), l', e, r'. by rewrite plug_app. }
  destruct (op ea.1 x); [|done].
  intros H. destruct (IHr H) as (fs & l' & e & r' & -> & ?).
  exists (fs ++ [FR l a ea]), l', e, r'. by rewrite plug_app.
Qed.

Lemma tinsert_inv op t b x t' :
  tinsert op t b x = Some t' →
  ∃ fs, t = plug fs Leaf ∧ t' = plug fs (Node Leaf b x Leaf) ∧ Forall (frame_side op x.1) fs.
Proof.
  revert t'. induction t as [|l IHl a ea r IHr]; intros t'; simpl.
  { intros [= <-]. by exists []. }
  destruct (op ea.1 x.1) eqn:H1.
  { destruct (tinsert op r b x) as [r'|]; [|done]. simpl. intros [= <-].
    destruct (IHr _ eq_refl) as (fs & -> & -> & Hfs).
    exists (fs ++ [FR l a ea]). rewrite !plug_app. split_and!; [done..|].
    apply Forall_app; split; [done|]. by repeat constructor. }
  destruct (op x.1 ea.1) eqn:H2; [|done].
  destruct (tinsert op l b x) as [l'|]; [|done]. simpl. intros [= <-].
  destruct (IHl _ eq_refl) as (fs & -> & -> & Hfs).
  exists (fs ++ [FL a ea r]). rewrite !plug_app. split_and!; [done..|].
  apply Forall_app; split; [done|]. by repeat constructor.
Qed.

Lemma ordered_plug_grow op fs s s' x :
  ordered op (plug fs s) → ordered op s' →
  (∀ k, k ∈ keys s' → k ∈ keys s ∨ k = x) →
  Forall (frame_side op x) fs →
  ordered op (plug fs s').
Proof.
  revert s s'. induction fs as [|f fs IH]; intros s s'; simpl; [done|].
  intros Hord Hs' Hk Hside. apply Forall_cons in Hside as [Hf Hside].
  eapply IH; [exact Hord| | |done].
  - pose proof (ordered_plug_inv _ _ _ Hord) as Ho.
    destruct f as [a e r|l a e]; simpl in *.
    + destruct Ho as (Hl & Hr & _ & Hor). split_and!; [|done..].
      rewrite Forall_forall in *. intros k Hin. destruct (Hk _ Hin) as [?| ->]; auto.
    + destruct Ho as (Hl & Hr & Hol & _). split_and!; [done| |done..].
      rewrite Forall_forall in *. intros k Hin. destruct (Hk _ Hin) as [?| ->]; auto.
  - intros k. unfold keys in *. destruct f as [a e r|l a e]; simpl;
      rewrite !fmap_app, !elem_of_app; simpl; rewrite !elem_of_cons.
    + intros [H|H]; [|by auto]. destruct (Hk _ H); auto.
    + intros [H|[H|H]]; auto. destruct (Hk _ H); auto.
Qed.

Lemma op_asym op a b :
  strict_weak_order op → op a b = true → op b a = false.
Proof.
  intros Hswo.
  intros Hab. destruct (op b a) eqn:Hba; [|done].
  pose proof (swo_trans _ Hswo _ _ _ Hab Hba) as H.
  by rewrite (swo_irrefl _ Hswo) in H.
Qed.

Lemma op_ne op a b :
  strict_weak_order op → op a b = true → a ≠ b.
Proof. intros Hswo. intros H ->. by rewrite (swo_irrefl _ Hswo) in H. Qed.

Lemma key_eq_refl key_eq a :
  eq_operator key_eq → key_eq a a = true.
Proof.
  intros Heq. by apply Heq. Qed.

Lemma key_eq_ne key_eq a b :
  eq_operator key_eq → a ≠ b → key_eq a b = false.
Proof.
  intros Heq. intros H. destruct (key_eq a b) eqn:E; [|done]. by apply Heq in E. Qed.

Lemma tfind_plug op key_eq fs s x :
  strict_weak_order op →
  eq_operator key_eq →
  Forall (frame_side op x) fs → tfind op key_eq (plug fs s) x = tfind op key_eq s x.
Proof.
  intros Hswo Heq.
  revert s. induction fs as [|f fs IH]; intros s; simpl; [done|].
  intros [Hf Hfs]%Forall_cons. rewrite IH by done.
  destruct f as [a e r|l a e]; simpl in *.
  - rewrite (key_eq_ne _ _ _ Heq) by (apply not_eq_sym; by eapply op_ne). by rewrite Hf.
  - rewrite (key_eq_ne _ _ _ Heq) by (by eapply op_ne). by rewrite (op_asym _ _ _ Hswo Hf), Hf.
Qed.

Lemma tfind_node op key_eq fs l n e r :
  strict_weak_order op →
  eq_operator key_eq →
  ordered op (plug fs (Node l n e r)) →
  tfind op key_eq (plug fs (Node l n e r)) e.1 = Some n.
Proof.
  intros Hswo Heq.
  intros Hord. rewrite tfind_plug; [|done|done|].
  - simpl. by rewrite (key_eq_refl _ _ Heq).
  - eapply ordered_plug_side; [done|]. unfold keys. simpl. rewrite fmap_app. set_solver.
Qed.

Lemma tinsert_plug op fs s b x :
  strict_weak_order op →
  Forall (frame_side op x.1) fs → tinsert op (plug fs s) b x = plug fs <$> tinsert op s b x.
Proof.
  intros Hswo.
  revert s. induction fs as [|f fs IH]; intros s; simpl.
  { intros _. by destruct (tinsert op s b x). }
  intros [Hf Hfs]%Forall_cons. rewrite IH by done.
  destruct f as [a e r|l a e]; simpl in *.
  - rewrite (op_asym _ _ _ Hswo Hf), Hf. by destruct (tinsert op s b x).
  - rewrite Hf. by destruct (tinsert op s b x).
Qed.

Lemma ordered_sorted op t :
  strict_weak_order op → ordered op t → StronglySorted (lt op) (keys t).
Proof.
  intros Hswo.
  induction t as [|l IHl a e r IHr]; simpl; [constructor|].
  intros (Hl & Hr & Hol & Hor). unfold keys in *. simpl. rewrite fmap_app. simpl.
  apply StronglySorted_app. split_and!; [|by auto|].
  - rewrite Forall_forall in *. intros k1 H1 k2 [->|H2]%elem_of_cons; [by apply Hl|].
    eapply (swo_trans _ Hswo); [by apply Hl|by apply Hr].
  - apply StronglySorted_cons. auto.
Qed.

Lemma sorted_ordered op t : StronglySorted (lt op) (keys t) → ordered op t.
Proof.
  induction t as [|l IHl a e r IHr]; simpl; [done|].
  unfold keys in *. simpl. rewrite fmap_app. simpl.
  rewrite StronglySorted_app, StronglySorted_cons. intros (H1 & H2 & H3 & H4).
  rewrite Forall_forall in H3. split_and!; auto.
  - rewrite Forall_forall. intros k Hk. apply H1; [done|]. apply elem_of_cons; auto.
  - by rewrite Forall_forall.
Qed.

Lemma owns_fresh h par t : owns h par t → fresh (dom h) ∉ locs t.
Proof.
  intros Ho Hin. apply (owns_lookup _ _ _ _ Ho) in Hin.
  apply elem_of_dom in Hin. by apply is_fresh in Hin.
Qed.

Lemma tinsert_root op t b x t' :
  t ≠ Leaf → tinsert op t b x = Some t' → root_loc t' = root_loc t.
Proof.
  destruct t as [|l a e r]; [done|]. intros _. simpl.
  destruct (op e.1 x.1).
  { destruct (tinsert op r b x); [|done]. by intros [= <-]. }
  destruct (op x.1 e.1); [|done].
  destruct (tinsert op l b x); [|done]. by intros [= <-].
Qed.

Lemma NoDup_node l a e r :
  NoDup (locs (Node l a e r)) →
  NoDup (locs l) ∧ NoDup (locs r) ∧ (a ∉ locs l) ∧ (a ∉ locs r)
  ∧ ∀ c, c ∈ locs l → c ∉ locs r.
Proof. intros H. split_locs. set_solver. Qed.

Lemma owns_update_right h h' par l a e r r' b :
  owns h par (Node l a e r) → NoDup (locs (Node l a e r)) → b ∉ locs (Node l a e r) →
  owns h' (Some a) r' → root_loc r' = root_loc r → same_outside h h' r b →
  owns h' par (Node l a e r') ∧ same_outside h h' (Node l a e r) b.
Proof.
  intros (Ha & Hl & Hr) Hnd Hb Hr' Hroot Hsame. unfold same_outside in *. split_locs.
  split; [simpl; split_and!|].
  - rewrite Hsame, Hroot; auto.
  - eapply owns_frame; [exact Hl|]. intros c Hc. apply Hsame; set_solver.
  - done.
  - intros c Hc Hcb. split_locs. by apply Hsame.
Qed.

Lemma owns_update_left h h' par l l' a e r b :
  owns h par (Node l a e r) → NoDup (locs (Node l a e r)) → b ∉ locs (Node l a e r) →
  owns h' (Some a) l' → root_loc l' = root_loc l → same_outside h h' l b →
  owns h' par (Node l' a e r) ∧ same_outside h h' (Node l a e r) b.
Proof.
  intros (Ha & Hl & Hr) Hnd Hb Hl' Hroot Hsame. unfold same_outside in *. split_locs.
  split; [simpl; split_and!|].
  - rewrite Hsame, Hroot; auto. set_solver.
  - done.
  - eapply owns_frame; [exact Hr|]. intros c Hc. apply Hsame; set_solver.
  - intros c Hc Hcb. split_locs. by apply Hsame.
Qed.

Lemma attach_right h par l a e b x :
  owns h par (Node l a e Leaf) → NoDup (locs (Node l a e Leaf)) → b ∉ locs (Node l a e Leaf) →
  let h' := <[a := mk_node (Some b) (root_loc l) par e]> (<[b := mk_node None None (Some a) x]> h) in
  owns h' par (Node l a e (Node Leaf b x Leaf)) ∧ same_outside h h' (Node l a e Leaf) b.
Proof.
  intros (Ha & Hl & _) Hnd Hb h'. unfold same_outside, h'. split_locs.
  split; [simpl; split_and!; try done|].
  - by rewrite lookup_insert_eq.
  - eapply owns_frame; [exact Hl|]. intros c Hc. rewrite !lookup_insert_ne; set_solver.
  - rewrite lookup_insert_ne, lookup_insert_eq; done.
  - intros c Hc Hcb. split_locs. rewrite !lookup_insert_ne; done.
Qed.

Lemma attach_left h par a e r b x :
  owns h par (Node Leaf a e r) → NoDup (locs (Node Leaf a e r)) → b ∉ locs (Node Leaf a e r) →
  let h' := <[a := mk_node (root_loc r) (Some b) par e]> (<[b := mk_node None None (Some a) x]> h) in
  owns h' par (Node (Node Leaf b x Leaf) a e r) ∧ same_outside h h' (Node Leaf a e r) b.
Proof.
  intros (Ha & _ & Hr) Hnd Hb h'. unfold same_outside, h'. split_locs.
  split; [simpl; split_and!; try done|].
  - by rewrite lookup_insert_eq.
  - rewrite lookup_insert_ne, lookup_insert_eq; done.
  - eapply owns_frame; [exact Hr|]. intros c Hc. rewrite !lookup_insert_ne; set_solver.
  - intros c Hc Hcb. split_locs. rewrite !lookup_insert_ne; done.
Qed.


Lemma insert_left_spec op fuel x h par sl sa se sr :
  (∀ h par t, owns h par t → NoDup (locs t) → t ≠ Leaf →
     ins_post op x h par t (height t ≤ fuel) (_insert_loop op fuel x h (root_loc t))) →
  owns h par (Node sl sa se sr) → NoDup (locs (Node sl sa se sr)) →
  let b := fresh (dom h) in
  let res := _insert_left op (_insert_loop op fuel x) h sa x in
  if op x.1 se.1 then
    match tinsert op sl b x with
    | Some l' =>
      height sl ≤ fuel →
      ∃ h', res = Ret (Some (h', b)) ∧ owns h' par (Node l' sa se sr)
            ∧ same_outside h h' (Node sl sa se sr) b
    | None => res = Timeout
    end
  else ins_post op x h par (Node sl sa se sr) (height (Node sl sa se sr) ≤ fuel) res.
Proof.
  intros IH Ho Hnd b res. subst res. unfold _insert_left.
  pose proof (owns_fresh _ _ _ Ho) as Hb. fold b in Hb.
  pose proof Ho as (Ha & Hl & Hr). unfold deref. rewrite Ha. simpl.
  destruct (op x.1 se.1) eqn:Hx.
  - destruct sl as [|ll la le lr].
    + simpl. intros _. eexists. split; [done|].
      by apply (attach_left h par sa se sr b x).
    + assert (Hndl : NoDup (locs (Node ll la le lr))) by (by apply NoDup_node in Hnd as (? & _)).
      specialize (IH h (Some sa) (Node ll la le lr) Hl Hndl ltac:(discriminate)).
      unfold ins_post in IH. fold b in IH.
      destruct (tinsert op (Node ll la le lr) b x) as [l'|] eqn:Hins; [|done].
      intros Hf. destruct (IH Hf) as (h' & Hres & Ho' & Hsame).
      exists h'. split; [done|].
      eapply owns_update_left; eauto.
      eapply tinsert_root; [|done]. done.
  - by apply IH.
Qed.

Lemma insert_loop_spec op fuel x h par t :
  (∀ a b, op a b = true → op b a = false) →
  owns h par t → NoDup (locs t) → t ≠ Leaf →
  ins_post op x h par t (height t ≤ fuel) (_insert_loop op fuel x h (root_loc t)).
Proof.
  intros Hasym.
  revert h par t. induction fuel as [|fuel IH]; intros h par [|l a e r] Ho Hnd Hne; try done.
  { unfold ins_post. destruct (tinsert _ _ _ _); [simpl; lia|done]. }
  pose proof (owns_fresh _ _ _ Ho) as Hb.
  pose proof Ho as (Ha & Hl & Hr).
  unfold ins_post. cbn [tinsert _insert_loop root_loc]. unfold deref. rewrite Ha.
  cbn [mbind result_bind value right left].
  destruct (op e.1 x.1) eqn:He.
  - destruct r as [|rl ra re rr].
    + simpl. intros _. eexists. split; [done|].
      by apply (attach_right h par l a e _ x).
    + assert (Hndr : NoDup (locs (Node rl ra re rr))) by (by apply NoDup_node in Hnd as (_ & ? & _)).
      pose proof (insert_left_spec op fuel x h (Some a) rl ra re rr IH Hr Hndr) as Hs.
      simpl in Hs.
      assert (Hpost : ins_post op x h (Some a) (Node rl ra re rr) (height (Node rl ra re rr) ≤ fuel)
                (_insert_left op (_insert_loop op fuel x) h ra x)).
      { destruct (op x.1 re.1) eqn:Hx; [|done].
        unfold ins_post. simpl. rewrite (Hasym _ _ Hx), Hx.
        destruct (tinsert op rl _ x) as [l'|]; [|done]. simpl.
        intros Hf. apply Hs. lia. }
      clear Hs. unfold ins_post in Hpost.
      destruct (tinsert op (Node rl ra re rr) _ x) as [r'|] eqn:Hins; [|done].
      intros Hf. destruct Hpost as (h' & Hres & Ho' & Hsame); [simpl in *; lia|].
      exists h'. split; [done|].
      eapply owns_update_right; eauto.
      eapply tinsert_root; [|done]. done.
  - pose proof (insert_left_spec op fuel x h par l a e r IH Ho Hnd) as Hs. simpl in Hs.
    destruct (op x.1 e.1) eqn:Hx.
    + destruct (tinsert op l _ x) as [l'|]; simpl; [|done].
      intros Hf. apply Hs. lia.
    + unfold ins_post in Hs. simpl in Hs. by rewrite He, Hx in Hs.
Qed.

End facts.

(** * The member functions on owned trees *)

Section operations.
Context {K V : Type}.
Implicit Types (op key_eq : K → K → bool).
Implicit Types (t l r : @tree K V) (fs : list (@frame K V)).
Implicit Types (h : gmap loc (node_t K V)) (s : bst K V).

Lemma mono_bind {A B} (c : nat → result A) (k : A → nat → result B):
  mono c → (∀ a, mono (k a)) → mono (λ n, a ← c n; k a n).
Proof.
  intros Hc Hk n m v. simpl. destruct (c n) as [a| |] eqn:Hcn; simpl; try done.
  intros Hr Hnm. rewrite (Hc _ _ _ Hcn Hnm). simpl. eapply Hk; eauto.
Qed.

Lemma mono_const {A} (r : result A): mono (λ _, r).
Proof. by intros n m v. Qed.

Lemma find_loop_mono op key_eq h tmp x : mono (λ fuel, _find_loop op key_eq fuel h tmp x).
Proof.
  intros n. revert tmp. induction n as [|n IH]; intros [a|] m v; simpl; try done.
  - by destruct m.
  - destruct m as [|m]; [lia|]. simpl. destruct (deref h a) as [nd| |]; simpl; try done.
    destruct (key_eq _ _); [done|].
    destruct (op x _); [intros; apply IH; [done|lia]|].
    destruct (op _ x); [intros; apply IH; [done|lia]|done].
  - by destruct m.
Qed.

Lemma find_mono op key_eq s x : mono (λ fuel, _find op key_eq fuel s x).
Proof. unfold _find. destruct (root s); [apply find_loop_mono|apply mono_const]. Qed.

Lemma insert_left_mono op (loop1 loop2 : gmap loc (node_t K V) → option loc → _) h a x v:
  (∀ h tmp v, loop1 h tmp = Ret v → loop2 h tmp = Ret v) →
  _insert_left op loop1 h a x = Ret v → _insert_left op loop2 h a x = Ret v.
Proof.
  intros Hloop. unfold _insert_left. destruct (deref h a) as [nd| |]; simpl; try done.
  destruct (op x.1 (value nd).1); [destruct (left nd)|]; try done; apply Hloop.
Qed.

Lemma insert_loop_mono op x h tmp : mono (λ fuel, _insert_loop op fuel x h tmp).
Proof.
  intros n. revert h tmp. induction n as [|n IH]; intros h [a|] m v; simpl; try done.
  - by destruct m.
  - destruct m as [|m]; [lia|]. simpl. intros Hr Hnm.
    assert (Hl : ∀ a', _insert_left op (_insert_loop op n x) h a' x = Ret v →
                  _insert_left op (_insert_loop op m x) h a' x = Ret v).
    { intros a'. apply insert_left_mono. intros h' tmp' v' Hv'. apply IH; [done|lia]. }
    destruct (deref h a) as [nd| |]; simpl in *; try done.
    destruct (op (value nd).1 x.1); [destruct (right nd)|]; try done; by apply Hl.
  - by destruct m.
Qed.

Lemma insert_mono op key_eq s x : mono (λ fuel, _insert op key_eq fuel s x).
Proof.
  unfold _insert. apply (mono_bind (λ fuel, _find op key_eq fuel s x.1)); [apply find_mono|].
  intros [a|]; [apply mono_const|].
  apply (mono_bind (λ fuel, _insert_loop op fuel x (mem s) (root s))); [apply insert_loop_mono|].
  intros [[]|]; apply mono_const.
Qed.

Lemma find_loop_owns_any op key_eq h par t x fuel :
  owns h par t →
  _find_loop op key_eq fuel h (root_loc t) x = Ret (tfind op key_eq t x)
  ∨ _find_loop op key_eq fuel h (root_loc t) x = Timeout.
Proof.
  revert par t. induction fuel as [|fuel IH]; intros par [|l a e r]; simpl; auto.
  intros (Ha & Hl & Hr). unfold deref. rewrite Ha. simpl.
  destruct (key_eq e.1 x); [auto|].
  destruct (op x e.1); [by apply (IH (Some a))|].
  destruct (op e.1 x); [by apply (IH (Some a))|auto].
Qed.

Lemma find_owns op key_eq s t x fuel :
  bst_repr s t → height t ≤ fuel → _find op key_eq fuel s x = Ret (tfind op key_eq t x).
Proof.
  intros (Hroot & Ho & _) Hf. unfold _find. rewrite Hroot.
  destruct t as [|l a e r]; [done|].
  by apply (find_loop_owns op key_eq _ None).
Qed.

Lemma NoDup_tinsert op t b x t' :
  tinsert op t b x = Some t' → b ∉ locs t → NoDup (locs t) → NoDup (locs t').
Proof.
  intros (fs & -> & -> & _)%tinsert_inv.
  rewrite !locs_plug_perm. simpl. intros Hb Hnd. apply NoDup_cons. done.
Qed.

(** What [_insert] does on the tree [t]. *)
Lemma insert_owns op key_eq s t x fuel :
  (∀ a b, op a b = true → op b a = false) →
  bst_repr s t → height t ≤ fuel →
  match tfind op key_eq t x.1 with
  | Some a => _insert op key_eq fuel s x = Ret (s, (Some a, false))
  | None =>
    let b := fresh (dom (mem s)) in
    match tinsert op t b x with
    | Some t' =>
      ∃ s', _insert op key_eq fuel s x = Ret (s', (Some b, true)) ∧ bst_repr s' t'
    | None => ∀ n, _insert op key_eq n s x = Timeout
    end
  end.
Proof.
  intros Hasym Hrep Hf. pose proof Hrep as (Hroot & Ho & Hnd).
  pose proof (find_owns op key_eq s t x.1 fuel Hrep Hf) as Hfind.
  destruct (tfind op key_eq t x.1) as [a|] eqn:Htf.
  { unfold _insert. by rewrite Hfind. }
  intros b. destruct t as [|l a e r].
  { simpl. exists (mk_bst (<[b := mk_node None None None x]> (mem s)) (Some b)).
    unfold _insert. rewrite Hfind. simpl. rewrite Hroot. simpl.
    destruct fuel; simpl; (split; [done|]); split_and!; simpl; try done.
    all: try (by rewrite lookup_insert_eq). all: apply NoDup_singleton. }
  pose proof (λ fuel x h par t, insert_loop_spec (V:=V) op fuel x h par t Hasym) as Hspec.
  destruct (tinsert op (Node l a e r) b x) as [t'|] eqn:Hins.
  - specialize (Hspec fuel x (mem s) None _ Ho Hnd ltac:(discriminate)).
    unfold ins_post in Hspec. fold b in Hspec. rewrite Hins in Hspec.
    destruct (Hspec Hf) as (h' & Hres & Ho' & _).
    exists (mk_bst h' (root s)). unfold _insert. rewrite Hfind. simpl.
    rewrite Hroot. rewrite Hres. simpl. split; [done|]. split_and!; simpl; [|done|].
    + transitivity (root_loc (Node l a e r)); [done|].
      symmetry. eapply tinsert_root; [|done]. done.
    + eapply NoDup_tinsert; [done| |done]. by eapply owns_fresh.
  - intros n. unfold _insert, _find. rewrite Hroot. cbn [root_loc].
    destruct (find_loop_owns_any op key_eq (mem s) None _ x.1 n Ho) as [Hn|Hn];
      cbn [root_loc] in Hn; rewrite Hn; [|done].
    rewrite Htf. cbn [mbind result_bind].
    specialize (Hspec n x (mem s) None _ Ho Hnd ltac:(discriminate)).
    unfold ins_post in Hspec. fold b in Hspec. rewrite Hins in Hspec.
    cbn [root_loc] in Hspec. by rewrite Hspec.
Qed.


End operations.

(** * In-order traversal with the iterator *)

Section traversal.
Context {K V : Type}.
Implicit Types (t l r : @tree K V) (fs : list (@frame K V)) (h : gmap loc (node_t K V)).
Implicit Types (s : bst K V).

Lemma after_app fs1 fs2 : after (fs1 ++ fs2) = after fs1 ++ after fs2.
Proof.
  induction fs1 as [|[a e r|l a e] fs1 IH]; simpl; [done| |done].
  by rewrite IH, <- app_assoc.
Qed.

Lemma leftmost_plug l a e r fs m em rm :
  leftmost l a e r = (fs, (m, em, rm)) →
  Node l a e r = plug fs (Node Leaf m em rm)
  ∧ inorder (Node l a e r) = em :: inorder rm ++ after fs.
Proof.
  revert a e r fs. induction l as [|ll IH la le lr _]; intros a e r fs; simpl.
  { intros [= <- <- <- <-]. simpl. split; [done|by rewrite app_nil_r]. }
  destruct (leftmost ll la le lr) as [fs' [[m' em'] rm']] eqn:Hl.
  intros [= <- <- <- <-]. destruct (IH _ _ _ _ Hl) as [Hp Hi].
  rewrite plug_app. simpl. rewrite <- Hp. split; [done|].
  simpl in Hi. rewrite Hi, after_app. simpl. by rewrite app_nil_r, <- !app_assoc.
Qed.

Lemma inorder_loop_owns h par l a e r fuel :
  owns h par (Node l a e r) → height (Node l a e r) ≤ fuel →
  _inorder fuel h a = Ret (leftmost l a e r).2.1.1.
Proof.
  revert par a e r fuel. induction l as [|ll IH la le lr _]; intros par a e r [|fuel];
    simpl; try lia; intros (Ha & Hl & Hr) Hf; unfold deref; rewrite Ha; simpl; [done|].
  destruct (leftmost ll la le lr) as [fs' [[m' em'] rm']] eqn:Hlm. simpl.
  erewrite IH; [by rewrite Hlm|done|simpl; lia].
Qed.

Lemma climb_plug fs (u : @tree K V) :
  match climb fs u with
  | Some (fs', s') =>
    plug fs u = plug fs' s'
    ∧ ∃ l' a' e' r', s' = Node l' a' e' r' ∧ after fs = e' :: inorder r' ++ after fs'
  | None => after fs = []
  end.
Proof.
  revert u. induction fs as [|[a e r|l a e] fs IH]; intros u; simpl; [done| |].
  - split; [done|]. by exists u, a, e, r.
  - apply IH.
Qed.

Lemma ascend_owns h fs cur fuel (u : @tree K V) :
  owns_ctx h None fs (Some cur) → NoDup (cur :: ctx_locs fs) → length fs ≤ fuel →
  ascend fuel h cur (hole_par fs None)
  = Ret (match climb fs u with Some (_, s') => root_loc s' | None => None end).
Proof.
  revert cur fuel u. induction fs as [|[a e r|l a e] fs IH]; intros cur fuel u; simpl;
    [by destruct fuel| |].
  - intros (Ha & Hr & Hc) Hnd Hf. destruct fuel as [|fuel]; [lia|]. simpl.
    unfold deref. rewrite Ha. simpl. rewrite decide_False; [done|].
    unfold ctx_locs in Hnd. simpl in Hnd. destruct r; simpl; [done|].
    intros [= ->]. split_locs. set_solver.
  - intros (Ha & Hl & Hc) Hnd Hf. destruct fuel as [|fuel]; [lia|]. simpl.
    unfold deref. rewrite Ha. simpl. rewrite decide_True by done.
    apply IH; [done| |lia].
    unfold ctx_locs in Hnd. simpl in Hnd. fold (ctx_locs fs) in Hnd.
    split_locs. apply NoDup_cons. split; [set_solver|done].
Qed.

Lemma foldl_snoc {A} (l acc : list A) : foldl (λ acc i, acc ++ [i]) acc l = acc ++ l.
Proof.
  revert acc. induction l as [|x l IH]; intros acc; simpl; [by rewrite app_nil_r|].
  by rewrite IH, <- app_assoc.
Qed.

(** The traversal from a node whose left subtree is done. *)
Lemma range_for_owns {A} h (body : A → K * V → A) n :
  ∀ fuel fs l a e r acc,
  owns h None (plug fs (Node l a e r)) → NoDup (locs (plug fs (Node l a e r))) →
  length (e :: inorder r ++ after fs) ≤ n →
  n + height (plug fs (Node l a e r)) ≤ fuel →
  range_for fuel h (Some a) body acc = Ret (foldl body acc (e :: inorder r ++ after fs)).
Proof.
  induction n as [|n IH]; intros fuel fs l a e r acc Ho Hnd Hlen Hf; simpl in Hlen; [lia|].
  destruct fuel as [|fuel]; [lia|].
  pose proof Ho as [Hs Hc]%owns_plug. pose proof Hs as (Ha & Hl & Hr).
  pose proof (height_plug fs (Node l a e r)) as Hh.
  pose proof Hnd as Hnd'. rewrite locs_plug_perm in Hnd'.
  cbn [range_for]. unfold deref. rewrite Ha. cbn [mbind result_bind value].
  unfold increment, deref. rewrite Ha. cbn [mbind result_bind right parent].
  destruct r as [|rl ra re rr].
  - cbn [root_loc]. rewrite (ascend_owns h fs a fuel (Node l a e Leaf)); [|done| |simpl in *; lia].
    2:{ simpl in Hnd'. apply NoDup_app in Hnd' as (_ & Hd & Hn).
        apply NoDup_cons. split; [|done]. apply Hd. set_solver. }
    cbn [mbind result_bind inorder app foldl].
    pose proof (climb_plug fs (Node l a e Leaf)) as Hcl.
    destruct (climb fs (Node l a e Leaf)) as [[fs' s']|].
    + destruct Hcl as (Hp & l' & a' & e' & r' & -> & Haf). rewrite Haf. cbn [root_loc].
      rewrite Hp in *. apply (IH fuel fs' l' a' e' r'); [done|done| |lia].
      rewrite Haf in Hlen. simpl in *. lia.
    + rewrite Hcl. by destruct fuel.
  - cbn [root_loc].
    destruct (leftmost rl ra re rr) as [sp [[m em] rm]] eqn:Hlm.
    erewrite inorder_loop_owns; [|exact Hr|simpl in *; lia].
    rewrite Hlm. cbn [mbind result_bind].
    destruct (leftmost_plug _ _ _ _ _ _ _ _ Hlm) as [Hp Hi].
    rewrite Hi. cbn [foldl].
    assert (Hpl : plug fs (Node l a e (Node rl ra re rr))
                  = plug (sp ++ FR l a e :: fs) (Node Leaf m em rm)).
    { rewrite plug_app. simpl. by rewrite <- Hp. }
    rewrite Hpl in *.
    cbn [fst snd app]. rewrite <- app_assoc. replace (after sp ++ after fs) with (after (sp ++ FR l a e :: fs))
      by (by rewrite after_app).
    apply (IH fuel _ Leaf m em rm); [done|done| |lia].
    rewrite Hi in Hlen. rewrite after_app. simpl in *.
    rewrite ?length_app in *. simpl in *. rewrite ?length_app in *. lia.
Qed.

Lemma traversal_owns {A} s t fuel (body : A → K * V → A) acc :
  bst_repr s t → S (length (locs t) + height t) ≤ fuel →
  (it ← begin fuel s; range_for fuel (mem s) it body acc) = Ret (foldl body acc (inorder t)).
Proof.
  intros (Hroot & Ho & Hnd) Hf. unfold begin. rewrite Hroot.
  destruct t as [|l a e r]; [by destruct fuel|]. cbn [root_loc].
  destruct (leftmost l a e r) as [sp [[m em] rm]] eqn:Hlm.
  erewrite inorder_loop_owns; [|exact Ho|lia].
  rewrite Hlm. cbn [mbind result_bind].
  destruct (leftmost_plug _ _ _ _ _ _ _ _ Hlm) as [Hp Hi].
  rewrite Hp in *.
  rewrite (range_for_owns (mem s) _ (length (locs (plug sp (Node Leaf m em rm)))) fuel sp Leaf m em rm acc);
    [|done|done| |lia].
  - by rewrite Hi.
  - by rewrite <- length_inorder, Hi.
Qed.

Lemma entries_owns s t fuel :
  bst_repr s t → S (length (locs t) + height t) ≤ fuel →
  entries fuel s = Ret (inorder t).
Proof.
  intros Hrep Hf. unfold entries. rewrite (traversal_owns s t); [|done..].
  by rewrite foldl_snoc.
Qed.

End traversal.

(** * Destruction and relinking *)

Section surgery.
Context {K V : Type}.
Implicit Types (op key_eq : K → K → bool).
Implicit Types (t u l r : @tree K V) (fs : list (@frame K V)) (h : gmap loc (node_t K V)).
Implicit Types (s : bst K V).

Lemma destroy_owns h par t fuel :
  owns h par t → NoDup (locs t) → height t ≤ fuel →
  ∃ h', destroy fuel h (root_loc t) = Ret h'
        ∧ (∀ a, a ∈ locs t → h' !! a = None)
        ∧ (∀ a, a ∉ locs t → h' !! a = h !! a).
Proof.
  revert h par fuel. induction t as [|l IHl a e r IHr]; intros h par fuel Ho Hnd Hf.
  { exists h. destruct fuel; simpl; set_solver. }
  destruct fuel as [|fuel]; [simpl in Hf; lia|]. simpl in Hf.
  destruct Ho as (Ha & Hl & Hr). apply NoDup_node in Hnd as (Hndl & Hndr & Hal & Har & Hlr).
  destruct (IHl h (Some a) fuel Hl Hndl ltac:(lia)) as (h1 & Hd1 & Hin1 & Hout1).
  assert (Hr1 : owns h1 (Some a) r).
  { eapply owns_frame; [exact Hr|]. intros c Hc. apply Hout1. set_solver. }
  destruct (IHr h1 (Some a) fuel Hr1 Hndr ltac:(lia)) as (h2 & Hd2 & Hin2 & Hout2).
  exists (delete a h2). simpl. unfold deref. rewrite Ha. simpl. rewrite Hd1. simpl.
  rewrite Hd2. simpl. split; [done|]. split.
  - intros c. rewrite elem_of_app, elem_of_cons. intros [Hc|[->|Hc]].
    + rewrite lookup_delete_ne by set_solver. rewrite Hout2 by set_solver. by apply Hin1.
    + by rewrite lookup_delete_eq.
    + rewrite lookup_delete_ne by set_solver. by apply Hin2.
  - intros c. rewrite not_elem_of_app, not_elem_of_cons. intros (Hcl & Hca & Hcr).
    rewrite lookup_delete_ne by done. rewrite Hout2 by done. by apply Hout1.
Qed.

Lemma destroy_single h n p v fuel :
  h !! n = Some (mk_node None None p v) → destroy (S fuel) h (Some n) = Ret (delete n h).
Proof. intros Hn. simpl. unfold deref. rewrite Hn. simpl. by destruct fuel. Qed.

Lemma clear_owns s t fuel :
  bst_repr s t → height t ≤ fuel →
  ∃ s', clear fuel s = Ret s' ∧ bst_repr s' Leaf
        ∧ (∀ a, a ∉ locs t → mem s' !! a = mem s !! a).
Proof.
  intros (Hroot & Ho & Hnd) Hf.
  destruct (destroy_owns _ _ _ _ Ho Hnd Hf) as (h' & Hd & _ & Hout).
  exists (mk_bst h' None). unfold clear, reset_root. rewrite Hroot, Hd. simpl.
  split; [done|]. split; [|done]. split_and!; try done. constructor.
Qed.

Lemma root_loc_plug_ne f fs u a :
  NoDup (locs (plug (f :: fs) u)) → a ∈ locs u → root_loc (plug (f :: fs) u) ≠ Some a.
Proof.
  revert f u. induction fs as [|g fs IH]; intros f u Hnd Ha.
  - simpl in *. destruct f; simpl in *; intros [= ->]; split_locs; set_solver.
  - apply (IH g (fill f u)); [done|]. destruct f; simpl; set_solver.
Qed.

(** Changing the parent member of the root of [t], and nothing else of [t]. *)
Lemma owns_reparent h h' par par' t :
  owns h par t → NoDup (locs t) →
  (∀ a nd, root_loc t = Some a → h !! a = Some nd → h' !! a = Some (set_parent nd par')) →
  (∀ c, c ∈ locs t → root_loc t ≠ Some c → h' !! c = h !! c) →
  owns h' par' t.
Proof.
  destruct t as [|l a e r]; [done|]. intros (Ha & Hl & Hr) Hnd Hroot Hsame.
  apply NoDup_node in Hnd as (Hndl & Hndr & Hal & Har & Hlr).
  split_and!.
  - by rewrite (Hroot a _ eq_refl Ha).
  - eapply owns_frame; [exact Hl|]. intros c Hc. apply Hsame; simpl; [set_solver|].
    intros [= ->]. done.
  - eapply owns_frame; [exact Hr|]. intros c Hc. apply Hsame; simpl; [set_solver|].
    intros [= ->]. done.
Qed.

Lemma owns_ctx_relink h h' fs q q' :
  owns_ctx h None fs q → NoDup (ctx_locs fs) →
  hole_link h' fs q' →
  (∀ c, c ∈ ctx_locs fs → hole_par fs None ≠ Some c → h' !! c = h !! c) →
  owns_ctx h' None fs q'.
Proof.
  destruct fs as [|[pa pe pr|pl pa pe] fs']; [done| |]; simpl;
    unfold ctx_locs; simpl; fold (ctx_locs fs');
    intros (Ha & Hs & Hc) Hnd Hlink Hsame; split_locs; split_and!; try done.
  - eapply owns_frame; [exact Hs|]. intros c Hc'. apply Hsame; [set_solver|]. intros [= ->]. done.
  - eapply owns_ctx_frame; [exact Hc|]. intros c Hc'. apply Hsame; [set_solver|]. intros [= ->]. done.
  - eapply owns_frame; [exact Hs|]. intros c Hc'. apply Hsame; [set_solver|]. intros [= ->]. done.
  - eapply owns_ctx_frame; [exact Hc|]. intros c Hc'. apply Hsame; [set_solver|]. intros [= ->]. done.
Qed.

End surgery.

(** * [erase] *)

Section erase.
Context {K V : Type}.
Implicit Types (op key_eq : K → K → bool).
Implicit Types (t u l r : @tree K V) (fs : list (@frame K V)) (h : gmap loc (node_t K V)).
Implicit Types (s : bst K V).

#[local] Arguments kept : simpl never.
Lemma NoDup_sub (k1 k2 : list loc) : kept (NoDup k2) → k1 `sublist_of` k2 → NoDup k1.
Proof. intros H Hs. by eapply sublist_NoDup. Qed.

Lemma erase_S op key_eq fuel s x :
  erase op key_eq (S fuel) s x
  = ltac:(let b := eval cbn [erase] in (erase op key_eq (S fuel) s x) in exact b).
Proof. reflexivity. Qed.

Lemma repr_replace s h' fs u c rt :
  root s = root_loc (plug fs u) →
  owns_ctx (mem s) None fs (root_loc u) →
  NoDup (ctx_locs fs) →
  owns h' (hole_par fs None) c →
  hole_link h' fs (root_loc c) →
  (∀ a, a ∈ ctx_locs fs → hole_par fs None ≠ Some a → h' !! a = mem s !! a) →
  NoDup (locs c ++ ctx_locs fs) →
  rt = match fs with [] => root_loc c | _ => root s end →
  bst_repr (mk_bst h' rt) (plug fs c).
Proof.
  intros Hroot Hc Hndc Ho Hlink Hsame Hnd ->. split_and!; simpl.
  - destruct fs as [|f fs]; [done|]. rewrite Hroot. apply root_loc_plug_cons.
  - apply owns_plug. split; [done|]. by eapply owns_ctx_relink.
  - by rewrite locs_plug_perm.
Qed.

#[local] Arguments destroy : simpl never.
#[local] Arguments erase : simpl never.
#[local] Arguments _find : simpl never.

Lemma ctx_locs_cons (f : @frame K V) fs : ctx_locs (f :: fs) = frame_locs f ++ ctx_locs fs.
Proof. done. Qed.

Ltac sublist_go :=
  lazymatch goal with
  | |- [] `sublist_of` _ => apply sublist_nil_l
  | |- ?X `sublist_of` ?X => reflexivity
  | |- ?a :: _ `sublist_of` ?a :: _ => apply sublist_skip; sublist_go
  | |- ?X ++ _ `sublist_of` ?X ++ _ => apply sublist_app; [reflexivity|sublist_go]
  | |- ?X `sublist_of` ?X ++ _ => apply sublist_inserts_r; reflexivity
  | |- _ `sublist_of` _ :: _ => apply sublist_cons; sublist_go
  | |- _ `sublist_of` _ ++ _ => apply sublist_inserts_l; sublist_go
  end.

Ltac norm_lists :=
  rewrite ?ctx_locs_cons;
  repeat first [rewrite <- app_assoc|rewrite app_nil_r|progress simpl].

Ltac solve_sublist := norm_lists; sublist_go.

Lemma ne_by_nodup (L X Y : list loc) c d :
  kept (NoDup L) → c ∈ X → d ∈ Y →
  X ++ Y `sublist_of` L ∨ Y ++ X `sublist_of` L → c ≠ d.
Proof.
  intros HL Hc Hd Hs ->.
  assert (NoDup (X ++ Y) ∨ NoDup (Y ++ X)) as [H|H]
    by (destruct Hs; [left|right]; by eapply sublist_NoDup).
  - apply NoDup_app in H as (_ & H & _). by apply (H d).
  - apply NoDup_app in H as (_ & H & _). by apply (H d).
Qed.

Lemma ne_by_fresh_l (L X : list loc) b c :
  kept (b ∉ L) → c ∈ X → X `sublist_of` L → b ≠ c.
Proof.
  intros Hb Hc Hs ->. apply Hb. by eapply elem_of_sublist.
Qed.

Lemma ne_by_fresh_r (L X : list loc) b c :
  kept (b ∉ L) → c ∈ X → X `sublist_of` L → c ≠ b.
Proof.
  intros Hb Hc Hs ->. apply Hb. by eapply elem_of_sublist.
Qed.

Lemma elem_self (c : loc) : c ∈ [c].
Proof. by left. Qed.

Ltac find_mem c :=
  multimatch goal with
  | H : c ∈ _ |- _ => exact H
  | |- _ => exact (elem_self c)
  end.

Ltac solve_ne :=
  first
    [ done
    | congruence
    | match goal with
      | Hn : kept (NoDup _) |- ?c ≠ ?d =>
        solve [ eapply (ne_by_nodup _ _ _ c d Hn);
                [find_mem c|find_mem d|
                 first [left; solve_sublist|right; solve_sublist]] ]
      | Hb : kept (?b ∉ _) |- ?b ≠ ?c =>
        solve [ eapply (ne_by_fresh_l _ _ b c Hb); [find_mem c|solve_sublist] ]
      | Hb : kept (?b ∉ _) |- ?c ≠ ?b =>
        solve [ eapply (ne_by_fresh_r _ _ b c Hb); [find_mem c|solve_sublist] ]
      end ].

Ltac heap_eval :=
  repeat first
    [ progress simpl
    | progress unfold reset_left, reset_right, reset_root, release_left, release_right,
        store_parent, deref_ptr, deref, adopt_children, rebuild_node, alloc,
        set_left, set_right, set_parent
    | rewrite lookup_insert_eq
    | rewrite lookup_insert_ne by solve_ne
    | rewrite lookup_delete_ne by solve_ne
    | match goal with
      | H : ?h !! ?a = Some _ |- context [?h !! ?a] => rewrite H
      end
    | rewrite decide_True by (done || congruence)
    | rewrite decide_False by (done || congruence)
    | rewrite bool_decide_eq_true_2 by (done || congruence)
    | rewrite bool_decide_eq_false_2 by (done || congruence)
    | erewrite destroy_single by (heap_eval; reflexivity) ].

Ltac lookup_eval :=
  repeat first
    [ rewrite lookup_insert_eq
    | rewrite lookup_delete_eq
    | rewrite lookup_delete_ne by solve_ne
    | rewrite lookup_insert_ne by solve_ne ].

Ltac frame_eval := let c := fresh "c" in intros c ? ?; lookup_eval; done.

Lemma root_loc_elem t a : root_loc t = Some a → a ∈ locs t.
Proof. destruct t; simpl; [done|]. intros [= ->]. set_solver. Qed.

Lemma root_loc_ne t a : a ∉ locs t → root_loc t ≠ Some a ∧ Some a ≠ root_loc t.
Proof. intros Hn. split; intros H; [|symmetry in H]; by apply root_loc_elem in H. Qed.

Lemma owns_reparent_node h h' par par' l a e r :
  owns h par (Node l a e r) → kept (NoDup (locs (Node l a e r))) →
  h' !! a = Some (mk_node (root_loc r) (root_loc l) par' e) →
  (∀ c, c ∈ locs l ++ locs r → h' !! c = h !! c) →
  owns h' par' (Node l a e r).
Proof.
  intros (Ha & Hl & Hr) Hnd Ha' Hsame. split_and!; [done|..].
  - eapply owns_frame; [exact Hl|]. intros c Hc. apply Hsame. set_solver.
  - eapply owns_frame; [exact Hr|]. intros c Hc. apply Hsame. set_solver.
Qed.

Ltac solve_nodup :=
  match goal with
  | H : kept (NoDup _) |- kept (NoDup _) => eapply NoDup_sub; [exact H|solve_sublist]
  | H : kept (NoDup _) |- NoDup _ => eapply NoDup_sub; [exact H|solve_sublist]
  end.

Ltac solve_lookup := simpl; lookup_eval; first [done | heap_eval; done].

Ltac split_mem :=
  repeat match goal with
  | H : _ ∈ ctx_locs (_ :: _) |- _ => rewrite ctx_locs_cons in H
  | H : _ ∈ frame_locs _ |- _ => progress simpl in H
  | H : _ ∈ _ ++ _ |- _ => apply elem_of_app in H as [H|H]
  | H : _ ∈ _ :: _ |- _ => apply elem_of_cons in H as [->|H]
  | H : _ ∈ [] |- _ => by apply not_elem_of_nil in H
  end.

Ltac solve_frame :=
  let c := fresh "c" in
  intros c; intros; simpl in *; split_mem; try congruence; lookup_eval; done.

Ltac solve_owns :=
  first
    [ exact I
    | eapply owns_reparent_node; [eassumption|solve_nodup|solve_lookup|solve_frame] ].

Lemma NoDup_insert_fresh (L A B : list loc) b :
  kept (NoDup L) → kept (b ∉ L) → A ++ B `sublist_of` L → NoDup (A ++ b :: B).
Proof.
  unfold kept. intros HL Hb Hs.
  assert (HAB : NoDup (A ++ B)) by (by eapply sublist_NoDup).
  assert (Hb' : b ∉ A ++ B) by (intros Hin; apply Hb; by eapply elem_of_sublist).
  revert HAB Hb'. rewrite !NoDup_app, !NoDup_cons, !not_elem_of_app.
  intros (HA & Hd & HB) [HbA HbB]. split_and!; try done.
  intros x Hx. rewrite not_elem_of_cons. split; [by intros ->|by apply Hd].
Qed.

Ltac split_at b M :=
  lazymatch M with
  | b :: ?Y => constr:((@nil loc, Y))
  | ?x :: ?M' =>
    let r := split_at b M' in
    lazymatch r with (?A, ?B) => constr:((x :: A, B)) end
  | ?X ++ ?M' =>
    let r := split_at b M' in
    lazymatch r with (?A, ?B) => constr:((X ++ A, B)) end
  end.

Ltac solve_renew b :=
  norm_lists;
  lazymatch goal with
  | |- NoDup ?M =>
    let r := split_at b M in
    lazymatch r with
    | (?A, ?B) =>
      replace M with (A ++ b :: B)
        by (repeat first [reflexivity|progress simpl|rewrite <- app_assoc|rewrite app_nil_r]);
      match goal with
      | Hn : kept (NoDup _), Hb : kept (b ∉ _) |- _ =>
        eapply (NoDup_insert_fresh _ A B b Hn Hb); solve_sublist
      end
    end
  end.

Lemma erase_splice op key_eq s fs l n e r x fuel :
  bst_repr s (plug fs (Node l n e r)) →
  tfind op key_eq (plug fs (Node l n e r)) x = Some n →
  l = Leaf ∨ r = Leaf →
  height (plug fs (Node l n e r)) ≤ fuel →
  ∃ s', erase op key_eq (S fuel) s x = Ret s' ∧ bst_repr s' (plug fs (splice l r)).
Proof.
  intros Hrep Hfind Hone Hf. pose proof Hrep as (Hroot & Ho & Hnd).
  rewrite erase_S, (find_owns op key_eq s _ x fuel Hrep Hf), Hfind.
  apply owns_plug in Ho as [Hs Hc]. pose proof Hs as (Hn & Hl & Hr).
  rewrite locs_plug_perm in Hnd. pose proof Hnd as Hnd'.
  apply NoDup_app in Hnd' as (_ & _ & Hndc).
  pose proof (Hnd : kept _) as Hnd0. pose proof (Hndc : kept _) as Hndc0. clear Hndc.
  pose proof Hc as Hc0.
  assert (Hfuel : ∃ fuel', fuel = S fuel').
  { pose proof (height_plug fs (Node l n e r)). simpl in *. destruct fuel; [lia|eauto]. }
  destruct Hfuel as [fuel' ->].
  assert (Hnr : fs ≠ [] → Some n ≠ root s).
  { destruct fs as [|f fs']; [done|]. intros _ Heq. rewrite Hroot in Heq.
    symmetry in Heq. revert Heq. apply root_loc_plug_ne; [by rewrite locs_plug_perm|].
    simpl. set_solver. }
  destruct fs as [|[pa pe pr|pl pa pe] fs'].
  - (* the node is the root *)
    clear Hnr. simpl in Hroot.
    destruct l as [|ll cl le lr], r as [|rl cr re rr]; [| | |naive_solver];
      pose proof Hl as Hl'; pose proof Hr as Hr'; simpl in Hl', Hr'; destruct_and?;
      simpl in Hnd; split_locs.
    + heap_eval. rewrite Hroot. heap_eval. eexists; split; [reflexivity|].
      split_and!; simpl; try done.
    + heap_eval. rewrite Hroot. heap_eval. eexists; split; [reflexivity|].
      eapply (repr_replace s _ [] (Node Leaf n e (Node rl cr re rr)) (Node rl cr re rr));
        [done|exact Hc0|exact Hndc0|solve_owns|done|solve_frame|solve_nodup|done].
    + heap_eval. rewrite Hroot. heap_eval. eexists; split; [reflexivity|].
      eapply (repr_replace s _ [] (Node (Node ll cl le lr) n e Leaf) (Node ll cl le lr));
        [done|exact Hc0|exact Hndc0|solve_owns|done|solve_frame|solve_nodup|done].
  - (* the node is the left child of [pa] *)
    specialize (Hnr ltac:(done)). destruct Hc as (Hpa & Hpr & Hc).
    rewrite ctx_locs_cons in Hnd, Hnd0.
    destruct l as [|ll cl le lr], r as [|rl cr re rr]; [| | |naive_solver];
      pose proof Hl as Hl'; pose proof Hr as Hr'; simpl in Hl', Hr'; destruct_and?;
      simpl in Hnd; split_locs.
    + heap_eval. eexists; split; [reflexivity|].
      eapply (repr_replace s _ (FL pa pe pr :: fs') (Node Leaf n e Leaf) Leaf);
        [done|exact Hc0|exact Hndc0|solve_owns|solve_lookup|solve_frame|solve_nodup|done].
    + heap_eval. eexists; split; [reflexivity|].
      eapply (repr_replace s _ (FL pa pe pr :: fs') (Node Leaf n e (Node rl cr re rr))
                (Node rl cr re rr));
        [done|exact Hc0|exact Hndc0|solve_owns|solve_lookup|solve_frame|solve_nodup|done].
    + heap_eval. eexists; split; [reflexivity|].
      eapply (repr_replace s _ (FL pa pe pr :: fs') (Node (Node ll cl le lr) n e Leaf)
                (Node ll cl le lr));
        [done|exact Hc0|exact Hndc0|solve_owns|solve_lookup|solve_frame|solve_nodup|done].
  - (* the node is the right child of [pa] *)
    specialize (Hnr ltac:(done)). destruct Hc as (Hpa & Hpl & Hc).
    rewrite ctx_locs_cons in Hnd, Hnd0.
    assert (Hnpl : n ∉ locs pl).
    { unfold kept in Hnd0. apply NoDup_app in Hnd0 as (_ & Hd & _).
      intros Hin. apply (Hd n); simpl; set_solver. }
    destruct (root_loc_ne _ _ Hnpl) as [Hnpl1 Hnpl2].
    destruct l as [|ll cl le lr], r as [|rl cr re rr]; [| | |naive_solver];
      pose proof Hl as Hl'; pose proof Hr as Hr'; simpl in Hl', Hr'; destruct_and?;
      simpl in Hnd; split_locs.
    + heap_eval. eexists; split; [reflexivity|].
      eapply (repr_replace s _ (FR pl pa pe :: fs') (Node Leaf n e Leaf) Leaf);
        [done|exact Hc0|exact Hndc0|solve_owns|solve_lookup|solve_frame|solve_nodup|done].
    + heap_eval. eexists; split; [reflexivity|].
      eapply (repr_replace s _ (FR pl pa pe :: fs') (Node Leaf n e (Node rl cr re rr))
                (Node rl cr re rr));
        [done|exact Hc0|exact Hndc0|solve_owns|solve_lookup|solve_frame|solve_nodup|done].
    + heap_eval. eexists; split; [reflexivity|].
      eapply (repr_replace s _ (FR pl pa pe :: fs') (Node (Node ll cl le lr) n e Leaf)
                (Node ll cl le lr));
        [done|exact Hc0|exact Hndc0|solve_owns|solve_lookup|solve_frame|solve_nodup|done].
Qed.

Lemma before_app fs1 fs2 : before (fs1 ++ fs2) = before fs2 ++ before fs1.
Proof.
  induction fs1 as [|[a e r|l a e] fs1 IH]; simpl; [by rewrite app_nil_r|done|].
  by rewrite IH, <- app_assoc.
Qed.

Lemma leftmost_before l a e r : before (leftmost l a e r).1 = [].
Proof.
  revert a e r. induction l as [|ll IH la le lr _]; intros a e r; simpl; [done|].
  specialize (IH la le lr). destruct (leftmost ll la le lr) as [fs m]. simpl in *.
  by rewrite before_app, IH.
Qed.

Lemma rebuild_node_owns h n v pr pl par e :
  h !! n = Some (mk_node pr pl par e) →
  rebuild_node h n v
  = Ret (fresh (dom h),
         <[fresh (dom h) := mk_node pr pl par v]> (<[n := mk_node None None par e]> h)).
Proof.
  intros Hn. unfold rebuild_node, release_right, release_left, deref, alloc.
  rewrite Hn. simpl. rewrite lookup_insert_eq. simpl. rewrite lookup_insert_eq. simpl.
  unfold set_left, set_right. simpl. rewrite insert_insert_eq.
  assert (dom (<[n:=mk_node None None par e]> h) = dom h) as ->; [|done].
  rewrite dom_insert_L. apply elem_of_dom_2 in Hn. set_solver.
Qed.

Lemma owns_node_intro h par l a e r :
  h !! a = Some (mk_node (root_loc r) (root_loc l) par e) →
  owns h (Some a) l → owns h (Some a) r → owns h par (Node l a e r).
Proof. by intros; split_and!. Qed.


Lemma replace_node_owns s fs ll cl le lr n e r v fuel :
  bst_repr s (plug fs (Node (Node ll cl le lr) n e r)) →
  ∃ s', replace_node (S fuel) s n v = Ret s'
        ∧ bst_repr s' (plug fs (Node (Node ll cl le lr) (fresh (dom (mem s))) v r)).
Proof.
  intros Hrep. pose proof Hrep as (Hroot & Ho & Hnd).
  assert (Hb : kept (fresh (dom (mem s)) ∉ locs (Node (Node ll cl le lr) n e r) ++ ctx_locs fs)).
  { unfold kept. rewrite <- locs_plug_perm. by eapply owns_fresh. }
  set (b := fresh (dom (mem s))) in *.
  apply owns_plug in Ho as [Hs Hc]. pose proof Hs as (Hn & Hl & Hr).
  rewrite locs_plug_perm in Hnd. pose proof Hnd as Hnd'.
  apply NoDup_app in Hnd' as (_ & _ & Hndc).
  pose proof (Hnd : kept _) as Hnd0. pose proof (Hndc : kept _) as Hndc0. clear Hndc.
  pose proof Hc as Hc0.
  assert (Hnr : fs ≠ [] → Some n ≠ root s).
  { destruct fs as [|f fs']; [done|]. intros _ Heq. rewrite Hroot in Heq.
    symmetry in Heq. revert Heq. apply root_loc_plug_ne; [by rewrite locs_plug_perm|].
    simpl. set_solver. }
  unfold replace_node. rewrite (rebuild_node_owns _ _ _ _ _ _ _ Hn). fold b.
  destruct fs as [|[pa pe pr|pl pa pe] fs'].
  - clear Hnr. simpl in Hroot.
    destruct r as [|rl cr re rr];
      pose proof Hl as Hl'; pose proof Hr as Hr'; simpl in Hl', Hr'; destruct_and?;
      simpl in Hnd, Hb; split_locs.
    + rewrite Hroot. heap_eval. eexists; split; [reflexivity|].
      eapply (repr_replace s _ [] (Node (Node ll cl le lr) n e Leaf)
                (Node (Node ll cl le lr) b v Leaf));
        [done|exact Hc0|exact Hndc0| |done|solve_frame| |done].
      * apply owns_node_intro; [solve_lookup|solve_owns|solve_owns].
      * solve_renew b.
    + rewrite Hroot. heap_eval. eexists; split; [reflexivity|].
      eapply (repr_replace s _ [] (Node (Node ll cl le lr) n e (Node rl cr re rr))
                (Node (Node ll cl le lr) b v (Node rl cr re rr)));
        [done|exact Hc0|exact Hndc0| |done|solve_frame| |done].
      * apply owns_node_intro; [solve_lookup|solve_owns|solve_owns].
      * solve_renew b.
  - specialize (Hnr ltac:(done)). destruct Hc as (Hpa & Hpr & Hc).
    rewrite ctx_locs_cons in Hnd, Hnd0, Hb.
    destruct r as [|rl cr re rr];
      pose proof Hl as Hl'; pose proof Hr as Hr'; simpl in Hl', Hr'; destruct_and?;
      simpl in Hnd, Hb; split_locs.
    + heap_eval. eexists; split; [reflexivity|].
      eapply (repr_replace s _ (FL pa pe pr :: fs') (Node (Node ll cl le lr) n e Leaf)
                (Node (Node ll cl le lr) b v Leaf));
        [done|exact Hc0|exact Hndc0| |solve_lookup|solve_frame| |done].
      * apply owns_node_intro; [solve_lookup|solve_owns|solve_owns].
      * solve_renew b.
    + heap_eval. eexists; split; [reflexivity|].
      eapply (repr_replace s _ (FL pa pe pr :: fs') (Node (Node ll cl le lr) n e (Node rl cr re rr))
                (Node (Node ll cl le lr) b v (Node rl cr re rr)));
        [done|exact Hc0|exact Hndc0| |solve_lookup|solve_frame| |done].
      * apply owns_node_intro; [solve_lookup|solve_owns|solve_owns].
      * solve_renew b.
  - specialize (Hnr ltac:(done)). destruct Hc as (Hpa & Hpl & Hc).
    rewrite ctx_locs_cons in Hnd, Hnd0, Hb.
    assert (Hnpl : n ∉ locs pl).
    { unfold kept in Hnd0. apply NoDup_app in Hnd0 as (_ & Hd & _).
      intros Hin. apply (Hd n); simpl; set_solver. }
    destruct (root_loc_ne _ _ Hnpl) as [Hnpl1 Hnpl2].
    destruct r as [|rl cr re rr];
      pose proof Hl as Hl'; pose proof Hr as Hr'; simpl in Hl', Hr'; destruct_and?;
      simpl in Hnd, Hb; split_locs.
    + heap_eval. eexists; split; [reflexivity|].
      eapply (repr_replace s _ (FR pl pa pe :: fs') (Node (Node ll cl le lr) n e Leaf)
                (Node (Node ll cl le lr) b v Leaf));
        [done|exact Hc0|exact Hndc0| |solve_lookup|solve_frame| |done].
      * apply owns_node_intro; [solve_lookup|solve_owns|solve_owns].
      * solve_renew b.
    + heap_eval. eexists; split; [reflexivity|].
      eapply (repr_replace s _ (FR pl pa pe :: fs') (Node (Node ll cl le lr) n e (Node rl cr re rr))
                (Node (Node ll cl le lr) b v (Node rl cr re rr)));
        [done|exact Hc0|exact Hndc0| |solve_lookup|solve_frame| |done].
      * apply owns_node_intro; [solve_lookup|solve_owns|solve_owns].
      * solve_renew b.
Qed.


Lemma erase_two op key_eq s fs l n e r x fuel :
  strict_weak_order op → eq_operator key_eq →
  bst_repr s (plug fs (Node l n e r)) → ordered op (plug fs (Node l n e r)) →
  tfind op key_eq (plug fs (Node l n e r)) x = Some n →
  l ≠ Leaf → r ≠ Leaf →
  S (height (plug fs (Node l n e r))) ≤ fuel →
  ∃ s' b v r1,
    erase op key_eq (S fuel) s x = Ret s'
    ∧ bst_repr s' (plug fs (Node l b v r1))
    ∧ inorder r = v :: inorder r1.
Proof.
  intros Hswo Heq Hrep Hord Hfind Hl0 Hr0 Hf.
  destruct r as [|rl cr re rr]; [done|]. clear Hr0.
  destruct l as [|ll cl le lr]; [done|]. clear Hl0.
  destruct fuel as [|fuel]; [lia|].
  pose proof (height_plug fs (Node (Node ll cl le lr) n e (Node rl cr re rr))) as Hh.
  (* the successor *)
  destruct (leftmost rl cr re rr) as [sp [[i v] ri]] eqn:Hlm.
  destruct (leftmost_plug _ _ _ _ _ _ _ _ Hlm) as [Hp Hi].
  pose proof (leftmost_before rl cr re rr) as Hbef. rewrite Hlm in Hbef. simpl in Hbef.
  assert (HT : plug fs (Node (Node ll cl le lr) n e (Node rl cr re rr))
               = plug (sp ++ FR (Node ll cl le lr) n e :: fs) (Node Leaf i v ri)).
  { rewrite plug_app. simpl. by rewrite <- Hp. }
  pose proof Hrep as (Hroot & Ho & Hnd).
  pose proof Ho as [Hs Hc]%owns_plug. pose proof Hs as (Hn & Hl & Hr).
  assert (Hival : mem s !! i = Some (mk_node (root_loc ri) None (hole_par sp (Some n)) v)).
  { rewrite Hp in Hr. apply owns_plug in Hr as [Hr _]. by destruct Hr as (? & _). }
  (* the recursive call erases the successor *)
  assert (Hrec : ∃ s1, erase op key_eq (S fuel) s v.1 = Ret s1
                       ∧ bst_repr s1 (plug fs (Node (Node ll cl le lr) n e (plug sp ri)))).
  { rewrite HT in Hrep, Hord, Hf.
    destruct (erase_splice op key_eq s (sp ++ FR (Node ll cl le lr) n e :: fs)
                Leaf i v ri v.1 fuel Hrep) as (s1 & Hrec & Hrep1);
      [by apply tfind_node|by left|lia|].
    exists s1. split; [done|]. by rewrite plug_app in Hrep1. }
  destruct Hrec as (s1 & Hrec & Hrep1).
  destruct (replace_node_owns s1 fs ll cl le lr n e (plug sp ri) v fuel Hrep1)
    as (s' & Hrn & Hrep').
  exists s', (fresh (dom (mem s1))), v, (plug sp ri). split; [|split; [done|]].
  - rewrite erase_S, (find_owns op key_eq s _ x (S fuel) Hrep ltac:(lia)), Hfind.
    cbn [mbind result_bind]. unfold deref. rewrite Hn. cbn [mbind result_bind left right root_loc].
    rewrite (inorder_loop_owns _ _ _ _ _ _ (S fuel) Hr) by (simpl in *; lia).
    rewrite Hlm. cbn [mbind result_bind fst snd]. rewrite Hival.
    cbn [mbind result_bind value]. rewrite Hrec. cbn [mbind result_bind]. done.
  - rewrite Hi, inorder_plug, Hbef. done.
Qed.
Lemma sorted_remove (R : relation K) (l1 l2 : list K) x :
  StronglySorted R (l1 ++ x :: l2) → StronglySorted R (l1 ++ l2).
Proof.
  rewrite !StronglySorted_app, StronglySorted_cons. intros (H1 & H2 & H3 & H4).
  split_and!; try done. intros a b Ha Hb. apply H1; [done|]. by right.
Qed.

Lemma sorted_absent op (l1 l2 : list K) x :
  strict_weak_order op → StronglySorted (lt op) (l1 ++ x :: l2) → x ∉ l1 ++ l2.
Proof.
  intros Hswo. rewrite StronglySorted_app, StronglySorted_cons, Forall_forall.
  intros (H1 & H2 & H3 & H4). rewrite not_elem_of_app. split; intros Hin.
  - specialize (H1 x x Hin ltac:(by left)). unfold lt in H1.
    by rewrite (swo_irrefl _ Hswo) in H1.
  - specialize (H3 x Hin). unfold lt in H3. by rewrite (swo_irrefl _ Hswo) in H3.
Qed.

Lemma inorder_splice l r : l = Leaf ∨ r = Leaf → inorder (splice l r) = inorder l ++ inorder r.
Proof. intros [-> | ->]; [done|]. destruct l; simpl; by rewrite ?app_nil_r. Qed.

Lemma erase_owns op key_eq s t k v fuel :
  strict_weak_order op → eq_operator key_eq →
  bst_repr s t → ordered op t →
  (k, v) ∈ inorder t →
  height t + 2 ≤ fuel →
  ∃ s' t' pre post,
    erase op key_eq fuel s k = Ret s'
    ∧ bst_repr s' t' ∧ ordered op t'
    ∧ inorder t = pre ++ (k, v) :: post
    ∧ inorder t' = pre ++ post
    ∧ k ∉ keys t'.
Proof.
  intros Hswo Heq Hrep Hord Hin Hf.
  destruct (elem_of_inorder_plug _ _ Hin) as (fs & l & n & r & ->).
  pose proof (tfind_node op key_eq fs l n (k, v) r Hswo Heq Hord) as Hfind. simpl in Hfind.
  destruct fuel as [|fuel]; [lia|].
  assert (Hsorted : StronglySorted (lt op)
            (((before fs).*1 ++ (inorder l).*1) ++ k :: ((inorder r).*1 ++ (after fs).*1))).
  { pose proof (ordered_sorted _ _ Hswo Hord) as H. unfold keys in H.
    rewrite inorder_plug in H. simpl in H.
    rewrite ?fmap_app in H. simpl in H. rewrite ?fmap_app in H. simpl in H.
    rewrite <- !app_assoc in H. simpl in H. rewrite <- !app_assoc. exact H. }
  assert (Hfin : ∀ s' t',
    erase op key_eq (S fuel) s k = Ret s' → bst_repr s' t' →
    inorder t' = (before fs ++ inorder l) ++ (inorder r ++ after fs) →
    ∃ s' t' pre post,
      erase op key_eq (S fuel) s k = Ret s'
      ∧ bst_repr s' t' ∧ ordered op t'
      ∧ inorder (plug fs (Node l n (k, v) r)) = pre ++ (k, v) :: post
      ∧ inorder t' = pre ++ post ∧ k ∉ keys t').
  { intros s' t' He Hr Hi. exists s', t', (before fs ++ inorder l), (inorder r ++ after fs).
    assert (Hk : keys t' = ((before fs).*1 ++ (inorder l).*1) ++ ((inorder r).*1 ++ (after fs).*1))
      by (unfold keys; by rewrite Hi, !fmap_app).
    split_and!; try done.
    - apply sorted_ordered. rewrite Hk. by eapply sorted_remove.
    - rewrite inorder_plug. simpl. by rewrite <- !app_assoc.
    - rewrite Hk. by eapply sorted_absent. }
  assert (Hcase : (l = Leaf ∨ r = Leaf) ∨ (l ≠ Leaf ∧ r ≠ Leaf)).
  { destruct l, r; auto; right; done. }
  destruct Hcase as [Hone|[Hl Hr]].
  - destruct (erase_splice op key_eq s fs l n (k, v) r k fuel Hrep Hfind Hone ltac:(lia))
      as (s' & He & Hrep').
    apply (Hfin s' _ He Hrep').
    rewrite inorder_plug, inorder_splice by done. by rewrite <- !app_assoc.
  - destruct (erase_two op key_eq s fs l n (k, v) r k fuel Hswo Heq Hrep Hord Hfind)
      as (s' & b & v' & r1 & He & Hrep' & Hi); [done|done|lia|].
    apply (Hfin s' _ He Hrep').
    rewrite inorder_plug. simpl. rewrite Hi. by rewrite <- !app_assoc.
Qed.
End erase.

(** * Insertion *)

Section insertion.
Context {K V : Type}.
Implicit Types (op key_eq : K → K → bool).
Implicit Types (t u l r : @tree K V) (fs : list (@frame K V)) (h : gmap loc (node_t K V)).
Implicit Types (s : bst K V).

Lemma op_asym' op : strict_weak_order op → ∀ a b, op a b = true → op b a = false.
Proof. intros H a b. by apply op_asym. Qed.

Lemma tinsert_ordered op t b x t' :
  tinsert op t b x = Some t' → ordered op t → ordered op t'.
Proof.
  intros (fs & -> & -> & Hside)%tinsert_inv Hord.
  eapply (ordered_plug_grow op fs Leaf _ x.1); [done| | |done].
  - simpl. split_and!; done.
  - unfold keys. simpl. intros k [->|[]%elem_of_nil]%elem_of_cons. by right.
Qed.

Lemma tinsert_inorder op t b x t' :
  tinsert op t b x = Some t' →
  ∃ pre post, inorder t = pre ++ post ∧ inorder t' = pre ++ x :: post
              ∧ locs t' ≡ₚ b :: locs t.
Proof.
  intros (fs & -> & -> & Hside)%tinsert_inv.
  exists (before fs), (after fs). rewrite !inorder_plug, !locs_plug_perm. done.
Qed.

Lemma tinsert_total op key_eq t b x :
  strict_weak_order op → eq_operator key_eq → total_order op →
  tfind op key_eq t x.1 = None → is_Some (tinsert op t b x).
Proof.
  intros Hswo Heq Htot. induction t as [|l IHl a e r IHr]; simpl; [eauto|].
  destruct (key_eq e.1 x.1) eqn:Hk; [done|].
  assert (Hne : x.1 ≠ e.1) by (intros Hxe; rewrite Hxe, (key_eq_refl _ _ Heq) in Hk; done).
  destruct (op x.1 e.1) eqn:Hx.
  - rewrite (op_asym _ _ _ Hswo Hx). intros [l' ->]%IHl. eauto.
  - destruct (Htot _ _ Hne) as [H|H]; [congruence|]. rewrite H.
    intros [r' ->]%IHr. eauto.
Qed.

(** Whatever [_insert] returns, it returns the tree with the entry put in
    order, or the tree as it was. *)
Lemma insert_inv op key_eq s t x fuel s' it ins :
  strict_weak_order op →
  bst_repr s t → ordered op t →
  _insert op key_eq fuel s x = Ret (s', (it, ins)) →
  ∃ t', bst_repr s' t' ∧ ordered op t'
        ∧ length (locs t') ≤ S (length (locs t))
        ∧ if ins
          then ∃ pre post, inorder t = pre ++ post ∧ inorder t' = pre ++ x :: post
          else s' = s ∧ t' = t.
Proof.
  intros Hswo Hrep Hord Hins.
  apply (insert_mono op key_eq s x _ (fuel `max` height t)) in Hins; [|lia].
  pose proof (insert_owns op key_eq s t x (fuel `max` height t)
                (op_asym' op Hswo) Hrep ltac:(lia)) as Hspec.
  destruct (tfind op key_eq t x.1) as [a|].
  { rewrite Hspec in Hins. injection Hins as <- <- <-. exists t. split_and!; try done. lia. }
  simpl in Hspec. destruct (tinsert op t _ x) as [t'|] eqn:Ht.
  - destruct Hspec as (s'' & Hs'' & Hrep'). rewrite Hs'' in Hins.
    injection Hins as <- <- <-. exists t'. split_and!; [done|by eapply tinsert_ordered| |].
    + destruct (tinsert_inorder _ _ _ _ _ Ht) as (_ & _ & _ & _ & Hp). by rewrite Hp.
    + destruct (tinsert_inorder _ _ _ _ _ Ht) as (pre & post & ? & ? & _). eauto.
  - by rewrite Hspec in Hins.
Qed.


Lemma repr_empty : bst_repr (@empty_bst K V) Leaf.
Proof. split_and!; simpl; try done. constructor. Qed.

Lemma insert_all_inv op key_eq xs : ∀ s t fuel s',
  strict_weak_order op →
  bst_repr s t → ordered op t →
  insert_all op key_eq fuel s xs = Ret s' →
  ∃ t', bst_repr s' t' ∧ ordered op t'.
Proof.
  induction xs as [|x xs IH]; intros s t fuel s' Hswo Hrep Hord; simpl.
  { intros [= <-]. eauto. }
  unfold insert. destruct (_insert op key_eq fuel s x) as [[s1 [it ins]]| |] eqn:Hi; simpl; try done.
  destruct (insert_inv _ _ _ _ _ _ _ _ _ Hswo Hrep Hord Hi) as (t1 & Hrep1 & Hord1 & _).
  by apply (IH s1 t1).
Qed.

Lemma insert_returns op key_eq s t x fuel :
  strict_weak_order op → eq_operator key_eq → total_order op →
  bst_repr s t → height t ≤ fuel →
  ∃ s' it ins, _insert op key_eq fuel s x = Ret (s', (it, ins)).
Proof.
  intros Hswo Heq Htot Hrep Hf.
  pose proof (insert_owns op key_eq s t x fuel (op_asym' op Hswo) Hrep Hf) as Hspec.
  destruct (tfind op key_eq t x.1) as [a|] eqn:Hfind; [eauto|].
  simpl in Hspec.
  destruct (tinsert_total op key_eq t (fresh (dom (mem s))) x Hswo Heq Htot Hfind) as [t' Ht'].
  rewrite Ht' in Hspec. destruct Hspec as (s' & -> & _). eauto.
Qed.

Lemma insert_all_returns op key_eq xs : ∀ s t fuel,
  strict_weak_order op → eq_operator key_eq → total_order op →
  bst_repr s t → ordered op t →
  length (locs t) + length xs ≤ fuel →
  ∃ s', insert_all op key_eq fuel s xs = Ret s'.
Proof.
  induction xs as [|x xs IH]; intros s t fuel Hswo Heq Htot Hrep Hord Hf; simpl; [eauto|].
  pose proof (height_le_size t) as Hh. simpl in Hf.
  destruct (insert_returns op key_eq s t x fuel Hswo Heq Htot Hrep ltac:(lia))
    as (s1 & it & ins & Hi).
  unfold insert. rewrite Hi. simpl.
  destruct (insert_inv _ _ _ _ _ _ _ _ _ Hswo Hrep Hord Hi) as (t1 & Hrep1 & Hord1 & Hlen & _).
  apply (IH s1 t1); try done. lia.
Qed.

(** C2: every tree a sequence of [insert] calls builds from the empty tree
    satisfies the BST-ordering invariant, so that the traversal of the whole
    tree meets the keys in strictly ascending order; and, when the keys the
    comparator leaves unordered are equal, the sequence does return. *)
Theorem insert_sequence_ordered op key_eq (xs : list (K * V)) :
  strict_weak_order op →
  (∀ fuel s, insert_all op key_eq fuel empty_bst xs = Ret s →
     ∃ t, bst_repr s t ∧ ordered op t
          ∧ StronglySorted (lt op) (keys t)
          ∧ ∀ n, S (length (locs t) + height t) ≤ n → entries n s = Ret (inorder t))
  ∧ (eq_operator key_eq → total_order op →
     ∀ fuel, length xs ≤ fuel → ∃ s, insert_all op key_eq fuel empty_bst xs = Ret s).
Proof.
  intros Hswo. split.
  - intros fuel s Hs.
    destruct (insert_all_inv op key_eq xs empty_bst Leaf fuel s Hswo repr_empty I Hs)
      as (t & Hrep & Hord).
    exists t. split_and!; try done; [by apply ordered_sorted|].
    intros n Hn. by apply entries_owns.
  - intros Heq Htot fuel Hf.
    by apply (insert_all_returns op key_eq xs empty_bst Leaf fuel Hswo Heq Htot repr_empty I).
Qed.

(** C4: [insert] of an entry whose key is present returns the iterator to
    the node that holds the key and [false], and leaves the tree, the
    stored value included, as it was. *)
Theorem insert_present op key_eq s t k v v' fuel :
  strict_weak_order op → eq_operator key_eq →
  bst_repr s t → ordered op t →
  (k, v) ∈ inorder t →
  height t ≤ fuel →
  ∃ a nd, insert op key_eq fuel s (k, v') = Ret (s, (Some a, false))
          ∧ mem s !! a = Some nd ∧ value nd = (k, v).
Proof.
  intros Hswo Heq Hrep Hord Hin Hf.
  destruct (elem_of_inorder_plug _ _ Hin) as (fs & l & n & r & ->).
  pose proof (tfind_node op key_eq fs l n (k, v) r Hswo Heq Hord) as Hfind. simpl in Hfind.
  pose proof (insert_owns op key_eq s _ (k, v') fuel (op_asym' op Hswo) Hrep Hf) as Hspec.
  simpl in Hspec. rewrite Hfind in Hspec.
  destruct Hrep as (_ & [(Hn & _) _]%owns_plug & _).
  exists n. eexists. split_and!; [done|exact Hn|done].
Qed.

End insertion.

(** * [balance] *)

Section balancing.
Context {K V : Type}.
Implicit Types (op key_eq : K → K → bool).
Implicit Types (t u l r : @tree K V) (fs : list (@frame K V)) (h : gmap loc (node_t K V)).
Implicit Types (s : bst K V) (nodes : list (K * V)).

Lemma int_add_nat (a b : nat) :
  (Z.of_nat a + Z.of_nat b ≤ 2147483647)%Z →
  int_add (Z.of_nat a) (Z.of_nat b) = Ret (Z.of_nat (a + b)).
Proof.
  intros H. unfold int_add, INT_MIN, INT_MAX.
  rewrite decide_True by lia. by rewrite Nat2Z.inj_add.
Qed.

Lemma quot_nat (a : nat) : (Z.of_nat a `quot` 2)%Z = Z.of_nat (a `div` 2).
Proof. rewrite Z.quot_div_nonneg by lia. by rewrite Nat2Z.inj_div. Qed.

Lemma vector_at_nat {A} (v : list A) (i : nat) x :
  v !! i = Some x → vector_at v (Z.of_nat i) = Ret x.
Proof.
  intros H. unfold vector_at. rewrite decide_True by lia. by rewrite Nat2Z.id, H.
Qed.

Lemma int_of_size_t_nat (n : nat) :
  (Z.of_nat n ≤ 1073741824)%Z → int_of_size_t n = Z.of_nat n.
Proof.
  intros H. unfold int_of_size_t, INT_MAX.
  change (2 ^ 32)%Z with 4294967296%Z.
  rewrite Z.mod_small by lia. rewrite decide_True; lia.
Qed.

Lemma sorted_lookup op nodes i j y x :
  StronglySorted (lt op) nodes.*1 → i < j →
  nodes !! i = Some y → nodes !! j = Some x → op y.1 x.1 = true.
Proof.
  intros Hs Hij Hi Hj.
  rewrite <- (take_drop_middle nodes j x Hj), fmap_app, fmap_cons in Hs.
  apply (StronglySorted_app_1_elem_of _ _ _ y.1 x.1) in Hs; [done| |by left].
  apply list_elem_of_fmap. exists y. split; [done|].
  apply list_elem_of_lookup. exists i. rewrite lookup_take_lt by done. done.
Qed.

Lemma segment_split nodes (start mid end_ : nat) x :
  start ≤ mid → mid < end_ → nodes !! mid = Some x →
  take (end_ - start) (drop start nodes)
  = take (mid - start) (drop start nodes) ++ x :: take (end_ - S mid) (drop (S mid) nodes).
Proof.
  intros H1 H2 Hx.
  assert (Hd : drop start nodes
               = take (mid - start) (drop start nodes) ++ x :: drop (S mid) nodes).
  { rewrite <- (take_drop (mid - start) (drop start nodes)) at 1. f_equal.
    rewrite drop_drop. replace (start + (mid - start)) with mid by lia.
    by apply drop_S. }
  rewrite Hd at 1.
  assert (Hl : length (take (mid - start) (drop start nodes)) = mid - start).
  { apply lookup_lt_Some in Hx. rewrite length_take, length_drop. lia. }
  rewrite take_app_ge by lia. rewrite Hl.
  replace (end_ - start - (mid - start)) with (S (end_ - S mid)) by lia. done.
Qed.

Lemma height_shape t : height t = sheight (shape_of t).
Proof. induction t; simpl; [done|]. lia. Qed.

(** The recursion of [_balance] fills the hole of the tree with the
    entries of the range, median first. *)
Lemma balance_loop_owns op key_eq nodes :
  strict_weak_order op → eq_operator key_eq →
  StronglySorted (lt op) nodes.*1 → (Z.of_nat (length nodes) ≤ 1073741824)%Z →
  ∀ fuel s fs (start end_ : nat),
    bst_repr s (plug fs Leaf) →
    end_ ≤ length nodes →
    (∀ i x, start ≤ i < end_ → nodes !! i = Some x → Forall (frame_side op x.1) fs) →
    length (locs (plug fs Leaf)) + 2 * (end_ - start) + 1 ≤ fuel →
    ∃ s' u,
      _balance op key_eq fuel s nodes (Z.of_nat start) (Z.of_nat end_) = Ret s'
      ∧ bst_repr s' (plug fs u)
      ∧ inorder u = take (end_ - start) (drop start nodes)
      ∧ ∀ n, end_ - start ≤ n → shape_of u = median_first n nodes start end_.
Proof.
  intros Hswo Heq Hsorted Hlen.
  induction fuel as [|fuel IH]; intros s fs start end_ Hrep Hend Hside Hf; [lia|].
  cbn [_balance]. destruct (decide (Z.of_nat start < Z.of_nat end_)%Z) as [Hlt|Hge].
  2:{ exists s, Leaf. replace (end_ - start) with 0 by lia. split_and!; try done.
      intros [|n] _; simpl; [done|]. rewrite decide_False by lia. done. }
  assert (Hse : start < end_) by lia.
  set (mid := (start + end_) `div` 2).
  assert (Hmid : start ≤ mid < end_).
  { subst mid. split; [apply Nat.div_le_lower_bound|apply Nat.Div0.div_lt_upper_bound]; lia. }
  destruct (lookup_lt_is_Some_2 nodes mid ltac:(lia)) as [x Hx].
  rewrite int_add_nat by lia. cbn [mbind result_bind]. rewrite quot_nat. fold mid.
  rewrite (vector_at_nat _ _ _ Hx). cbn [mbind result_bind].
  (* the median goes into the hole *)
  pose proof (height_le_size (plug fs Leaf)) as Hh.
  pose proof (insert_owns op key_eq s _ x fuel (op_asym' op Hswo) Hrep ltac:(lia)) as Hins.
  assert (Hsx : Forall (frame_side op x.1) fs) by (apply (Hside mid); [lia|done]).
  rewrite (tfind_plug op key_eq fs Leaf x.1 Hswo Heq Hsx) in Hins. simpl in Hins.
  rewrite (tinsert_plug op fs Leaf _ x Hswo Hsx) in Hins. simpl in Hins.
  destruct Hins as (s1 & Hs1 & Hrep1). unfold insert. rewrite Hs1. cbn [mbind result_bind].
  set (b := fresh (dom (mem s))) in *.
  (* the left half *)
  destruct (IH s1 (FL b x Leaf :: fs) start mid) as (s2 & uL & Hs2 & Hrep2 & HiL & HshL).
  { done. }
  { lia. }
  { intros i y Hi Hy. constructor; [|apply (Hside i); [lia|done]].
    simpl. eapply sorted_lookup; [done| |done|done]. lia. }
  { pose proof (locs_plug_perm fs (Node Leaf b x Leaf)) as Hp.
    pose proof (locs_plug_perm fs (@Leaf K V)) as Hp0.
    apply Permutation_length in Hp, Hp0. simpl in *. rewrite Hp. rewrite Hp0 in Hf.
    simpl in *. lia. }
  rewrite Hs2. cbn [mbind result_bind].
  assert (HlenL : length (locs uL) = mid - start).
  { rewrite <- length_inorder, HiL, length_take, length_drop. lia. }
  (* the right half *)
  change (int_add (Z.of_nat mid) 1) with (int_add (Z.of_nat mid) (Z.of_nat 1)).
  rewrite int_add_nat by lia. cbn [mbind result_bind].
  replace (mid + 1) with (S mid) by lia.
  destruct (IH s2 (FR uL b x :: fs) (S mid) end_) as (s3 & uR & Hs3 & Hrep3 & HiR & HshR).
  { done. }
  { lia. }
  { intros i y Hi Hy. constructor; [|apply (Hside i); [lia|done]].
    simpl. eapply sorted_lookup; [done| |done|done]. lia. }
  { pose proof (locs_plug_perm fs (Node uL b x Leaf)) as Hp.
    pose proof (locs_plug_perm fs (@Leaf K V)) as Hp0.
    apply Permutation_length in Hp, Hp0. simpl in *. rewrite Hp. rewrite Hp0 in Hf.
    simpl in *. rewrite !length_app. simpl. lia. }
  rewrite Hs3. exists s3, (Node uL b x uR). split_and!; [done|done| |].
  - simpl. rewrite HiL, HiR. symmetry. apply segment_split; [lia|lia|done].
  - intros [|n] Hn; [lia|]. cbn [median_first shape_of].
    rewrite decide_True by lia. fold mid. rewrite Hx.
    rewrite (HshL n), (HshR n) by lia. done.
Qed.

Lemma bind_assoc_ret {A B C} (m : result A) (f : A → result B) (k : B → result C) v :
  (a ← m; f a) = Ret v → (a ← m; b ← f a; k b) = k v.
Proof. destruct m as [a| |]; simpl; [|done|done]. by intros ->. Qed.

Lemma median_first_height nodes n :
  ∀ c start end_, end_ - start < 2 ^ c → sheight (median_first n nodes start end_) ≤ c.
Proof.
  induction n as [|n IH]; intros c start end_ Hc; cbn [median_first]; [simpl; lia|].
  destruct (decide (start < end_)) as [Hlt|]; [|simpl; lia].
  set (mid := (start + end_) `div` 2).
  destruct (nodes !! mid) as [x|]; [|simpl; lia].
  pose proof (Nat.div_mod_eq (start + end_) 2) as Hd. fold mid in Hd.
  pose proof (Nat.mod_upper_bound (start + end_) 2 ltac:(lia)) as Hm.
  destruct c as [|c]; [simpl in Hc; lia|].
  rewrite Nat.pow_succ_r' in Hc.
  cbn [sheight].
  pose proof (IH c start mid ltac:(lia)). pose proof (IH c (S mid) end_ ltac:(lia)). lia.
Qed.

Lemma size_lt_pow n : n < 2 ^ Nat.log2_up (n + 1).
Proof.
  destruct n as [|n]; [simpl; lia|].
  pose proof (Nat.log2_up_spec (S n + 1) ltac:(lia)). lia.
Qed.

(** [balance]: the entries are collected in order, the tree is emptied and
    rebuilt median first. *)
Lemma balance_owns op key_eq s t fuel :
  strict_weak_order op → eq_operator key_eq →
  bst_repr s t → ordered op t →
  (Z.of_nat (length (inorder t)) ≤ 1073741824)%Z →
  2 * length (inorder t) + 2 ≤ fuel →
  ∃ s' t', balance op key_eq fuel s = Ret s' ∧ bst_repr s' t'
           ∧ inorder t' = inorder t
           ∧ shape_of t' = median_first (length (inorder t)) (inorder t)
                                        0 (length (inorder t)).
Proof.
  intros Hswo Heq Hrep Hord Hn Hf.
  pose proof (height_le_size t) as Hh. pose proof (length_inorder t) as Hl.
  pose proof (traversal_owns s t fuel (λ acc i, acc ++ [i]) [] Hrep ltac:(lia)) as Htr.
  rewrite foldl_snoc, app_nil_l in Htr.
  destruct (clear_owns s t fuel Hrep ltac:(lia)) as (s1 & Hcl & Hrep1 & _).
  unfold balance. rewrite (bind_assoc_ret _ _ _ _ Htr). rewrite Hcl. cbn [mbind result_bind].
  rewrite int_of_size_t_nat by done.
  destruct (balance_loop_owns op key_eq (inorder t) Hswo Heq (ordered_sorted op t Hswo Hord) Hn
              fuel s1 [] 0 (length (inorder t))) as (s' & u & Hb & Hrep' & Hin & Hsh).
  { done. }
  { done. }
  { constructor. }
  { simpl. lia. }
  exists s', u. simpl in Hrep'. split_and!; [done|done| |].
  - rewrite Hin, Nat.sub_0_r, drop_0. by rewrite firstn_all.
  - apply Hsh. lia.
Qed.


(** What [balance] does to a tree: the same entries in the same order,
    in the shape of the median-first recursion, whose height is
    logarithmic. *)
Lemma balance_spec op key_eq s t fuel :
  strict_weak_order op → eq_operator key_eq →
  bst_repr s t → ordered op t →
  (Z.of_nat (length (inorder t)) ≤ 2 ^ 30)%Z →
  2 * length (inorder t) + 2 ≤ fuel →
  ∃ s' t', balance op key_eq fuel s = Ret s' ∧ bst_repr s' t' ∧ ordered op t'
           ∧ inorder t' = inorder t
           ∧ shape_of t' = median_first (length (inorder t)) (inorder t)
                                        0 (length (inorder t))
           ∧ height t' ≤ Nat.log2_up (length (inorder t) + 1).
Proof.
  intros Hswo Heq Hrep Hord Hn Hf.
  change (2 ^ 30)%Z with 1073741824%Z in Hn.
  destruct (balance_owns op key_eq s t fuel Hswo Heq Hrep Hord Hn Hf)
    as (s' & t' & Hb & Hrep' & Hin & Hsh).
  exists s', t'. split_and!; try done.
  - apply sorted_ordered. unfold keys. rewrite Hin. by apply ordered_sorted.
  - rewrite height_shape, Hsh. apply median_first_height.
    rewrite Nat.sub_0_r. apply size_lt_pow.
Qed.

End balancing.

(** * Keys of type [int] *)

Lemma int_less_swo : strict_weak_order int_less.
Proof.
  unfold int_less. split; intros *; rewrite ?Z.ltb_lt, ?Z.ltb_ge; lia.
Qed.

Lemma int_eq_operator : eq_operator int_eq.
Proof. intros a b. apply Z.eqb_eq. Qed.

Lemma int_less_total : total_order int_less.
Proof. unfold int_less. intros a b Hne. rewrite !Z.ltb_lt. lia. Qed.

Lemma half_less_swo : strict_weak_order half_less.
Proof.
  unfold half_less. split; intros *; rewrite ?Z.ltb_lt, ?Z.ltb_ge; lia.
Qed.

Lemma one_entry_repr : bst_repr one_entry one_entry_tree.
Proof. split_and!; simpl; try done. apply NoDup_singleton. Qed.

Lemma three_entries_repr : bst_repr three_entries three_entries_tree.
Proof.
  split_and!; simpl; try done. apply (bool_decide_unpack _). by vm_compute.
Qed.

Lemma three_entries_ordered : ordered int_less three_entries_tree.
Proof. simpl. unfold keys. simpl. repeat constructor. Qed.

Example three_entries_built :
  insert_all int_less int_eq 3 empty_bst [(5, 50); (3, 30); (8, 80)]%Z = Ret three_entries.
Proof. vm_compute. reflexivity. Qed.

(** * The operations on whole trees *)

Section whole_tree.
Context {K V : Type}.
Implicit Types (op key_eq : K → K → bool).
Implicit Types (t u l r : @tree K V) (fs : list (@frame K V)) (h : gmap loc (node_t K V)).
Implicit Types (s : bst K V).

Lemma owns_parent_consistent h par t :
  owns h par t →
  ∀ a nd c, a ∈ locs t → h !! a = Some nd →
    left nd = Some c ∨ right nd = Some c →
    ∃ ndc, h !! c = Some ndc ∧ parent ndc = Some a.
Proof.
  revert par. induction t as [|l IHl b e r IHr]; intros par; simpl; [set_solver|].
  intros (Hb & Hl & Hr) a nd c Ha Hnd Hc.
  apply elem_of_app in Ha as [Ha|[->|Ha]%elem_of_cons].
  - by apply (IHl _ Hl a nd c).
  - rewrite Hb in Hnd. injection Hnd as <-. simpl in Hc. destruct Hc as [Hc|Hc].
    + destruct l as [|ll cl el rl]; simpl in *; [done|]. injection Hc as ->.
      destruct Hl as (Hcl & _). eexists. split; [exact Hcl|done].
    + destruct r as [|lr cr er rr]; simpl in *; [done|]. injection Hc as ->.
      destruct Hr as (Hcr & _). eexists. split; [exact Hcr|done].
  - by apply (IHr _ Hr a nd c).
Qed.

Lemma repr_parent_consistent s t : bst_repr s t → parent_consistent s t.
Proof.
  intros (Hroot & Hown & _). split.
  - intros a nd Ha Hnd. rewrite Hroot in Ha.
    destruct t as [|l b e r]; simpl in *; [done|]. injection Ha as ->.
    destruct Hown as (Hb & _). rewrite Hb in Hnd. by injection Hnd as <-.
  - by apply (owns_parent_consistent _ None).
Qed.

(** C1: [erase] of a key the tree holds removes the entry of that key and
    no other, leaves the other entries as they were and in the same
    order, and the tree it leaves satisfies the BST-ordering and the
    parent-consistency invariants; whichever of the three cases the node
    falls in. *)
Theorem erase_removes_entry op key_eq s t k v fuel :
  strict_weak_order op → eq_operator key_eq →
  bst_repr s t → ordered op t →
  (k, v) ∈ inorder t →
  height t + 2 ≤ fuel →
  ∃ s' t' pre post,
    erase op key_eq fuel s k = Ret s'
    ∧ bst_repr s' t' ∧ parent_consistent s' t' ∧ ordered op t'
    ∧ inorder t = pre ++ (k, v) :: post
    ∧ inorder t' = pre ++ post
    ∧ k ∉ keys t'.
Proof.
  intros Hswo Heq Hrep Hord Hin Hf.
  destruct (erase_owns op key_eq s t k v fuel Hswo Heq Hrep Hord Hin Hf)
    as (s' & t' & pre & post & He & Hrep' & Hord' & Hi & Hi' & Hk).
  exists s', t', pre, post. split_and!; try done. by apply repr_parent_consistent.
Qed.

(** One step of the loop of [_find] at a node whose key is neither less
    nor greater than the searched key. *)
Lemma find_at_equivalent_key op key_eq fuel h a nd k :
  h !! a = Some nd →
  op k (value nd).1 = false → op (value nd).1 k = false →
  _find_loop op key_eq (S fuel) h (Some a) k
  = Ret (if key_eq (value nd).1 k then Some a else None).
Proof.
  intros Ha H1 H2. simpl. unfold deref. rewrite Ha. simpl. rewrite H1, H2.
  by destruct (key_eq _ _).
Qed.

Lemma visits_tfind op key_eq k t u :
  visits op key_eq k t u → tfind op key_eq t k = tfind op key_eq u k.
Proof.
  induction 1 as [t|l a e r u He Hl _ IH|l a e r u He Hl Hr _ IH]; [done|..]; simpl.
  - by rewrite He, Hl.
  - by rewrite He, Hl, Hr.
Qed.

Lemma visits_plug op key_eq k t u :
  visits op key_eq k t u → ∃ fs, t = plug fs u.
Proof.
  induction 1 as [t|l a e r u _ _ _ [fs ->]|l a e r u _ _ _ _ [fs ->]].
  - by exists [].
  - exists (fs ++ [FL a e r]). by rewrite plug_app.
  - exists (fs ++ [FR l a e]). by rewrite plug_app.
Qed.

(** The descent always ends: at an absent child, at a node whose key is
    [==] to the searched key, or at a node whose key is neither [==] to,
    nor before, nor after it. *)
Lemma visits_ends op key_eq k t :
  ∃ u, visits op key_eq k t u
       ∧ match u with
         | Leaf => True
         | Node _ _ e _ =>
           key_eq e.1 k = true
           ∨ (key_eq e.1 k = false ∧ op k e.1 = false ∧ op e.1 k = false)
         end.
Proof.
  induction t as [|l [ul [Hl Hul]] a e r [ur [Hr Hur]]].
  { exists Leaf. split; [constructor|done]. }
  destruct (key_eq e.1 k) eqn:He.
  { exists (Node l a e r). split; [constructor|]. by left. }
  destruct (op k e.1) eqn:H1.
  { exists ul. split; [by apply visits_left|done]. }
  destruct (op e.1 k) eqn:H2.
  { exists ur. split; [by apply visits_right|done]. }
  exists (Node l a e r). split; [constructor|]. by right.
Qed.

(** C3, amended: [find] descends from the root, at every node it visits
    testing [operator==] first and then the comparator, to the left when
    the searched key is before the key of the node and to the right when
    it is after.  At the subtree the descent has reached: an absent
    child gives the end of the tree; a node whose key is [==] to the
    searched key is returned, and it is the node of that entry; a node
    whose key is neither [==] to, nor before, nor after the searched key
    gives the end of the tree. *)
Theorem find_descent_rule op key_eq s t k u fuel :
  bst_repr s t → height t ≤ fuel →
  visits op key_eq k t u →
  match u with
  | Leaf => find op key_eq fuel s k = Ret None
  | Node _ a e _ =>
    (key_eq e.1 k = true →
       find op key_eq fuel s k = Ret (Some a)
       ∧ ∃ nd, mem s !! a = Some nd ∧ value nd = e)
    ∧ (key_eq e.1 k = false → op k e.1 = false → op e.1 k = false →
       find op key_eq fuel s k = Ret None)
  end.
Proof.
  intros Hrep Hf Hv. unfold find.
  rewrite (find_owns op key_eq s t k fuel Hrep Hf), (visits_tfind op key_eq k t u Hv).
  destruct u as [|l a e r]; [done|]. simpl. split.
  - intros He. rewrite He. split; [done|].
    destruct (visits_plug op key_eq k t _ Hv) as [fs ->].
    destruct Hrep as (_ & [(Ha & _) _]%owns_plug & _).
    eexists. split; [exact Ha|done].
  - intros He H1 H2. by rewrite He, H1, H2.
Qed.

(** Whatever node [find] returns, its key is [==] to the searched key. *)
Lemma find_loop_key_eq op key_eq fuel h tmp k a :
  _find_loop op key_eq fuel h tmp k = Ret (Some a) →
  ∃ nd, h !! a = Some nd ∧ key_eq (value nd).1 k = true.
Proof.
  revert tmp. induction fuel as [|fuel IH]; intros [b|]; simpl; try done.
  unfold deref. destruct (h !! b) as [nd|] eqn:Hb; simpl; [|done].
  destruct (key_eq (value nd).1 k) eqn:Hk.
  { intros [= <-]. eauto. }
  destruct (op k _); [apply IH|]. destruct (op _ k); [apply IH|done].
Qed.

(** C5: [balance] leaves the entries what they were, and the tree it
    builds, median first on each half of the sorted entries, is at most
    [ceil (log2 (n + 1))] high, whatever the shape before; [n], the number
    of entries, is within the range the [int] indices of [_balance] add up
    in. *)
Theorem balance_keeps_entries_log_height op key_eq s t fuel :
  strict_weak_order op → eq_operator key_eq →
  bst_repr s t → ordered op t →
  (Z.of_nat (length (inorder t)) ≤ 2 ^ 30)%Z →
  2 * length (inorder t) + 2 ≤ fuel →
  ∃ s' t', balance op key_eq fuel s = Ret s' ∧ bst_repr s' t' ∧ ordered op t'
           ∧ inorder t' = inorder t
           ∧ shape_of t' = median_first (length (inorder t)) (inorder t)
                                        0 (length (inorder t))
           ∧ height t' ≤ Nat.log2_up (length (inorder t) + 1).
Proof. apply balance_spec. Qed.

(** C10: a second [balance] builds a tree with the entries and the shape
    of the tree the first one built. *)
Theorem balance_twice_same_tree op key_eq s t fuel :
  strict_weak_order op → eq_operator key_eq →
  bst_repr s t → ordered op t →
  (Z.of_nat (length (inorder t)) ≤ 2 ^ 30)%Z →
  2 * length (inorder t) + 2 ≤ fuel →
  ∃ s1 t1 s2 t2,
    balance op key_eq fuel s = Ret s1 ∧ bst_repr s1 t1
    ∧ balance op key_eq fuel s1 = Ret s2 ∧ bst_repr s2 t2
    ∧ inorder t2 = inorder t1
    ∧ shape_of t2 = shape_of t1.
Proof.
  intros Hswo Heq Hrep Hord Hn Hf.
  destruct (balance_spec op key_eq s t fuel Hswo Heq Hrep Hord Hn Hf)
    as (s1 & t1 & Hb1 & Hrep1 & Hord1 & Hin1 & Hsh1 & _).
  destruct (balance_spec op key_eq s1 t1 fuel Hswo Heq Hrep1 Hord1)
    as (s2 & t2 & Hb2 & Hrep2 & _ & Hin2 & Hsh2 & _); [by rewrite Hin1..|].
  exists s1, t1, s2, t2. split_and!; try done.
  by rewrite Hsh2, Hin1.
Qed.

(** C9: [emplace] returns the same iterator and flag, and leaves the same
    tree, as the construction of the entry from the arguments followed by
    [insert]. *)
Theorem emplace_is_insert op key_eq fuel s (args : emplace_args K V) :
  emplace op key_eq fuel s args = construct_then_insert op key_eq fuel s args.
Proof. by destruct args. Qed.

Lemma string_app_assoc (a b c : string) : (a +:+ b) +:+ c = a +:+ (b +:+ c).
Proof.
  induction a as [|x a IH]; [done|].
  change (String x ((a +:+ b) +:+ c) = String x (a +:+ b +:+ c)). by f_equal.
Qed.

Lemma foldl_print (show : K → string) (es : list (K * V)) os :
  foldl (λ os i, os +:+ show i.1 +:+ " ") os es = os +:+ keys_spaced show es.*1.
Proof.
  revert os. induction es as [|e es IH]; intros os.
  - simpl. induction os as [|x os IHos]; [done|].
    change (String x os = String x (os +:+ EmptyString)). by f_equal.
  - cbn [foldl]. rewrite IH, fmap_cons. unfold keys_spaced. cbn [foldr].
    by rewrite !string_app_assoc.
Qed.

(** C7, amended: [operator<<] writes the keys in ascending order of the
    comparator, every key followed by a single space, the last one
    included, and writes no value. *)
Theorem stream_output op (show : K → string) s t os fuel :
  strict_weak_order op →
  bst_repr s t → ordered op t →
  S (length (locs t) + height t) ≤ fuel →
  operator_shl show fuel os s = Ret (os +:+ keys_spaced show (keys t))
  ∧ StronglySorted (lt op) (keys t).
Proof.
  intros Hswo Hrep Hord Hf. split; [|by apply ordered_sorted].
  unfold operator_shl. rewrite (traversal_owns s t fuel _ os Hrep Hf).
  by rewrite foldl_print.
Qed.

(** A self-assignment leaves the object empty. *)
Lemma self_assign_owns (w : world K V) o (p : option loc) t fuel :
  w_root w !! o = Some p →
  bst_repr (mk_bst (w_mem w) p) t → height t ≤ fuel →
  ∃ w', operator_assign fuel w o o = Ret w' ∧ object w' o = Ret (mk_bst (w_mem w') None).
Proof.
  intros Ho (Hroot & Hown & Hnd) Hf. simpl in *.
  destruct (destroy_owns _ _ _ _ Hown Hnd Hf) as (h' & Hd & _).
  unfold operator_assign, root_of. rewrite Ho. simpl. rewrite Hroot, Hd. simpl.
  rewrite lookup_insert_eq. simpl.
  assert (Hn : destroy fuel h' None = Ret h') by (by destruct fuel).
  rewrite Hn. simpl. eexists. split; [done|].
  unfold object, root_of. simpl. by rewrite lookup_insert_eq.
Qed.

End whole_tree.


(** C3 as it is worded fails: under [half_less] the keys 2 and 3 are
    equivalent, and [find] of 3 in the tree that holds 2 returns the end
    of the tree, since [2 == 3] is false. *)
Lemma find_uses_equality : ¬ comparator_only_find (V:=Z) half_less int_eq.
Proof.
  intros H.
  specialize (H 0 (mem one_entry) 1%positive _ 3%Z eq_refl eq_refl eq_refl).
  vm_compute in H. discriminate.
Qed.

Lemma find_descent_rule_witness :
  (int_eq (8, 80)%Z.1 8%Z = true →
     find int_less int_eq 2 three_entries 8%Z = Ret (Some 3%positive)
     ∧ ∃ nd, mem three_entries !! 3%positive = Some nd ∧ value nd = (8, 80)%Z)
  ∧ (int_eq (8, 80)%Z.1 8%Z = false →
     int_less 8%Z (8, 80)%Z.1 = false → int_less (8, 80)%Z.1 8%Z = false →
     find int_less int_eq 2 three_entries 8%Z = Ret None).
Proof.
  apply (find_descent_rule int_less int_eq three_entries three_entries_tree 8%Z
           (Node Leaf 3%positive (8, 80)%Z Leaf) 2).
  - exact three_entries_repr.
  - simpl. lia.
  - apply visits_right; [reflexivity..|]. apply visits_root.
Defined.

(** C6: [half_less] is a strict weak ordering, the tree [one_entry] is
    what [insert] builds from the entry [(2, 0)], and on it [insert] of
    an entry of key 3 returns under no bound of its number of steps: the
    loop stays at the node of key 2. *)
Theorem insert_never_returns :
  strict_weak_order half_less
  ∧ insert half_less int_eq 1 empty_bst (2, 0)%Z = Ret (one_entry, (Some 1%positive, true))
  ∧ ∀ fuel v, insert half_less int_eq fuel one_entry (3, v)%Z = Timeout.
Proof.
  split; [exact half_less_swo|]. split; [by vm_compute|].
  intros fuel v.
  pose proof (insert_owns half_less int_eq one_entry one_entry_tree (3, v)%Z 1
                (op_asym' half_less half_less_swo) one_entry_repr
                ltac:(unfold one_entry_tree; simpl; lia)) as H.
  simpl in H. apply H.
Qed.

(** C7 as it is worded fails: for the tree of the one key 2 the output
    is the key and a space, not the key alone. *)
Lemma stream_output_trailing_space :
  ¬ (∀ fuel (s : bst Z Z) t, bst_repr s t → S (length (locs t) + height t) ≤ fuel →
       operator_shl pretty fuel EmptyString s = Ret (keys_separated pretty (keys t))).
Proof.
  intros H.
  specialize (H 3 one_entry one_entry_tree one_entry_repr
                ltac:(unfold one_entry_tree; simpl; lia)).
  vm_compute in H. discriminate.
Qed.

(** C8: the traversal of the object that holds [one_entry] meets the
    entry [(2, 0)]; after the assignment of the object to itself it meets
    nothing. *)
Theorem self_assignment_empties :
  (t ← object one_object 1%positive; entries 2 t) = Ret [(2, 0)%Z]
  ∧ (w ← operator_assign 2 one_object 1%positive 1%positive;
     t ← object w 1%positive; entries 2 t) = Ret [].
Proof. split; by vm_compute. Qed.

(** ** The statements above at concrete trees *)

Lemma erase_removes_entry_witness :
  ∃ s' t' pre post,
    erase int_less int_eq 4 three_entries 5%Z = Ret s'
    ∧ bst_repr s' t' ∧ parent_consistent s' t' ∧ ordered int_less t'
    ∧ inorder three_entries_tree = pre ++ (5, 50)%Z :: post
    ∧ inorder t' = pre ++ post
    ∧ 5%Z ∉ keys t'.
Proof.
  apply (erase_removes_entry int_less int_eq three_entries three_entries_tree 5%Z 50%Z 4).
  - exact int_less_swo.
  - exact int_eq_operator.
  - exact three_entries_repr.
  - exact three_entries_ordered.
  - simpl. apply list_elem_of_further, list_elem_of_here.
  - simpl. lia.
Defined.

Lemma insert_sequence_ordered_witness :
  (∀ fuel s,
     insert_all int_less int_eq fuel empty_bst [(5, 50); (3, 30); (8, 80)]%Z = Ret s →
     ∃ t, bst_repr s t ∧ ordered int_less t
          ∧ StronglySorted (lt int_less) (keys t)
          ∧ ∀ n, S (length (locs t) + height t) ≤ n → entries n s = Ret (inorder t))
  ∧ (eq_operator int_eq → total_order int_less →
     ∀ fuel, length [(5, 50); (3, 30); (8, 80)]%Z ≤ fuel →
       ∃ s, insert_all int_less int_eq fuel empty_bst [(5, 50); (3, 30); (8, 80)]%Z = Ret s).
Proof.
  apply (insert_sequence_ordered int_less int_eq [(5, 50); (3, 30); (8, 80)]%Z).
  exact int_less_swo.
Defined.

Lemma insert_present_witness :
  ∃ a nd, insert int_less int_eq 2 three_entries (3, 99)%Z
          = Ret (three_entries, (Some a, false))
          ∧ mem three_entries !! a = Some nd ∧ value nd = (3, 30)%Z.
Proof.
  apply (insert_present int_less int_eq three_entries three_entries_tree 3%Z 30%Z 99%Z 2).
  - exact int_less_swo.
  - exact int_eq_operator.
  - exact three_entries_repr.
  - exact three_entries_ordered.
  - simpl. apply list_elem_of_here.
  - simpl. lia.
Defined.

Lemma balance_keeps_entries_log_height_witness :
  ∃ s' t', balance int_less int_eq 8 three_entries = Ret s' ∧ bst_repr s' t'
           ∧ ordered int_less t'
           ∧ inorder t' = inorder three_entries_tree
           ∧ shape_of t' = median_first (length (inorder three_entries_tree))
                             (inorder three_entries_tree)
                             0 (length (inorder three_entries_tree))
           ∧ height t' ≤ Nat.log2_up (length (inorder three_entries_tree) + 1).
Proof.
  apply (balance_keeps_entries_log_height int_less int_eq three_entries three_entries_tree 8).
  - exact int_less_swo.
  - exact int_eq_operator.
  - exact three_entries_repr.
  - exact three_entries_ordered.
  - simpl. lia.
  - simpl. lia.
Defined.

Lemma stream_output_witness :
  operator_shl pretty 4 EmptyString one_entry
  = Ret (EmptyString +:+ keys_spaced pretty (keys one_entry_tree))
  ∧ StronglySorted (lt int_less) (keys one_entry_tree).
Proof.
  apply (stream_output int_less pretty one_entry one_entry_tree EmptyString 4).
  - exact int_less_swo.
  - exact one_entry_repr.
  - simpl. unfold keys. simpl. repeat constructor.
  - simpl. lia.
Defined.

Lemma balance_twice_same_tree_witness :
  ∃ s1 t1 s2 t2,
    balance int_less int_eq 8 three_entries = Ret s1 ∧ bst_repr s1 t1
    ∧ balance int_less int_eq 8 s1 = Ret s2 ∧ bst_repr s2 t2
    ∧ inorder t2 = inorder t1
    ∧ shape_of t2 = shape_of t1.
Proof.
  apply (balance_twice_same_tree int_less int_eq three_entries three_entries_tree 8).
  - exact int_less_swo.
  - exact int_eq_operator.
  - exact three_entries_repr.
  - exact three_entries_ordered.
  - simpl. lia.
  - simpl. lia.
Defined.

(** * Further properties of the operations *)

(** ** [find] and [insert] *)

Section lookups.
Context {K V : Type}.
Implicit Types (op key_eq : K → K → bool).
Implicit Types (t u l r : @tree K V) (fs : list (@frame K V)) (h : gmap loc (node_t K V)).
Implicit Types (s : bst K V).

Lemma tfind_Some_key op key_eq t k a :
  eq_operator key_eq → tfind op key_eq t k = Some a → k ∈ keys t.
Proof.
  intros Heq. unfold keys.
  induction t as [|l IHl b e r IHr]; simpl; [done|].
  rewrite fmap_app, fmap_cons, elem_of_app, elem_of_cons.
  destruct (key_eq e.1 k) eqn:Hk.
  { apply Heq in Hk. auto. }
  destruct (op k e.1); [auto|]. destruct (op e.1 k); [auto|done].
Qed.

Lemma tfind_absent op key_eq t k :
  eq_operator key_eq → k ∉ keys t → tfind op key_eq t k = None.
Proof.
  intros Heq Hk. destruct (tfind op key_eq t k) as [a|] eqn:Hf; [|done].
  by apply tfind_Some_key in Hf.
Qed.

Lemma node_of_entry s t e :
  bst_repr s t → e ∈ inorder t →
  ∃ fs l n r nd, t = plug fs (Node l n e r) ∧ mem s !! n = Some nd ∧ value nd = e
                 ∧ left nd = root_loc l ∧ right nd = root_loc r.
Proof.
  intros Hrep Hin.
  destruct (elem_of_inorder_plug _ _ Hin) as (fs & l & n & r & ->).
  destruct Hrep as (_ & [(Hn & _) _]%owns_plug & _).
  exists fs, l, n, r. eexists. split_and!; [done|exact Hn|done..].
Qed.

Lemma find_node op key_eq s t k v fuel :
  strict_weak_order op → eq_operator key_eq →
  bst_repr s t → ordered op t →
  (k, v) ∈ inorder t →
  height t ≤ fuel →
  ∃ a nd, find op key_eq fuel s k = Ret (Some a)
          ∧ mem s !! a = Some nd ∧ value nd = (k, v).
Proof.
  intros Hswo Heq Hrep Hord Hin Hf.
  destruct (node_of_entry s t _ Hrep Hin) as (fs & l & n & r & nd & -> & Hn & Hv & _).
  exists n, nd. split_and!; [|done..].
  unfold find. rewrite (find_owns op key_eq s _ k fuel Hrep Hf).
  f_equal. apply (tfind_node op key_eq fs l n (k, v) r Hswo Heq Hord).
Qed.

Lemma find_none op key_eq s t k fuel :
  eq_operator key_eq →
  bst_repr s t →
  k ∉ keys t →
  height t ≤ fuel →
  find op key_eq fuel s k = Ret None.
Proof.
  intros Heq Hrep Hk Hf. unfold find.
  rewrite (find_owns op key_eq s t k fuel Hrep Hf). f_equal. by apply tfind_absent.
Qed.

Lemma height_plug_grow fs u u' :
  height u' ≤ S (height u) → height (plug fs u') ≤ S (height (plug fs u)).
Proof.
  revert u u'. induction fs as [|f fs IH]; intros u u' H; simpl; [done|].
  apply IH. destruct f; simpl; lia.
Qed.

Lemma insert_new op key_eq s t k v fuel :
  strict_weak_order op → eq_operator key_eq → total_order op →
  bst_repr s t → ordered op t →
  k ∉ keys t →
  height t ≤ fuel →
  ∃ s' t' b nd pre post,
    insert op key_eq fuel s (k, v) = Ret (s', (Some b, true))
    ∧ bst_repr s' t' ∧ ordered op t'
    ∧ inorder t = pre ++ post ∧ inorder t' = pre ++ (k, v) :: post
    ∧ mem s !! b = None ∧ mem s' !! b = Some nd ∧ value nd = (k, v)
    ∧ left nd = None ∧ right nd = None
    ∧ height t' ≤ S (height t).
Proof.
  intros Hswo Heq Htot Hrep Hord Hk Hf.
  pose proof (insert_owns op key_eq s t (k, v) fuel (op_asym' op Hswo) Hrep Hf) as Hspec.
  pose proof (tfind_absent op key_eq t k Heq Hk) as Hnone.
  simpl in Hspec. rewrite Hnone in Hspec.
  destruct (tinsert_total op key_eq t (fresh (dom (mem s))) (k, v) Hswo Heq Htot Hnone)
    as [t' Ht'].
  rewrite Ht' in Hspec. destruct Hspec as (s' & Hins & Hrep').
  destruct (tinsert_inorder op t _ _ t' Ht') as (pre & post & Hi & Hi' & _).
  destruct (tinsert_inv op t _ _ t' Ht') as (fs & -> & -> & _).
  pose proof Hrep' as (_ & [(Hb & _) _]%owns_plug & _). simpl in Hb.
  exists s', (plug fs (Node Leaf (fresh (dom (mem s))) (k, v) Leaf)),
    (fresh (dom (mem s))). eexists. exists pre, post.
  split_and!; [done|done| |done|done| |exact Hb|done|done|done|].
  - by eapply tinsert_ordered.
  - apply (not_elem_of_dom (D:=gset loc)). apply is_fresh.
  - apply height_plug_grow. simpl. lia.
Qed.

(** X4: After [insert] of an entry of a new key, [find] of the key returns the
    iterator [insert] returned, and the node holds the entry. *)
Theorem insert_then_find op key_eq s t k v fuel :
  strict_weak_order op → eq_operator key_eq → total_order op →
  bst_repr s t → ordered op t →
  k ∉ keys t →
  S (height t) ≤ fuel →
  ∃ s' b nd,
    insert op key_eq fuel s (k, v) = Ret (s', (Some b, true))
    ∧ find op key_eq fuel s' k = Ret (Some b)
    ∧ mem s' !! b = Some nd ∧ value nd = (k, v).
Proof.
  intros Hswo Heq Htot Hrep Hord Hk Hf.
  pose proof (insert_owns op key_eq s t (k, v) fuel (op_asym' op Hswo) Hrep ltac:(lia)) as Hspec.
  pose proof (tfind_absent op key_eq t k Heq Hk) as Hnone.
  simpl in Hspec. rewrite Hnone in Hspec.
  destruct (tinsert_total op key_eq t (fresh (dom (mem s))) (k, v) Hswo Heq Htot Hnone)
    as [t' Ht'].
  rewrite Ht' in Hspec. destruct Hspec as (s' & Hins & Hrep').
  pose proof (tinsert_ordered op t _ _ t' Ht' Hord) as Hord'.
  destruct (tinsert_inv op t _ _ t' Ht') as (fs & -> & -> & _).
  pose proof Hrep' as (_ & [(Hb & _) _]%owns_plug & _). simpl in Hb.
  exists s', (fresh (dom (mem s))). eexists. split_and!; [done| |exact Hb|done].
  unfold find. rewrite (find_owns op key_eq s' _ k fuel Hrep').
  - f_equal. apply (tfind_node op key_eq fs Leaf _ (k, v) Leaf Hswo Heq Hord').
  - pose proof (height_plug_grow fs Leaf (Node Leaf (fresh (dom (mem s))) (k, v) Leaf)
                  ltac:(simpl; lia)). lia.
Qed.

(** X1: [find] of a key the tree holds returns the iterator to the node of
    that key. *)
Theorem find_present op key_eq s t k v fuel :
  strict_weak_order op → eq_operator key_eq →
  bst_repr s t → ordered op t →
  (k, v) ∈ inorder t →
  height t ≤ fuel →
  ∃ a nd, find op key_eq fuel s k = Ret (Some a)
          ∧ mem s !! a = Some nd ∧ value nd = (k, v).
Proof. apply find_node. Qed.

(** X2: [find] of a key the tree does not hold returns [end()], whatever the
    comparator. *)
Theorem find_absent op key_eq s t k fuel :
  eq_operator key_eq →
  bst_repr s t →
  k ∉ keys t →
  height t ≤ fuel →
  find op key_eq fuel s k = Ret None.
Proof. apply find_none. Qed.

(** X3: [insert] of an entry whose key the tree does not hold returns the
    iterator to a new node, a leaf that holds the entry, and [true]; the
    entry is added at its place in the order, the other entries are as
    they were, and the tree is at most one level higher. *)
Theorem insert_absent op key_eq s t k v fuel :
  strict_weak_order op → eq_operator key_eq → total_order op →
  bst_repr s t → ordered op t →
  k ∉ keys t →
  height t ≤ fuel →
  ∃ s' t' b nd pre post,
    insert op key_eq fuel s (k, v) = Ret (s', (Some b, true))
    ∧ bst_repr s' t' ∧ ordered op t'
    ∧ inorder t = pre ++ post ∧ inorder t' = pre ++ (k, v) :: post
    ∧ mem s !! b = None ∧ mem s' !! b = Some nd ∧ value nd = (k, v)
    ∧ left nd = None ∧ right nd = None
    ∧ height t' ≤ S (height t).
Proof. apply insert_new. Qed.

End lookups.

(** ** [erase], [clear], [begin] and [operator[]] *)

Section updates.
Context {K V : Type}.
Implicit Types (op key_eq : K → K → bool).
Implicit Types (t u l r : @tree K V) (fs : list (@frame K V)) (h : gmap loc (node_t K V)).
Implicit Types (s : bst K V).

(** X7: [erase] of a key the tree does not hold changes nothing. *)
Theorem erase_absent op key_eq s t k fuel :
  eq_operator key_eq →
  bst_repr s t →
  k ∉ keys t →
  S (height t) ≤ fuel →
  erase op key_eq fuel s k = Ret s.
Proof.
  intros Heq Hrep Hk Hf. destruct fuel as [|fuel]; [lia|].
  rewrite erase_S.
  pose proof (find_none op key_eq s t k fuel Heq Hrep Hk ltac:(lia)) as Hn.
  unfold find in Hn. by rewrite Hn.
Qed.

(** X8: After [erase] of a key, [find] of it returns [end()]. *)
Theorem erase_then_find op key_eq s t k v fuel :
  strict_weak_order op → eq_operator key_eq →
  bst_repr s t → ordered op t →
  (k, v) ∈ inorder t →
  height t + 2 ≤ fuel →
  ∃ s', erase op key_eq fuel s k = Ret s'
        ∧ ∀ n, length (inorder t) ≤ n → find op key_eq n s' k = Ret None.
Proof.
  intros Hswo Heq Hrep Hord Hin Hf.
  destruct (erase_owns op key_eq s t k v fuel Hswo Heq Hrep Hord Hin Hf)
    as (s' & t' & pre & post & He & Hrep' & _ & Hi & Hi' & Hk).
  exists s'. split; [done|]. intros n Hn.
  apply (find_none op key_eq s' t' k n Heq Hrep' Hk).
  pose proof (height_le_size t') as Hh. rewrite <- length_inorder, Hi' in Hh.
  rewrite Hi in Hn. rewrite !length_app in *. simpl in *. lia.
Qed.

(** X12: [clear] releases every node of the tree and no other, and leaves the
    tree empty: [begin()] is [end()]. *)
Theorem clear_releases s t fuel :
  bst_repr s t →
  height t ≤ fuel →
  ∃ s', clear fuel s = Ret s'
        ∧ root s' = None
        ∧ (∀ a, a ∈ locs t → mem s' !! a = None)
        ∧ (∀ a, a ∉ locs t → mem s' !! a = mem s !! a)
        ∧ ∀ n, begin n s' = Ret None.
Proof.
  intros (Hroot & Hown & Hnd) Hf.
  destruct (destroy_owns _ _ _ _ Hown Hnd Hf) as (h' & Hd & Hin & Hout).
  exists (mk_bst h' None). unfold clear, reset_root. rewrite Hroot, Hd. simpl.
  split_and!; done.
Qed.

(** X13: [begin] returns the iterator to the node of the least key, which has
    no left child; on the empty tree it returns [end()]. *)
Theorem begin_least op s t fuel :
  strict_weak_order op →
  bst_repr s t → ordered op t →
  height t ≤ fuel →
  match inorder t with
  | [] => begin fuel s = Ret None
  | e :: es =>
    ∃ a nd, begin fuel s = Ret (Some a)
            ∧ mem s !! a = Some nd ∧ value nd = e ∧ left nd = None
            ∧ Forall (λ x, op e.1 x.1 = true) es
  end.
Proof.
  intros Hswo (Hroot & Hown & Hnd) Hord Hf. unfold begin. rewrite Hroot.
  destruct t as [|l a e r]; [done|].
  pose proof (ordered_sorted op _ Hswo Hord) as Hs. unfold keys in Hs.
  destruct (leftmost l a e r) as [fs [[m em] rm]] eqn:Hlm.
  destruct (leftmost_plug _ _ _ _ _ _ _ _ Hlm) as (Hplug & Hin).
  rewrite Hin in Hs |- *.
  cbn [root_loc]. rewrite (inorder_loop_owns _ _ _ _ _ _ _ Hown Hf), Hlm. simpl.
  rewrite Hplug in Hown.
  apply owns_plug in Hown as [(Hm & _) _]. simpl in Hm.
  exists m. eexists. split_and!; [done|exact Hm|done|done|].
  rewrite fmap_cons in Hs. apply StronglySorted_inv in Hs as [_ Hall].
  rewrite Forall_fmap in Hall. exact Hall.
Qed.

(** X14: [operator[]] of a key the tree holds returns the reference into the
    node of that key and changes nothing: the value is not replaced by
    the default one. *)
Theorem index_present op key_eq (dflt : V) s t k v fuel :
  strict_weak_order op → eq_operator key_eq →
  bst_repr s t → ordered op t →
  (k, v) ∈ inorder t →
  height t ≤ fuel →
  ∃ a nd, operator_index op key_eq dflt fuel s k = Ret (s, a)
          ∧ mem s !! a = Some nd ∧ value nd = (k, v).
Proof.
  intros Hswo Heq Hrep Hord Hin Hf.
  destruct (node_of_entry s t _ Hrep Hin) as (fs & l & n & r & nd & -> & Hn & Hv & _).
  pose proof (tfind_node op key_eq fs l n (k, v) r Hswo Heq Hord) as Hfind. simpl in Hfind.
  pose proof (insert_owns op key_eq s _ (k, dflt) fuel (op_asym' op Hswo) Hrep Hf) as Hspec.
  simpl in Hspec. rewrite Hfind in Hspec.
  exists n, nd. split_and!; [|done..].
  unfold operator_index, insert. rewrite Hspec. simpl. unfold deref. by rewrite Hn.
Qed.

(** X15: [operator[]] of a key the tree does not hold adds the entry of the key
    and the default value, and returns the reference into its node. *)
Theorem index_absent op key_eq (dflt : V) s t k fuel :
  strict_weak_order op → eq_operator key_eq → total_order op →
  bst_repr s t → ordered op t →
  k ∉ keys t →
  height t ≤ fuel →
  ∃ s' t' a nd pre post,
    operator_index op key_eq dflt fuel s k = Ret (s', a)
    ∧ bst_repr s' t' ∧ ordered op t'
    ∧ inorder t = pre ++ post ∧ inorder t' = pre ++ (k, dflt) :: post
    ∧ mem s' !! a = Some nd ∧ value nd = (k, dflt).
Proof.
  intros Hswo Heq Htot Hrep Hord Hk Hf.
  destruct (insert_new op key_eq s t k dflt fuel Hswo Heq Htot Hrep Hord Hk Hf)
    as (s' & t' & b & nd & pre & post & Hins & Hrep' & Hord' & Hi & Hi' & _ & Hb & Hv & _).
  exists s', t', b, nd, pre, post. split_and!; try done.
  unfold operator_index. rewrite Hins. simpl. unfold deref. by rewrite Hb.
Qed.

Lemma split_at_key (pre pre' post post' : list (K * V)) k v :
  k ∉ (pre ++ post).*1 → k ∉ (pre' ++ post').*1 →
  pre ++ (k, v) :: post = pre' ++ (k, v) :: post' →
  pre ++ post = pre' ++ post'.
Proof.
  revert pre'. induction pre as [|x pre IH]; intros [|x' pre'] H1 H2 Heq; simpl in *.
  - by injection Heq.
  - injection Heq as <- _. exfalso. apply H2. simpl. left.
  - injection Heq as -> _. exfalso. apply H1. simpl. left.
  - injection Heq as <- Heq. f_equal. apply IH; [| |done].
    + intros Hin. apply H1. by right.
    + intros Hin. apply H2. by right.
Qed.

(** X10: [insert] of an entry of a new key followed by [erase] of the key
    leaves the entries the tree held, in their order. *)
Theorem insert_then_erase op key_eq s t k v fuel :
  strict_weak_order op → eq_operator key_eq → total_order op →
  bst_repr s t → ordered op t →
  k ∉ keys t →
  height t + 3 ≤ fuel →
  ∃ s1 b s2 t2,
    insert op key_eq fuel s (k, v) = Ret (s1, (Some b, true))
    ∧ erase op key_eq fuel s1 k = Ret s2
    ∧ bst_repr s2 t2 ∧ ordered op t2
    ∧ inorder t2 = inorder t.
Proof.
  intros Hswo Heq Htot Hrep Hord Hk Hf.
  destruct (insert_new op key_eq s t k v fuel Hswo Heq Htot Hrep Hord Hk ltac:(lia))
    as (s1 & t1 & b & nd & pre & post & Hins & Hrep1 & Hord1 & Hi & Hi1
        & _ & _ & _ & _ & _ & Hh).
  destruct (erase_owns op key_eq s1 t1 k v fuel Hswo Heq Hrep1 Hord1) as
    (s2 & t2 & pre' & post' & He & Hrep2 & Hord2 & Hj & Hj2 & Hk2); [|lia|].
  { rewrite Hi1. apply elem_of_app. right. left. }
  exists s1, b, s2, t2. split_and!; try done.
  rewrite Hj2, Hi. symmetry. apply (split_at_key pre pre' post post' k v).
  - unfold keys in Hk. by rewrite Hi in Hk.
  - unfold keys in Hk2. by rewrite Hj2 in Hk2.
  - by rewrite <- Hi1, <- Hj.
Qed.

End updates.

(** ** Sequences of inserts, and the nodes [insert] leaves in place *)

Section sequences.
Context {K V : Type}.
Implicit Types (op key_eq : K → K → bool).
Implicit Types (t u l r : @tree K V) (fs : list (@frame K V)) (h : gmap loc (node_t K V)).
Implicit Types (s : bst K V).

(** X16: After [balance], [find] of a key the tree held returns the node of its
    entry. *)
Theorem balance_then_find op key_eq s t k v fuel :
  strict_weak_order op → eq_operator key_eq →
  bst_repr s t → ordered op t →
  (k, v) ∈ inorder t →
  (Z.of_nat (length (inorder t)) ≤ 2 ^ 30)%Z →
  2 * length (inorder t) + 2 ≤ fuel →
  ∃ s' a nd, balance op key_eq fuel s = Ret s'
             ∧ find op key_eq fuel s' k = Ret (Some a)
             ∧ mem s' !! a = Some nd ∧ value nd = (k, v).
Proof.
  intros Hswo Heq Hrep Hord Hin Hn Hf.
  destruct (balance_spec op key_eq s t fuel Hswo Heq Hrep Hord Hn Hf)
    as (s' & t' & Hb & Hrep' & Hord' & Hi & _ & _).
  destruct (find_node op key_eq s' t' k v fuel Hswo Heq Hrep' Hord') as (a & nd & H).
  - by rewrite Hi.
  - pose proof (height_le_size t') as Hh. rewrite <- length_inorder, Hi in Hh. lia.
  - by exists s', a, nd.
Qed.

Lemma tfind_None_absent op key_eq t k :
  strict_weak_order op → eq_operator key_eq → ordered op t →
  tfind op key_eq t k = None → k ∉ keys t.
Proof.
  intros Hswo Heq Hord Hnone Hin. unfold keys in Hin.
  apply list_elem_of_fmap in Hin as ([k' v] & -> & Hin). simpl in *.
  destruct (elem_of_inorder_plug _ _ Hin) as (fs & l & n & r & ->).
  pose proof (tfind_node op key_eq fs l n (k', v) r Hswo Heq Hord) as Hfind. simpl in Hfind.
  by rewrite Hfind in Hnone.
Qed.

Lemma insert_all_content op key_eq xs :
  strict_weak_order op → eq_operator key_eq → total_order op →
  ∀ s t fuel,
    bst_repr s t → ordered op t →
    length (locs t) + length xs ≤ fuel →
    ∃ s' t', insert_all op key_eq fuel s xs = Ret s'
             ∧ bst_repr s' t' ∧ ordered op t'
             ∧ (∀ k v, (k, v) ∈ inorder t'
                       ↔ (k, v) ∈ inorder t ∨ ((k ∉ keys t) ∧ first_value key_eq xs k = Some v)).
Proof.
  intros Hswo Heq Htot.
  induction xs as [|[k0 v0] xs IH]; intros s t fuel Hrep Hord Hf.
  { exists s, t. split_and!; try done. intros k v. simpl. naive_solver. }
  pose proof (height_le_size t) as Hh. simpl in Hf.
  cbn [insert_all].
  destruct (tfind op key_eq t k0) as [a|] eqn:Hfind.
  - pose proof (insert_owns op key_eq s t (k0, v0) fuel (op_asym' op Hswo) Hrep ltac:(lia))
      as Hspec.
    simpl in Hspec. rewrite Hfind in Hspec. unfold insert. rewrite Hspec. simpl.
    destruct (IH s t fuel Hrep Hord ltac:(lia)) as (s' & t' & Hall & Hrep' & Hord' & Hc).
    exists s', t'. split_and!; try done.
    intros k v. rewrite Hc. simpl.
    destruct (key_eq k0 k) eqn:Hk; [|done].
    apply Heq in Hk as <-. apply (tfind_Some_key op key_eq _ _ _ Heq) in Hfind.
    naive_solver.
  - pose proof (tfind_None_absent op key_eq t k0 Hswo Heq Hord Hfind) as Hk0.
    destruct (insert_new op key_eq s t k0 v0 fuel Hswo Heq Htot Hrep Hord Hk0 ltac:(lia))
      as (s1 & t1 & b & nd & pre & post & Hins & Hrep1 & Hord1 & Hi & Hi1 & _).
    rewrite Hins. simpl.
    assert (Hlen : length (locs t1) = S (length (locs t))).
    { rewrite <- !length_inorder, Hi, Hi1, !length_app. simpl. lia. }
    destruct (IH s1 t1 fuel Hrep1 Hord1 ltac:(lia)) as (s' & t' & Hall & Hrep' & Hord' & Hc).
    exists s', t'. split_and!; try done.
    assert (HA : ∀ k v, (k, v) ∈ inorder t1 ↔ (k, v) = (k0, v0) ∨ (k, v) ∈ inorder t).
    { intros k v. rewrite Hi1, Hi, !elem_of_app, elem_of_cons. tauto. }
    assert (HB : ∀ k, k ∈ keys t1 ↔ k = k0 ∨ k ∈ keys t).
    { intros k. unfold keys. rewrite Hi1, Hi, !fmap_app, fmap_cons, !elem_of_app, elem_of_cons.
      simpl. tauto. }
    assert (HK : ∀ k v, (k, v) ∈ inorder t → k ∈ keys t).
    { intros k v H. unfold keys. apply list_elem_of_fmap. by exists (k, v). }
    intros k v. rewrite Hc, HA, HB. simpl.
    destruct (key_eq k0 k) eqn:Hk.
    + apply Heq in Hk as <-. split.
      * intros [[[= ->]|H]|[H _]]; [by right|by left|tauto].
      * intros [H|[_ [= ->]]]; [by left; right|by left; left].
    + assert (k ≠ k0) by (intros ->; by rewrite (key_eq_refl _ _ Heq) in Hk).
      split.
      * intros [[[= -> _]|H']|[H1 H2]]; [done|by left|right; tauto].
      * intros [H'|[H1 H2]]; [by left; right|right; tauto].
Qed.

(** X6: A sequence of inserts into the empty tree builds the tree of the keys
    of the sequence, each with the value of its first entry in the
    sequence: a later entry of a key does not replace an earlier one. *)
Theorem insert_all_first_wins op key_eq (xs : list (K * V)) fuel :
  strict_weak_order op → eq_operator key_eq → total_order op →
  length xs ≤ fuel →
  ∃ s t, insert_all op key_eq fuel empty_bst xs = Ret s
         ∧ bst_repr s t ∧ ordered op t
         ∧ (∀ k v, (k, v) ∈ inorder t ↔ first_value key_eq xs k = Some v).
Proof.
  intros Hswo Heq Htot Hf.
  destruct (insert_all_content op key_eq xs Hswo Heq Htot empty_bst Leaf fuel repr_empty I Hf)
    as (s & t & Hall & Hrep & Hord & Hc).
  exists s, t. split_and!; try done.
  intros k v. rewrite Hc. simpl. unfold keys. simpl. set_solver.
Qed.

Lemma owns_same h h' par t a :
  owns h par t → owns h' par t → a ∈ locs t → h' !! a = h !! a.
Proof.
  revert par. induction t as [|l IHl b e r IHr]; intros par; simpl; [set_solver|].
  intros (Hb & Hl & Hr) (Hb' & Hl' & Hr') [Ha|[->|Ha]%elem_of_cons]%elem_of_app.
  - by apply (IHl (Some b)).
  - by rewrite Hb, Hb'.
  - by apply (IHr (Some b)).
Qed.

Lemma owns_ctx_value h h' par fs q q' a nd :
  owns_ctx h par fs q → owns_ctx h' par fs q' →
  a ∈ ctx_locs fs → h !! a = Some nd →
  ∃ nd', h' !! a = Some nd' ∧ value nd' = value nd.
Proof.
  revert q q'. induction fs as [|f fs IH]; intros q q'; [set_solver|].
  rewrite ctx_locs_cons.
  destruct f as [b e r|l b e]; simpl;
    intros (Hb & Ho & Hc) (Hb' & Ho' & Hc') [->|[Ha|Ha]%elem_of_app]%elem_of_cons Hnd.
  - rewrite Hb in Hnd. injection Hnd as <-. eexists. split; [exact Hb'|done].
  - exists nd. split; [|done]. by rewrite (owns_same h h' (Some b) r a).
  - by apply (IH (Some b) (Some b)).
  - rewrite Hb in Hnd. injection Hnd as <-. eexists. split; [exact Hb'|done].
  - exists nd. split; [|done]. by rewrite (owns_same h h' (Some b) l a).
  - by apply (IH (Some b) (Some b)).
Qed.

(** X5: [insert] of an entry of a new key leaves every node of the tree at its
    address with its entry: the iterators into the tree stay valid. *)
Theorem insert_keeps_nodes op key_eq s t k v fuel :
  strict_weak_order op → eq_operator key_eq → total_order op →
  bst_repr s t → ordered op t →
  k ∉ keys t →
  height t ≤ fuel →
  ∃ s' b, insert op key_eq fuel s (k, v) = Ret (s', (Some b, true))
          ∧ ∀ a nd, a ∈ locs t → mem s !! a = Some nd →
              a ≠ b ∧ ∃ nd', mem s' !! a = Some nd' ∧ value nd' = value nd.
Proof.
  intros Hswo Heq Htot Hrep Hord Hk Hf.
  pose proof (insert_owns op key_eq s t (k, v) fuel (op_asym' op Hswo) Hrep Hf) as Hspec.
  pose proof (tfind_absent op key_eq t k Heq Hk) as Hnone.
  simpl in Hspec. rewrite Hnone in Hspec.
  destruct (tinsert_total op key_eq t (fresh (dom (mem s))) (k, v) Hswo Heq Htot Hnone)
    as [t' Ht'].
  rewrite Ht' in Hspec. destruct Hspec as (s' & Hins & Hrep').
  destruct (tinsert_inv op t _ _ t' Ht') as (fs & -> & -> & _).
  exists s', (fresh (dom (mem s))). split; [done|].
  intros a nd Ha Hnd. split.
  { intros ->. pose proof (is_fresh (dom (mem s))) as Hfr.
    apply Hfr. apply elem_of_dom. by eexists. }
  destruct Hrep as (_ & [_ Hc]%owns_plug & _).
  destruct Hrep' as (_ & [_ Hc']%owns_plug & _).
  rewrite locs_plug_perm in Ha. change (a ∈ ctx_locs fs) in Ha.
  exact (owns_ctx_value (mem s) (mem s') None fs _ _ a nd Hc Hc' Ha Hnd).
Qed.

End sequences.

(** ** The copy constructor and copy assignment *)

Section copying.
Context {K V : Type}.
Implicit Types (t u l r : @tree K V) (fs : list (@frame K V)) (h : gmap loc (node_t K V)).
Implicit Types (s : bst K V).

Lemma inorder_shape t u : shape_of t = shape_of u → inorder t = inorder u.
Proof.
  revert u. induction t as [|l IHl a e r IHr]; intros [|l' a' e' r']; simpl; try done.
  intros [= Hl -> Hr]. by rewrite (IHl _ Hl), (IHr _ Hr).
Qed.

Lemma fresh_lookup h : h !! fresh (dom h) = None.
Proof. apply (not_elem_of_dom (D:=gset loc)). apply is_fresh. Qed.

(** The copy constructor of [node] builds, at addresses the store did not
    hold, a tree of the shape of the one it copies, and leaves the store
    as it was elsewhere. *)
Lemma copy_node_owns t : ∀ h par p fuel a,
  owns h par t → root_loc t = Some a → height t ≤ fuel →
  ∃ c h' t',
    copy_node fuel h a p = Ret (c, h')
    ∧ root_loc t' = Some c ∧ owns h' p t'
    ∧ shape_of t' = shape_of t ∧ NoDup (locs t')
    ∧ (∀ b, b ∈ locs t' → h !! b = None)
    ∧ (∀ b, b ∉ locs t' → h' !! b = h !! b).
Proof.
  induction t as [|l IHl a0 e r IHr]; intros h par p fuel a Hown Hroot Hf; [done|].
  injection Hroot as <-. destruct fuel as [|fuel]; [simpl in Hf; lia|].
  simpl in Hf. destruct Hown as (Ha0 & Hl & Hr).
  assert (Hd : deref h a0 = Ret (mk_node (root_loc r) (root_loc l) par e))
    by (unfold deref; by rewrite Ha0).
  cbn [copy_node]. rewrite Hd. cbn [mbind result_bind value right].
  unfold alloc. set (this := fresh (dom h)).
  pose proof (fresh_lookup h) as Hthis. fold this in Hthis.
  set (h0 := <[this := mk_node None None p e]> h).
  assert (Hh0 : ∀ b, b ≠ this → h0 !! b = h !! b).
  { intros b Hb. unfold h0. by rewrite lookup_insert_ne. }
  assert (Hne : a0 ≠ this) by (intros ->; by rewrite Hthis in Ha0).
  (* the right child *)
  assert (HR : ∃ h1 r',
    match root_loc r with
    | Some xr =>
      '(c, h') ← copy_node fuel h0 xr (Some this);
      tnd ← deref h' this;
      Ret (<[this := set_right tnd (Some c)]> h')
    | None => Ret h0
    end = Ret h1
    ∧ h1 !! this = Some (mk_node (root_loc r') None p e)
    ∧ (this ∉ locs r')
    ∧ child_copied h0 this r h1 r').
  { destruct r as [|rl ra re rr].
    - exists h0, Leaf. unfold child_copied. simpl.
      split_and!; try done; [by apply lookup_insert_eq|set_solver|constructor|set_solver].
    - assert (Hr0 : owns h0 (Some a0) (Node rl ra re rr)).
      { apply (owns_frame h); [done|]. intros b Hb. apply Hh0. intros ->.
        destruct (owns_lookup _ _ _ _ Hr Hb) as [? H]. by rewrite Hthis in H. }
      destruct (IHr h0 (Some a0) (Some this) fuel ra Hr0 eq_refl ltac:(lia))
        as (c & h' & r' & Hcp & Hroot' & Hown' & Hsh & Hnd & Hfresh & Hout).
      assert (Hnin : this ∉ locs r').
      { intros Hin. apply Hfresh in Hin. unfold h0 in Hin. by rewrite lookup_insert_eq in Hin. }
      exists (<[this := mk_node (Some c) None p e]> h'), r'.
      cbn [root_loc]. rewrite Hcp. cbn [mbind result_bind]. unfold deref.
      rewrite (Hout this Hnin). unfold h0 at 1. rewrite lookup_insert_eq.
      cbn [mbind result_bind]. split_and!; [done| |done|].
      + rewrite lookup_insert_eq. by rewrite Hroot'.
      + unfold child_copied. split_and!; try done.
        * apply (owns_frame h'); [done|]. intros b Hb. rewrite lookup_insert_ne; [done|].
          by intros <-.
        * intros b Hb Hbt. rewrite lookup_insert_ne by done. by apply Hout. }
  destruct HR as (h1 & r' & HRe & Hthis1 & Hninr & Hownr & Hshr & Hndr & Hfreshr & Houtr).
  rewrite HRe. cbn [mbind result_bind].
  assert (Hsrc : ∀ b, is_Some (h !! b) → h1 !! b = h !! b).
  { intros b [x Hb]. assert (b ≠ this) by (intros ->; by rewrite Hthis in Hb).
    assert (b ∉ locs r').
    { intros Hin. apply Hfreshr in Hin. rewrite Hh0 in Hin by done. by rewrite Hb in Hin. }
    by rewrite Houtr, Hh0. }
  assert (Hd1 : deref h1 a0 = Ret (mk_node (root_loc r) (root_loc l) par e)).
  { unfold deref. rewrite Hsrc by (by rewrite Ha0). by rewrite Ha0. }
  rewrite Hd1. cbn [mbind result_bind left].
  (* the left child *)
  assert (HL : ∃ h2 l',
    match root_loc l with
    | Some xl =>
      '(c, h') ← copy_node fuel h1 xl (Some this);
      tnd ← deref h' this;
      Ret (<[this := set_left tnd (Some c)]> h')
    | None => Ret h1
    end = Ret h2
    ∧ h2 !! this = Some (mk_node (root_loc r') (root_loc l') p e)
    ∧ (this ∉ locs l')
    ∧ child_copied h1 this l h2 l').
  { destruct l as [|ll la le lr].
    - exists h1, Leaf. unfold child_copied. simpl.
      split_and!; try done; [set_solver|constructor|set_solver].
    - assert (Hl1 : owns h1 (Some a0) (Node ll la le lr)).
      { apply (owns_frame h); [done|]. intros b Hb. apply Hsrc.
        by apply (owns_lookup _ _ _ _ Hl). }
      destruct (IHl h1 (Some a0) (Some this) fuel la Hl1 eq_refl ltac:(lia))
        as (c & h' & l' & Hcp & Hroot' & Hown' & Hsh & Hnd & Hfresh & Hout).
      assert (Hnin : this ∉ locs l').
      { intros Hin. apply Hfresh in Hin. by rewrite Hthis1 in Hin. }
      exists (<[this := mk_node (root_loc r') (Some c) p e]> h'), l'.
      cbn [root_loc]. rewrite Hcp. cbn [mbind result_bind]. unfold deref.
      rewrite (Hout this Hnin), Hthis1.
      cbn [mbind result_bind]. split_and!; [done| |done|].
      + rewrite lookup_insert_eq. by rewrite Hroot'.
      + unfold child_copied. split_and!; try done.
        * apply (owns_frame h'); [done|]. intros b Hb. rewrite lookup_insert_ne; [done|].
          by intros <-.
        * intros b Hb Hbt. rewrite lookup_insert_ne by done. by apply Hout. }
  destruct HL as (h2 & l' & HLe & Hthis2 & Hninl & Hownl & Hshl & Hndl & Hfreshl & Houtl).
  rewrite HLe. cbn [mbind result_bind].
  assert (Hdisj : ∀ b, b ∈ locs l' → b ∉ locs r').
  { intros b Hbl Hbr. apply Hfreshl in Hbl.
    destruct (owns_lookup _ _ _ _ Hownr Hbr) as [x Hx]. by rewrite Hx in Hbl. }
  exists this, h2, (Node l' this e r'). split_and!.
  - done.
  - done.
  - simpl. split_and!; [done|done|].
    apply (owns_frame h1); [done|]. intros b Hb. apply Houtl.
    + intros Hbl. by apply (Hdisj b).
    + by intros ->.
  - simpl. by rewrite Hshl, Hshr.
  - simpl. apply NoDup_app. split_and!; [done| |by apply NoDup_cons].
    intros b Hbl [->|Hbr]%elem_of_cons; [done|]. by apply (Hdisj b).
  - simpl. intros b [Hb|[->|Hb]%elem_of_cons]%elem_of_app.
    + pose proof (Hfreshl b Hb) as H1.
      assert (b ≠ this) by (by intros ->).
      pose proof (Hdisj b Hb). by rewrite Houtr, Hh0 in H1.
    + done.
    + pose proof (Hfreshr b Hb) as H0. rewrite Hh0 in H0; [done|]. by intros ->.
  - simpl. intros b Hb. apply not_elem_of_app in Hb as [Hbl Hb].
    apply not_elem_of_cons in Hb as [Hbt Hbr].
    by rewrite Houtl, Houtr, Hh0.
Qed.

Lemma copy_construct_owns h t fuel :
  owns h None t → height t ≤ fuel →
  ∃ c h' t',
    copy_construct fuel h (root_loc t) = Ret (c, h')
    ∧ root_loc t' = c ∧ owns h' None t'
    ∧ shape_of t' = shape_of t ∧ NoDup (locs t')
    ∧ (∀ b, b ∈ locs t' → h !! b = None)
    ∧ (∀ b, b ∉ locs t' → h' !! b = h !! b).
Proof.
  intros Hown Hf. destruct t as [|l a e r].
  { exists None, h, Leaf. simpl. split_and!; try done; [constructor|set_solver]. }
  destruct (copy_node_owns _ h None None fuel a Hown eq_refl Hf)
    as (c & h' & t' & Hcp & Hroot' & Hown' & Hsh & Hnd' & Hfresh & Hout).
  exists (Some c), h', t'. cbn [copy_construct root_loc]. rewrite Hcp. by cbn [mbind result_bind].
Qed.

(** X17: The copy constructor of [bst] builds a deep copy: a tree of the same
    shape with the same entries, at addresses of its own, and the tree it
    copies is as it was. *)
Theorem copy_constructor_deep_copy s t fuel :
  bst_repr s t →
  height t ≤ fuel →
  ∃ c h' t',
    copy_construct fuel (mem s) (root s) = Ret (c, h')
    ∧ bst_repr (mk_bst h' c) t'
    ∧ shape_of t' = shape_of t ∧ inorder t' = inorder t
    ∧ bst_repr (mk_bst h' (root s)) t
    ∧ (∀ a, a ∈ locs t' → a ∉ locs t).
Proof.
  intros (Hroot & Hown & Hnd) Hf. rewrite Hroot.
  destruct (copy_construct_owns (mem s) t fuel Hown Hf)
    as (c & h' & t' & Hcp & Hroot' & Hown' & Hsh & Hnd' & Hfresh & Hout).
  assert (Hdisj : ∀ b, b ∈ locs t' → b ∉ locs t).
  { intros b Hb Hbt. apply Hfresh in Hb.
    destruct (owns_lookup _ _ _ _ Hown Hbt) as [x Hx]. by rewrite Hx in Hb. }
  exists c, h', t'. split_and!; [done| |done| | |done].
  - by split_and!.
  - by apply inorder_shape.
  - split_and!; [done| |done]. cbn [mem].
    apply (owns_frame (mem s) h' None t); [done|]. intros b Hb. apply Hout.
    intros Hb'. by apply (Hdisj b).
Qed.

(** X18: Copy assignment between two objects: the assigned object holds a deep
    copy of the other tree, which is as it was. *)
Theorem copy_assign_distinct (w : world K V) (this x : positive)
    (p1 p2 : option loc) t1 t2 fuel :
  this ≠ x →
  w_root w !! this = Some p1 → w_root w !! x = Some p2 →
  bst_repr (mk_bst (w_mem w) p1) t1 → bst_repr (mk_bst (w_mem w) p2) t2 →
  (∀ a, a ∈ locs t1 → a ∉ locs t2) →
  height t1 ≤ fuel → height t2 ≤ fuel →
  ∃ w' st sx t',
    operator_assign fuel w this x = Ret w'
    ∧ object w' this = Ret st ∧ bst_repr st t'
    ∧ shape_of t' = shape_of t2 ∧ inorder t' = inorder t2
    ∧ object w' x = Ret sx ∧ bst_repr sx t2
    ∧ (∀ a, a ∈ locs t' → a ∉ locs t2).
Proof.
  intros Hne Hthis Hx (Hroot1 & Hown1 & Hnd1) (Hroot2 & Hown2 & Hnd2) Hdisj Hf1 Hf2.
  simpl in *. subst p1 p2.
  destruct (destroy_owns _ _ _ _ Hown1 Hnd1 Hf1) as (h1 & Hd & _ & Hout1).
  assert (Hown2' : owns h1 None t2).
  { apply (owns_frame (w_mem w)); [done|]. intros b Hb. apply Hout1.
    intros Hb1. by apply (Hdisj b). }
  destruct (copy_construct_owns h1 t2 fuel Hown2' Hf2)
    as (c & h2 & t' & Hcp & Hroot' & Hown' & Hsh & Hnd' & Hfresh & Hout).
  assert (Hdisj' : ∀ b, b ∈ locs t' → b ∉ locs t2).
  { intros b Hb Hbt. apply Hfresh in Hb.
    destruct (owns_lookup _ _ _ _ Hown2' Hbt) as [y Hy]. by rewrite Hy in Hb. }
  assert (Hn : destroy fuel h2 None = Ret h2) by (by destruct fuel).
  exists (mk_world h2 (<[this := c]> (<[this := None]> (w_root w)))),
    (mk_bst h2 c), (mk_bst h2 (root_loc t2)), t'.
  split_and!; [| | |done| | | |done].
  - unfold operator_assign, root_of. rewrite Hthis. cbn [mbind result_bind].
    rewrite Hd. cbn [mbind result_bind w_root w_mem].
    assert (Hx1 : <[this := None]> (w_root w) !! x = Some (root_loc t2))
      by (by rewrite lookup_insert_ne).
    rewrite Hx1. cbn [mbind result_bind].
    rewrite Hcp. cbn [mbind result_bind]. rewrite lookup_insert_eq. cbn [mbind result_bind].
    by rewrite Hn.
  - unfold object, root_of. cbn [w_root w_mem]. rewrite lookup_insert_eq. by simpl.
  - by split_and!.
  - by apply inorder_shape.
  - unfold object, root_of. cbn [w_root w_mem].
    rewrite !lookup_insert_ne, Hx by done. by simpl.
  - split_and!; [done| |done]. cbn [mem].
    apply (owns_frame h1 h2 None t2); [done|]. intros b Hb. apply Hout.
    intros Hb'. by apply (Hdisj' b).
Qed.

End copying.

(** ** Round trips, and keys the comparator leaves unordered *)

Section compositions.
Context {K V : Type}.
Implicit Types (op key_eq : K → K → bool).
Implicit Types (t u l r : @tree K V) (fs : list (@frame K V)) (h : gmap loc (node_t K V)).
Implicit Types (s : bst K V).

(** X9: [erase] of a key leaves the other keys where [find] finds them, with
    their values. *)
Theorem erase_keeps_others op key_eq s t k v k' v' fuel :
  strict_weak_order op → eq_operator key_eq →
  bst_repr s t → ordered op t →
  (k, v) ∈ inorder t → (k', v') ∈ inorder t → k' ≠ k →
  height t + 2 ≤ fuel →
  ∃ s', erase op key_eq fuel s k = Ret s'
        ∧ ∀ n, length (inorder t) ≤ n →
            ∃ a nd, find op key_eq n s' k' = Ret (Some a)
                    ∧ mem s' !! a = Some nd ∧ value nd = (k', v').
Proof.
  intros Hswo Heq Hrep Hord Hin Hin' Hne Hf.
  destruct (erase_owns op key_eq s t k v fuel Hswo Heq Hrep Hord Hin Hf)
    as (s' & t' & pre & post & He & Hrep' & Hord' & Hi & Hi' & Hk).
  exists s'. split; [done|]. intros n Hn.
  apply (find_node op key_eq s' t' k' v' n Hswo Heq Hrep' Hord').
  - rewrite Hi in Hin'. rewrite Hi'.
    rewrite elem_of_app, elem_of_cons in Hin'. rewrite elem_of_app.
    destruct Hin' as [H|[[= H _]|H]]; [by left|done|by right].
  - pose proof (height_le_size t') as Hh. rewrite <- length_inorder, Hi' in Hh.
    rewrite Hi in Hn. rewrite !length_app in *. simpl in *. lia.
Qed.

Lemma sorted_place op (pre post pre' post' : list (K * V)) x :
  strict_weak_order op →
  StronglySorted (lt op) (pre ++ x :: post).*1 →
  StronglySorted (lt op) (pre' ++ x :: post').*1 →
  pre ++ post = pre' ++ post' →
  pre = pre' ∧ post = post'.
Proof.
  intros Hswo. revert pre'. induction pre as [|y pre IH]; intros [|y' pre'] H1 H2 Heq; simpl in *.
  - done.
  - exfalso. subst post.
    apply StronglySorted_inv in H1 as [_ H1]. apply StronglySorted_inv in H2 as [_ H2].
    rewrite Forall_forall in H1, H2.
    assert (Ha : lt op x.1 y'.1) by (apply H1; simpl; left).
    assert (Hb : lt op y'.1 x.1).
    { apply H2. rewrite fmap_app, fmap_cons, elem_of_app, elem_of_cons. auto. }
    unfold lt in *. by rewrite (op_asym op _ _ Hswo Ha) in Hb.
  - exfalso. subst post'.
    apply StronglySorted_inv in H1 as [_ H1]. apply StronglySorted_inv in H2 as [_ H2].
    rewrite Forall_forall in H1, H2.
    assert (Ha : lt op x.1 y.1) by (apply H2; simpl; left).
    assert (Hb : lt op y.1 x.1).
    { apply H1. rewrite fmap_app, fmap_cons, elem_of_app, elem_of_cons. auto. }
    unfold lt in *. by rewrite (op_asym op _ _ Hswo Ha) in Hb.
  - injection Heq as <- Heq.
    apply StronglySorted_inv in H1 as [H1 _]. apply StronglySorted_inv in H2 as [H2 _].
    destruct (IH pre' H1 H2 Heq) as [-> ->]. done.
Qed.

(** X11: [erase] of a key followed by [insert] of the entry erased leaves the
    entries the tree held, in their order. *)
Theorem erase_then_insert op key_eq s t k v fuel :
  strict_weak_order op → eq_operator key_eq → total_order op →
  bst_repr s t → ordered op t →
  (k, v) ∈ inorder t →
  length (inorder t) + 2 ≤ fuel →
  ∃ s1 s2 b t2,
    erase op key_eq fuel s k = Ret s1
    ∧ insert op key_eq fuel s1 (k, v) = Ret (s2, (Some b, true))
    ∧ bst_repr s2 t2 ∧ ordered op t2
    ∧ inorder t2 = inorder t.
Proof.
  intros Hswo Heq Htot Hrep Hord Hin Hf.
  pose proof (height_le_size t) as Hh. rewrite <- length_inorder in Hh.
  destruct (erase_owns op key_eq s t k v fuel Hswo Heq Hrep Hord Hin ltac:(lia))
    as (s1 & t1 & pre & post & He & Hrep1 & Hord1 & Hi & Hi1 & Hk).
  pose proof (height_le_size t1) as Hh1. rewrite <- length_inorder, Hi1 in Hh1.
  assert (Hlen : length (pre ++ post) ≤ length (inorder t)).
  { rewrite Hi, !length_app. simpl. lia. }
  destruct (insert_new op key_eq s1 t1 k v fuel Hswo Heq Htot Hrep1 Hord1 Hk ltac:(lia))
    as (s2 & t2 & b & nd & pre' & post' & Hins & Hrep2 & Hord2 & Hj & Hj2 & _).
  exists s1, s2, b, t2. split_and!; try done.
  pose proof (ordered_sorted op t Hswo Hord) as Hs. unfold keys in Hs. rewrite Hi in Hs.
  pose proof (ordered_sorted op t2 Hswo Hord2) as Hs2. unfold keys in Hs2. rewrite Hj2 in Hs2.
  destruct (sorted_place op pre post pre' post' (k, v) Hswo Hs Hs2) as [-> ->].
  - by rewrite <- Hi1, <- Hj.
  - by rewrite Hj2, Hi.
Qed.

(** X19: Copy assignment of an object to itself leaves it empty, whatever tree
    it held. *)
Theorem self_assignment_always_empties (w : world K V) o (p : option loc) t fuel :
  w_root w !! o = Some p →
  bst_repr (mk_bst (w_mem w) p) t →
  height t ≤ fuel →
  ∃ w' st, operator_assign fuel w o o = Ret w'
           ∧ object w' o = Ret st ∧ root st = None
           ∧ ∀ n, begin n st = Ret None.
Proof.
  intros Ho (Hroot & Hown & Hnd) Hf. simpl in *.
  destruct (destroy_owns _ _ _ _ Hown Hnd Hf) as (h' & Hd & _).
  assert (Hn : destroy fuel h' None = Ret h') by (by destruct fuel).
  unfold operator_assign, root_of. rewrite Ho. cbn [mbind result_bind].
  rewrite Hroot, Hd. cbn [mbind result_bind w_root w_mem].
  rewrite lookup_insert_eq. cbn [mbind result_bind copy_construct].
  rewrite Hn. cbn [mbind result_bind].
  eexists. exists (mk_bst h' None). split_and!; [done| |done|done].
  unfold object, root_of. cbn [w_root w_mem]. by rewrite lookup_insert_eq.
Qed.

Lemma equivalent_side op k k' (f : @frame K V) :
  strict_weak_order op →
  op k k' = false → op k' k = false →
  frame_side op k' f → frame_side op k f.
Proof.
  intros Hswo H1 H2. destruct f as [a e r|l a e]; simpl; intros Hf.
  - destruct (op k e.1) eqn:Hke; [done|]. destruct (op e.1 k) eqn:Hek.
    + by rewrite (swo_trans _ Hswo _ _ _ Hf Hek) in H2.
    + destruct (swo_incomp _ Hswo k' k e.1 H2 H1 Hke Hek) as [H _]. by rewrite H in Hf.
  - destruct (op e.1 k) eqn:Hek; [done|]. destruct (op k e.1) eqn:Hke.
    + by rewrite (swo_trans _ Hswo _ _ _ Hke Hf) in H1.
    + destruct (swo_incomp _ Hswo k' k e.1 H2 H1 Hke Hek) as [_ H]. by rewrite H in Hf.
Qed.

Lemma equivalent_descent op key_eq t k k' v' b v :
  strict_weak_order op → eq_operator key_eq →
  ordered op t → (k', v') ∈ inorder t →
  op k k' = false → op k' k = false → k ≠ k' →
  tfind op key_eq t k = None ∧ tinsert op t b (k, v) = None.
Proof.
  intros Hswo Heq Hord Hin H1 H2 Hne.
  destruct (elem_of_inorder_plug _ _ Hin) as (fs & l & n & r & ->).
  assert (Hside : Forall (frame_side op k) fs).
  { eapply Forall_impl.
    - apply (ordered_plug_side op fs (Node l n (k', v') r) k' Hord).
      unfold keys. simpl. rewrite fmap_app, fmap_cons. set_solver.
    - intros f. by apply equivalent_side. }
  split.
  - rewrite (tfind_plug op key_eq fs _ k Hswo Heq Hside). simpl.
    rewrite (key_eq_ne _ _ _ Heq) by done. by rewrite H1, H2.
  - rewrite (tinsert_plug op fs _ b (k, v) Hswo Hside). simpl. by rewrite H1, H2.
Qed.

(** X20: [find] of a key that the comparator leaves unordered with a key of the
    tree, and that is not that key, returns [end()]. *)
Theorem find_equivalent_key_end op key_eq s t k k' v' fuel :
  strict_weak_order op → eq_operator key_eq →
  bst_repr s t → ordered op t →
  (k', v') ∈ inorder t →
  op k k' = false → op k' k = false → k ≠ k' →
  height t ≤ fuel →
  find op key_eq fuel s k = Ret None.
Proof.
  intros Hswo Heq Hrep Hord Hin H1 H2 Hne Hf.
  destruct (equivalent_descent op key_eq t k k' v' 1%positive v' Hswo Heq Hord Hin H1 H2 Hne)
    as [Hfind _].
  unfold find. by rewrite (find_owns op key_eq s t k fuel Hrep Hf), Hfind.
Qed.

(** X21: [insert] of an entry whose key the comparator leaves unordered with a
    key of the tree, and is not that key, does not return, however many
    steps it is given. *)
Theorem insert_equivalent_key_diverges op key_eq s t k v k' v' :
  strict_weak_order op → eq_operator key_eq →
  bst_repr s t → ordered op t →
  (k', v') ∈ inorder t →
  op k k' = false → op k' k = false → k ≠ k' →
  ∀ fuel, insert op key_eq fuel s (k, v) = Timeout.
Proof.
  intros Hswo Heq Hrep Hord Hin H1 H2 Hne fuel.
  destruct (equivalent_descent op key_eq t k k' v' (fresh (dom (mem s))) v
              Hswo Heq Hord Hin H1 H2 Hne) as [Hfind Hins].
  pose proof (insert_owns op key_eq s t (k, v) (height t) (op_asym' op Hswo) Hrep (le_n _))
    as Hspec.
  simpl in Hspec. rewrite Hfind, Hins in Hspec. apply Hspec.
Qed.

End compositions.

(** ** The properties above at concrete trees *)

Lemma one_entry_ordered op : ordered op one_entry_tree.
Proof. simpl. unfold keys. simpl. repeat constructor. Qed.

Lemma absent_4 : 4%Z ∉ keys three_entries_tree.
Proof. apply (bool_decide_unpack _). by vm_compute. Qed.

Lemma two_objects_first : bst_repr (mk_bst (w_mem two_objects) (Some 1%positive)) one_entry_tree.
Proof. split_and!; simpl; try done. apply NoDup_singleton. Qed.

Lemma two_objects_second :
  bst_repr (mk_bst (w_mem two_objects) (Some 2%positive)) other_entry_tree.
Proof. split_and!; simpl; try done. apply NoDup_singleton. Qed.

Lemma find_present_witness :
  ∃ a nd, find int_less int_eq 2 three_entries 8%Z = Ret (Some a)
          ∧ mem three_entries !! a = Some nd ∧ value nd = (8, 80)%Z.
Proof.
  apply (find_present int_less int_eq three_entries three_entries_tree 8%Z 80%Z 2).
  - exact int_less_swo.
  - exact int_eq_operator.
  - exact three_entries_repr.
  - exact three_entries_ordered.
  - simpl. apply list_elem_of_further, list_elem_of_further, list_elem_of_here.
  - simpl. lia.
Defined.

Lemma find_absent_witness : find int_less int_eq 2 three_entries 4%Z = Ret None.
Proof.
  apply (find_absent int_less int_eq three_entries three_entries_tree 4%Z 2).
  - exact int_eq_operator.
  - exact three_entries_repr.
  - exact absent_4.
  - simpl. lia.
Defined.

Lemma insert_absent_witness :
  ∃ s' t' b nd pre post,
    insert int_less int_eq 2 three_entries (4, 40)%Z = Ret (s', (Some b, true))
    ∧ bst_repr s' t' ∧ ordered int_less t'
    ∧ inorder three_entries_tree = pre ++ post ∧ inorder t' = pre ++ (4, 40)%Z :: post
    ∧ mem three_entries !! b = None ∧ mem s' !! b = Some nd ∧ value nd = (4, 40)%Z
    ∧ left nd = None ∧ right nd = None
    ∧ height t' ≤ S (height three_entries_tree).
Proof.
  apply (insert_absent int_less int_eq three_entries three_entries_tree 4%Z 40%Z 2).
  - exact int_less_swo.
  - exact int_eq_operator.
  - exact int_less_total.
  - exact three_entries_repr.
  - exact three_entries_ordered.
  - exact absent_4.
  - simpl. lia.
Defined.

Lemma insert_then_find_witness :
  ∃ s' b nd,
    insert int_less int_eq 3 three_entries (4, 40)%Z = Ret (s', (Some b, true))
    ∧ find int_less int_eq 3 s' 4%Z = Ret (Some b)
    ∧ mem s' !! b = Some nd ∧ value nd = (4, 40)%Z.
Proof.
  apply (insert_then_find int_less int_eq three_entries three_entries_tree 4%Z 40%Z 3).
  - exact int_less_swo.
  - exact int_eq_operator.
  - exact int_less_total.
  - exact three_entries_repr.
  - exact three_entries_ordered.
  - exact absent_4.
  - simpl. lia.
Defined.

Lemma insert_keeps_nodes_witness :
  ∃ s' b, insert int_less int_eq 2 three_entries (4, 40)%Z = Ret (s', (Some b, true))
          ∧ ∀ a nd, a ∈ locs three_entries_tree → mem three_entries !! a = Some nd →
              a ≠ b ∧ ∃ nd', mem s' !! a = Some nd' ∧ value nd' = value nd.
Proof.
  apply (insert_keeps_nodes int_less int_eq three_entries three_entries_tree 4%Z 40%Z 2).
  - exact int_less_swo.
  - exact int_eq_operator.
  - exact int_less_total.
  - exact three_entries_repr.
  - exact three_entries_ordered.
  - exact absent_4.
  - simpl. lia.
Defined.

Lemma insert_all_first_wins_witness :
  ∃ s t, insert_all int_less int_eq 3 empty_bst [(5, 50); (3, 30); (5, 51)]%Z = Ret s
         ∧ bst_repr s t ∧ ordered int_less t
         ∧ (∀ k v, (k, v) ∈ inorder t
                   ↔ first_value int_eq [(5, 50); (3, 30); (5, 51)]%Z k = Some v).
Proof.
  apply (insert_all_first_wins int_less int_eq [(5, 50); (3, 30); (5, 51)]%Z 3).
  - exact int_less_swo.
  - exact int_eq_operator.
  - exact int_less_total.
  - simpl. lia.
Defined.

Lemma erase_absent_witness : erase int_less int_eq 3 three_entries 4%Z = Ret three_entries.
Proof.
  apply (erase_absent int_less int_eq three_entries three_entries_tree 4%Z 3).
  - exact int_eq_operator.
  - exact three_entries_repr.
  - exact absent_4.
  - simpl. lia.
Defined.

Lemma erase_then_find_witness :
  ∃ s', erase int_less int_eq 4 three_entries 5%Z = Ret s'
        ∧ ∀ n, length (inorder three_entries_tree) ≤ n → find int_less int_eq n s' 5%Z = Ret None.
Proof.
  apply (erase_then_find int_less int_eq three_entries three_entries_tree 5%Z 50%Z 4).
  - exact int_less_swo.
  - exact int_eq_operator.
  - exact three_entries_repr.
  - exact three_entries_ordered.
  - simpl. apply list_elem_of_further, list_elem_of_here.
  - simpl. lia.
Defined.

Lemma erase_keeps_others_witness :
  ∃ s', erase int_less int_eq 4 three_entries 5%Z = Ret s'
        ∧ ∀ n, length (inorder three_entries_tree) ≤ n →
            ∃ a nd, find int_less int_eq n s' 8%Z = Ret (Some a)
                    ∧ mem s' !! a = Some nd ∧ value nd = (8, 80)%Z.
Proof.
  apply (erase_keeps_others int_less int_eq three_entries three_entries_tree
           5%Z 50%Z 8%Z 80%Z 4).
  - exact int_less_swo.
  - exact int_eq_operator.
  - exact three_entries_repr.
  - exact three_entries_ordered.
  - simpl. apply list_elem_of_further, list_elem_of_here.
  - simpl. apply list_elem_of_further, list_elem_of_further, list_elem_of_here.
  - discriminate.
  - simpl. lia.
Defined.

Lemma insert_then_erase_witness :
  ∃ s1 b s2 t2,
    insert int_less int_eq 5 three_entries (4, 40)%Z = Ret (s1, (Some b, true))
    ∧ erase int_less int_eq 5 s1 4%Z = Ret s2
    ∧ bst_repr s2 t2 ∧ ordered int_less t2
    ∧ inorder t2 = inorder three_entries_tree.
Proof.
  apply (insert_then_erase int_less int_eq three_entries three_entries_tree 4%Z 40%Z 5).
  - exact int_less_swo.
  - exact int_eq_operator.
  - exact int_less_total.
  - exact three_entries_repr.
  - exact three_entries_ordered.
  - exact absent_4.
  - simpl. lia.
Defined.

Lemma erase_then_insert_witness :
  ∃ s1 s2 b t2,
    erase int_less int_eq 5 three_entries 5%Z = Ret s1
    ∧ insert int_less int_eq 5 s1 (5, 50)%Z = Ret (s2, (Some b, true))
    ∧ bst_repr s2 t2 ∧ ordered int_less t2
    ∧ inorder t2 = inorder three_entries_tree.
Proof.
  apply (erase_then_insert int_less int_eq three_entries three_entries_tree 5%Z 50%Z 5).
  - exact int_less_swo.
  - exact int_eq_operator.
  - exact int_less_total.
  - exact three_entries_repr.
  - exact three_entries_ordered.
  - simpl. apply list_elem_of_further, list_elem_of_here.
  - simpl. lia.
Defined.

Lemma clear_releases_witness :
  ∃ s', clear 2 three_entries = Ret s'
        ∧ root s' = None
        ∧ (∀ a, a ∈ locs three_entries_tree → mem s' !! a = None)
        ∧ (∀ a, a ∉ locs three_entries_tree → mem s' !! a = mem three_entries !! a)
        ∧ ∀ n, begin n s' = Ret None.
Proof.
  apply (clear_releases three_entries three_entries_tree 2).
  - exact three_entries_repr.
  - simpl. lia.
Defined.

Lemma begin_least_witness :
  ∃ a nd, begin 2 three_entries = Ret (Some a)
          ∧ mem three_entries !! a = Some nd ∧ value nd = (3, 30)%Z ∧ left nd = None
          ∧ Forall (λ x, int_less (3, 30)%Z.1 x.1 = true) [(5, 50); (8, 80)]%Z.
Proof.
  apply (begin_least int_less three_entries three_entries_tree 2).
  - exact int_less_swo.
  - exact three_entries_repr.
  - exact three_entries_ordered.
  - simpl. lia.
Defined.

Lemma index_present_witness :
  ∃ a nd, operator_index int_less int_eq 0%Z 2 three_entries 8%Z = Ret (three_entries, a)
          ∧ mem three_entries !! a = Some nd ∧ value nd = (8, 80)%Z.
Proof.
  apply (index_present int_less int_eq 0%Z three_entries three_entries_tree 8%Z 80%Z 2).
  - exact int_less_swo.
  - exact int_eq_operator.
  - exact three_entries_repr.
  - exact three_entries_ordered.
  - simpl. apply list_elem_of_further, list_elem_of_further, list_elem_of_here.
  - simpl. lia.
Defined.

Lemma index_absent_witness :
  ∃ s' t' a nd pre post,
    operator_index int_less int_eq 0%Z 2 three_entries 4%Z = Ret (s', a)
    ∧ bst_repr s' t' ∧ ordered int_less t'
    ∧ inorder three_entries_tree = pre ++ post ∧ inorder t' = pre ++ (4, 0)%Z :: post
    ∧ mem s' !! a = Some nd ∧ value nd = (4, 0)%Z.
Proof.
  apply (index_absent int_less int_eq 0%Z three_entries three_entries_tree 4%Z 2).
  - exact int_less_swo.
  - exact int_eq_operator.
  - exact int_less_total.
  - exact three_entries_repr.
  - exact three_entries_ordered.
  - exact absent_4.
  - simpl. lia.
Defined.

Lemma balance_then_find_witness :
  ∃ s' a nd, balance int_less int_eq 8 three_entries = Ret s'
             ∧ find int_less int_eq 8 s' 8%Z = Ret (Some a)
             ∧ mem s' !! a = Some nd ∧ value nd = (8, 80)%Z.
Proof.
  apply (balance_then_find int_less int_eq three_entries three_entries_tree 8%Z 80%Z 8).
  - exact int_less_swo.
  - exact int_eq_operator.
  - exact three_entries_repr.
  - exact three_entries_ordered.
  - simpl. apply list_elem_of_further, list_elem_of_further, list_elem_of_here.
  - simpl. lia.
  - simpl. lia.
Defined.

Lemma copy_constructor_deep_copy_witness :
  ∃ c h' t',
    copy_construct 2 (mem three_entries) (root three_entries) = Ret (c, h')
    ∧ bst_repr (mk_bst h' c) t'
    ∧ shape_of t' = shape_of three_entries_tree ∧ inorder t' = inorder three_entries_tree
    ∧ bst_repr (mk_bst h' (root three_entries)) three_entries_tree
    ∧ (∀ a, a ∈ locs t' → a ∉ locs three_entries_tree).
Proof.
  apply (copy_constructor_deep_copy three_entries three_entries_tree 2).
  - exact three_entries_repr.
  - simpl. lia.
Defined.

Lemma copy_assign_distinct_witness :
  ∃ w' st sx t',
    operator_assign 1 two_objects 1%positive 2%positive = Ret w'
    ∧ object w' 1%positive = Ret st ∧ bst_repr st t'
    ∧ shape_of t' = shape_of other_entry_tree ∧ inorder t' = inorder other_entry_tree
    ∧ object w' 2%positive = Ret sx ∧ bst_repr sx other_entry_tree
    ∧ (∀ a, a ∈ locs t' → a ∉ locs other_entry_tree).
Proof.
  apply (copy_assign_distinct two_objects 1%positive 2%positive
           (Some 1%positive) (Some 2%positive) one_entry_tree other_entry_tree 1).
  - discriminate.
  - reflexivity.
  - reflexivity.
  - exact two_objects_first.
  - exact two_objects_second.
  - simpl. intros a Ha Hb. apply list_elem_of_singleton in Ha, Hb. subst a. discriminate.
  - simpl. lia.
  - simpl. lia.
Defined.

Lemma self_assignment_always_empties_witness :
  ∃ w' st, operator_assign 1 two_objects 2%positive 2%positive = Ret w'
           ∧ object w' 2%positive = Ret st ∧ root st = None
           ∧ ∀ n, begin n st = Ret None.
Proof.
  apply (self_assignment_always_empties two_objects 2%positive (Some 2%positive)
           other_entry_tree 1).
  - reflexivity.
  - exact two_objects_second.
  - simpl. lia.
Defined.

Lemma find_equivalent_key_end_witness : find half_less int_eq 1 one_entry 3%Z = Ret None.
Proof.
  apply (find_equivalent_key_end half_less int_eq one_entry one_entry_tree 3%Z 2%Z 0%Z 1).
  - exact half_less_swo.
  - exact int_eq_operator.
  - exact one_entry_repr.
  - exact (one_entry_ordered half_less).
  - simpl. apply list_elem_of_here.
  - reflexivity.
  - reflexivity.
  - discriminate.
  - simpl. lia.
Defined.

Lemma insert_equivalent_key_diverges_witness :
  insert half_less int_eq 100 one_entry (3, 9)%Z = Timeout.
Proof.
  refine (insert_equivalent_key_diverges half_less int_eq one_entry one_entry_tree
            3%Z 9%Z 2%Z 0%Z _ _ _ _ _ _ _ _ 100).
  - exact half_less_swo.
  - exact int_eq_operator.
  - exact one_entry_repr.
  - exact (one_entry_ordered half_less).
  - simpl. apply list_elem_of_here.
  - reflexivity.
  - reflexivity.
  - discriminate.
Defined.
